(** * Trajectory alignment and deviation metrics

    Shallow embedding of
    [compare_planned_and_executed_trajectory.py]: the velocity-threshold
    trimming of the executed trajectory, the arc-length parametrization, the
    duplicate-point filter, the resampling on a uniform grid and the RMSE
    metrics.

    Measurements are [float64] in the program; here they are real numbers
    ([R]), so rounding, infinities and NaN are out of the model.  The pandas,
    numpy and scipy operations the program calls are written out after the
    library code they stand for; the functions of the repository follow the
    source line by line. *)

From Stdlib Require Import Reals Lra Lia List String Ascii Arith Bool Sorted.
Import ListNotations.
Local Open Scope R_scope.

(** ** Comparisons on measurements *)

Definition Rleb (x y : R) : bool := if Rle_dec x y then true else false.
Definition Rltb (x y : R) : bool := if Rlt_dec x y then true else false.
Definition Reqb (x y : R) : bool := if Req_dec_T x y then true else false.

Arguments Rleb : simpl never.
Arguments Rltb : simpl never.
Arguments Reqb : simpl never.

(** ** Python exceptions and results *)

Inductive exn : Type :=
| ValueError (msg : string)
| KeyError (key : string)
| IndexError.

Inductive result (A : Type) : Type :=
| Ok (a : A)
| Raise (e : exn).

Arguments Ok {A} a.
Arguments Raise {A} e.

Definition bind {A B : Type} (m : result A) (k : A -> result B) : result B :=
  match m with
  | Ok a => k a
  | Raise e => Raise e
  end.

Notation "x <- m ;; k" := (bind m (fun x => k))
  (at level 61, m at next level, right associativity).

(** ** pandas: the part of [DataFrame] and [Series] the program uses *)

Module Pd.

(** A frame read by [pd.read_csv]: the header and the rows, labelled by the
    default [RangeIndex] [0 .. n-1] (a row's label is its position). *)
Record DataFrame : Type := mkDataFrame {
  columns : list string;
  values : list (list R)
}.

(** [Index.get_loc]: the position of a column name. *)
Fixpoint get_loc (c : string) (cols : list string) : option nat :=
  match cols with
  | [] => None
  | c' :: cols' =>
      if String.eqb c c' then Some 0%nat
      else option_map S (get_loc c cols')
  end.

(** The positions of a list of names; [KeyError] at the first absent one. *)
Fixpoint get_locs (names cols : list string) : result (list nat) :=
  match names with
  | [] => Ok []
  | c :: names' =>
      match get_loc c cols with
      | None => Raise (KeyError c)
      | Some j => js <- get_locs names' cols ;; Ok (j :: js)
      end
  end.

Definition take_row (js : list nat) (row : list R) : list R :=
  map (fun j => nth j row 0) js.

(** [df[names].values]: the selected channels of every row, in the order of
    [names]. *)
Definition getitem (df : DataFrame) (names : list string)
  : result (list (list R)) :=
  js <- get_locs names (columns df) ;;
  Ok (map (take_row js) (values df)).

(** A boolean [Series]: values with their labels. *)
Definition Series : Type := list (nat * bool).

Definition series (l : list bool) : Series :=
  combine (seq 0 (List.length l)) l.

(** [Series.idxmax]: the label of the first occurrence of the maximum;
    on booleans the first [True], and the first label when there is none.
    [ValueError] on an empty series. *)
Definition idxmax (s : Series) : result nat :=
  match s with
  | [] => Raise (ValueError "attempt to get argmax of an empty sequence")
  | (l0, _) :: _ =>
      Ok (match find (fun p => snd p) s with
          | Some (l, _) => l
          | None => l0
          end)
  end.

(** [df.loc[a:b]] on a [RangeIndex]: the rows labelled [a] to [b], both
    included. *)
Definition loc (df : DataFrame) (a b : nat) : DataFrame :=
  mkDataFrame (columns df) (firstn (S b - a) (skipn a (values df))).

(** [reset_index(drop=True)]: the rows are relabelled from 0; labels are
    positions here, so the frame is the same. *)
Definition reset_index (df : DataFrame) : DataFrame := df.

End Pd.

(** ** Python strings: [sub in s] *)

Fixpoint contains (sub s : string) : bool :=
  match s with
  | EmptyString => String.prefix sub EmptyString
  | String _ s' => String.prefix sub s || contains sub s'
  end.

(** ** The motion-segment trimming of both comparison functions *)

(** [vel_cols = [col for col in df_executed.columns if "vel" in col]] *)
Definition vel_cols (df_executed : Pd.DataFrame) : list string :=
  filter (contains "vel") (Pd.columns df_executed).

(** [~(df_executed[vel_cols] <= vel_threshold).all(axis=1)] *)
Definition moving_mask (vels : list (list R)) (vel_threshold : R) : list bool :=
  map (fun row => negb (forallb (fun v => Rleb v vel_threshold) row)) vels.

(** Lines 34-38 of [compare_and_plot_joint_trajectories]. *)
Definition trim_joint (df_executed : Pd.DataFrame) (vel_threshold : R)
  : result Pd.DataFrame :=
  vels <- Pd.getitem df_executed (vel_cols df_executed) ;;
  let mask := Pd.series (moving_mask vels vel_threshold) in
  start_index <- Pd.idxmax mask ;;
  end_index <- Pd.idxmax (rev mask) ;;
  Ok (Pd.reset_index (Pd.loc df_executed start_index end_index)).

(** Lines 129-134 of [compare_and_plot_cartesian_trajectories]. *)
Definition trim_cartesian (df_executed : Pd.DataFrame) (vel_threshold : R)
  : result Pd.DataFrame :=
  match vel_cols df_executed with
  | [] => Ok df_executed
  | _ :: _ =>
      if Rltb 0 vel_threshold then
        vels <- Pd.getitem df_executed (vel_cols df_executed) ;;
        let mask := Pd.series (moving_mask vels vel_threshold) in
        start_index <- Pd.idxmax mask ;;
        end_index <- Pd.idxmax (rev mask) ;;
        Ok (Pd.reset_index (Pd.loc df_executed start_index end_index))
      else Ok df_executed
  end.

(** ** numpy: the array operations the program calls

    A one-dimensional array is a [list R], a two-dimensional one the list of
    its rows. *)

Module Np.

(** [np.linspace(start, stop, num)]: [num] evenly spaced samples, the last
    one set to [stop] itself. *)
Definition linspace (start stop : R) (num : nat) : list R :=
  let div := (num - 1)%nat in
  let step := (stop - start) / INR div in
  match num with
  | 0%nat => []
  | 1%nat => [start]
  | _ => map (fun k => INR k * step + start) (seq 0 div) ++ [stop]
  end.

(** Elementwise [a - b] on two rows. *)
Definition sub_row (a b : list R) : list R :=
  map (fun p => fst p - snd p) (combine a b).

(** Elementwise [a - b] on two arrays of the same shape. *)
Definition sub (a b : list (list R)) : list (list R) :=
  map (fun p => sub_row (fst p) (snd p)) (combine a b).

(** [a ** 2], elementwise. *)
Definition square (a : list (list R)) : list (list R) :=
  map (map Rsqr) a.

(** [np.diff(a, axis=0)]: [a[i+1] - a[i]] for each consecutive pair of
    rows. *)
Definition diff (a : list (list R)) : list (list R) :=
  map (fun p => sub_row (snd p) (fst p)) (combine a (tl a)).

(** [np.sum] of a one-dimensional array. *)
Definition sum (a : list R) : R := fold_right Rplus 0 a.

(** [np.sum(a, axis=1)]: one sum per row. *)
Definition sum_axis1 (a : list (list R)) : list R := map sum a.

(** [np.linalg.norm(a, axis=1)]: the Euclidean norm of each row. *)
Definition norm_axis1 (a : list (list R)) : list R :=
  map (fun row => sqrt (sum (map Rsqr row))) a.

(** [np.cumsum]: the running sums. *)
Fixpoint cumsum_from (acc : R) (a : list R) : list R :=
  match a with
  | [] => []
  | v :: a' => (acc + v) :: cumsum_from (acc + v) a'
  end.

Definition cumsum (a : list R) : list R := cumsum_from 0 a.

(** [np.mean] of a one-dimensional array. *)
Definition mean (a : list R) : R := sum a / INR (List.length a).

(** [np.mean(a)] of a two-dimensional array: over all its entries. *)
Definition mean_all (a : list (list R)) : R := mean (List.concat a).

(** [np.mean(a, axis=0)]: one mean per column, over the rows. *)
Definition add_row (a b : list R) : list R :=
  map (fun p => fst p + snd p) (combine a b).

Definition sum_axis0 (a : list (list R)) : list R :=
  match a with
  | [] => []
  | row :: a' => fold_left add_row a' row
  end.

Definition mean_axis0 (a : list (list R)) : list R :=
  map (fun s => s / INR (List.length a)) (sum_axis0 a).

(** [np.argsort(a, kind="mergesort")]: the indices that sort [a], equal
    values kept in their original order. *)
Fixpoint insert (p : nat * R) (l : list (nat * R)) : list (nat * R) :=
  match l with
  | [] => [p]
  | q :: l' =>
      if Rleb (snd p) (snd q) then p :: q :: l' else q :: insert p l'
  end.

Definition argsort (a : list R) : list nat :=
  map fst (fold_right insert [] (combine (seq 0 (List.length a)) a)).

(** [a[mask]] for a boolean mask. *)
Definition compress {A : Type} (mask : list bool) (a : list A) : list A :=
  map snd (filter fst (combine mask a)).

(** [aux[1:] != aux[:-1]], given the element before. *)
Fixpoint neq_prev (prev : R) (aux : list R) : list bool :=
  match aux with
  | [] => []
  | v :: aux' => negb (Reqb v prev) :: neq_prev v aux'
  end.

(** [np.unique(ar, return_index=True)]: the sorted distinct values, and for
    each the index of its first occurrence in [ar]. *)
Definition unique_index (ar : list R) : list R * list nat :=
  let perm := argsort ar in
  let aux := map (fun i => nth i ar 0) perm in
  let mask :=
    match aux with
    | [] => []
    | v :: aux' => true :: neq_prev v aux'
    end in
  (compress mask aux, compress mask perm).

(** [a[idx]] for an array of indices; [IndexError] out of range. *)
Fixpoint take {A : Type} (a : list A) (idx : list nat) : result (list A) :=
  match idx with
  | [] => Ok []
  | i :: idx' =>
      match nth_error a i with
      | None => Raise IndexError
      | Some v => vs <- take a idx' ;; Ok (v :: vs)
      end
  end.

(** [np.searchsorted(a, v)] (left side) on a sorted array: the number of
    entries below [v]. *)
Fixpoint searchsorted (a : list R) (v : R) : nat :=
  match a with
  | [] => 0%nat
  | x :: a' => if Rltb x v then S (searchsorted a' v) else 0%nat
  end.

(** [i.clip(lo, hi)] *)
Definition clip (i lo hi : nat) : nat := Nat.min (Nat.max i lo) hi.

End Np.

(** ** scipy: [interp1d(x, y, axis=0, kind='linear')] *)

Module Sp.

Record interp1d : Type := mkInterp1d {
  x : list R;
  y : list (list R)
}.

(** The constructor: [x] and [y] of the same length and not empty, sorted
    by [x]. *)
Definition make (x0 : list R) (y0 : list (list R)) : result interp1d :=
  if negb (List.length x0 =? List.length y0)%nat then
    Raise (ValueError
      "x and y arrays must be equal in length along interpolation axis.")
  else
    let ind := Np.argsort x0 in
    x1 <- Np.take x0 ind ;;
    y1 <- Np.take y0 ind ;;
    if (List.length x1 <? 1)%nat then
      Raise (ValueError "x and y arrays must have at least 1 entries")
    else Ok (mkInterp1d x1 y1).

(** [_call_linear] at one new coordinate: the segment is found by
    [searchsorted], clipped to [1 .. len-1]; [lo = hi - 1] is a Python
    index, so [-1] is the last entry. *)
Definition call_linear (f : interp1d) (x_new : R) : list R :=
  let n := List.length (x f) in
  let hi := Np.clip (Np.searchsorted (x f) x_new) 1 (n - 1) in
  let lo := if (hi =? 0)%nat then (n - 1)%nat else (hi - 1)%nat in
  let x_lo := nth lo (x f) 0 in
  let x_hi := nth hi (x f) 0 in
  let y_lo := nth lo (y f) [] in
  let y_hi := nth hi (y f) [] in
  let slope := map (fun d => d / (x_hi - x_lo)) (Np.sub_row y_hi y_lo) in
  map (fun p => fst p * (x_new - x_lo) + snd p) (combine slope y_lo).

(** [_check_bounds] with the default [bounds_error=True]. *)
Definition check_bounds (f : interp1d) (x_new : list R) : result unit :=
  if existsb (fun v => Rltb v (hd 0 (x f))) x_new then
    Raise (ValueError "A value in x_new is below the interpolation range.")
  else if existsb (fun v => Rltb (last (x f) 0) v) x_new then
    Raise (ValueError "A value in x_new is above the interpolation range.")
  else Ok tt.

(** [f(x_new)] *)
Definition call (f : interp1d) (x_new : list R) : result (list (list R)) :=
  let y_new := map (call_linear f) x_new in
  _ <- check_bounds f x_new ;;
  Ok y_new.

End Sp.

(** ** The functions of the module *)

Definition compute_arc_length_parametrization (positions : list (list R))
  : result (list R) :=
  if (List.length positions <? 2)%nat then
    Raise (ValueError "Need at least two points for arc-length parametrization.")
  else
    let diffs := Np.diff positions in
    let dists := Np.norm_axis1 diffs in
    let total_length := Np.sum dists in
    if Reqb total_length 0 then
      Raise (ValueError "Arc length is zero. All positions are identical.")
    else
      let arc_lengths := 0 :: Np.cumsum dists in
      let normalized_arc :=
        map (fun a => a / last arc_lengths 0) arc_lengths in
      Ok normalized_arc.

Definition remove_duplicate_points (s : list R) (positions : list (list R))
  : result (list R * list (list R)) :=
  let unique_indices := snd (Np.unique_index s) in
  s' <- Np.take s unique_indices ;;
  positions' <- Np.take positions unique_indices ;;
  Ok (s', positions').

(** [interp1d(s, positions, axis=0)(np.linspace(0, 1, n_points))]: the
    resampling of both comparison functions. *)
Definition resample (s : list R) (positions : list (list R)) (n_points : nat)
  : result (list (list R)) :=
  interp <- Sp.make s positions ;;
  Sp.call interp (Np.linspace 0 1 n_points).

(** Lines 53-54: [np.sqrt(np.mean((planned - executed) ** 2, axis=0))] and
    [np.sqrt(np.mean((planned - executed) ** 2))]. *)
Definition rmse (planned_resampled executed_resampled : list (list R))
  : list R :=
  map sqrt
    (Np.mean_axis0 (Np.square (Np.sub planned_resampled executed_resampled))).

Definition total_rmse (planned_resampled executed_resampled : list (list R))
  : R :=
  sqrt (Np.mean_all (Np.square (Np.sub planned_resampled executed_resampled))).

(** Lines 176-178. *)
Definition rmse_3d (planned_resampled executed_resampled : list (list R)) : R :=
  let diffs := Np.sub planned_resampled executed_resampled in
  let squared_distances := Np.sum_axis1 (Np.square diffs) in
  sqrt (Np.mean squared_distances).

(** [compare_and_plot_joint_trajectories], without the plot: the per-joint
    and the total RMSE. *)
Definition compare_joint_trajectories
    (df_planned df_executed : Pd.DataFrame) (joint_pos_names : list string)
    (n_points : nat) (vel_threshold : R) : result (list R * R) :=
  df_executed_clean <- trim_joint df_executed vel_threshold ;;
  planned_positions <- Pd.getitem df_planned joint_pos_names ;;
  planned_resampled <-
    resample (Np.linspace 0 1 (List.length planned_positions))
      planned_positions n_points ;;
  executed_positions <- Pd.getitem df_executed_clean joint_pos_names ;;
  executed_resampled <-
    resample (Np.linspace 0 1 (List.length executed_positions))
      executed_positions n_points ;;
  Ok (rmse planned_resampled executed_resampled,
      total_rmse planned_resampled executed_resampled).

(** [compare_and_plot_cartesian_trajectories], without the plot: the 3-D
    RMSE. *)
Definition compare_cartesian_trajectories
    (df_planned df_executed : Pd.DataFrame) (cart_pos_names : list string)
    (n_points : nat) (vel_threshold : R) : result R :=
  df_executed <- trim_cartesian df_executed vel_threshold ;;
  let pos_names := firstn 3 cart_pos_names in
  planned_positions <- Pd.getitem df_planned pos_names ;;
  executed_positions <- Pd.getitem df_executed pos_names ;;
  s_planned <- compute_arc_length_parametrization planned_positions ;;
  s_executed <- compute_arc_length_parametrization executed_positions ;;
  sp <- remove_duplicate_points s_planned planned_positions ;;
  se <- remove_duplicate_points s_executed executed_positions ;;
  let '(s_planned, planned_positions) := sp in
  let '(s_executed, executed_positions) := se in
  if ((List.length s_planned <? 2) || (List.length s_executed <? 2))%nat then
    Raise (ValueError "Too few unique points after removing duplicates.")
  else
    planned_resampled <- resample s_planned planned_positions n_points ;;
    executed_resampled <- resample s_executed executed_positions n_points ;;
    Ok (rmse_3d planned_resampled executed_resampled).

(** Lines 149-178 of [compare_and_plot_cartesian_trajectories]: from the two
    arrays of positions to the 3-D RMSE. *)
Definition compare_positions
    (planned_positions executed_positions : list (list R)) (n_points : nat)
  : result R :=
  s_planned <- compute_arc_length_parametrization planned_positions ;;
  s_executed <- compute_arc_length_parametrization executed_positions ;;
  sp <- remove_duplicate_points s_planned planned_positions ;;
  se <- remove_duplicate_points s_executed executed_positions ;;
  let '(s_planned, planned_positions) := sp in
  let '(s_executed, executed_positions) := se in
  if ((List.length s_planned <? 2) || (List.length s_executed <? 2))%nat then
    Raise (ValueError "Too few unique points after removing duplicates.")
  else
    planned_resampled <- resample s_planned planned_positions n_points ;;
    executed_resampled <- resample s_executed executed_positions n_points ;;
    Ok (rmse_3d planned_resampled executed_resampled).

(** The point at the fraction [t] of the segment from [A] to [B], and the
    points at the fractions [ts]. *)
Definition point_on (A B : list R) (t : R) : list R :=
  map (fun ab => fst ab + t * (snd ab - fst ab)) (combine A B).

Definition points_on (A B : list R) (ts : list R) : list (list R) :=
  map (point_on A B) ts.

(** Two samplings of the unit interval. *)
Definition ts_coarse : list R := [0; 0.5; 1].
Definition ts_fine : list R := [0; 0.1; 0.1; 0.7; 1].

(** ** The path of the figure

    A Python [str] is a list of characters here; [os.path] is [posixpath]. *)

Module Os.

Definition sep : ascii := "/"%char.

(** [s.startswith(pre)] *)
Fixpoint startswith (pre s : list ascii) : bool :=
  match pre with
  | [] => true
  | a :: pre' =>
      match s with
      | [] => false
      | b :: s' => Ascii.eqb a b && startswith pre' s'
      end
  end.

(** [p.endswith(sep)] *)
Definition endswith_sep (p : list ascii) : bool :=
  match rev p with
  | [] => false
  | c :: _ => Ascii.eqb c sep
  end.

(** [s.find(old)]: the index of the first occurrence. *)
Fixpoint find (old s : list ascii) : option nat :=
  match s with
  | [] => if startswith old [] then Some 0%nat else None
  | _ :: s' =>
      if startswith old s then Some 0%nat else option_map S (find old s')
  end.

(** [s.replace(old, new)] for an [old] that is not empty: the occurrences
    are replaced from the left, and the search goes on behind each of them;
    [skip] characters of a replaced occurrence are still to pass. *)
Fixpoint replace_from (old new : list ascii) (skip : nat) (s : list ascii)
  : list ascii :=
  match s with
  | [] => []
  | c :: s' =>
      match skip with
      | S k => replace_from old new k s'
      | O =>
          if startswith old s
          then new ++ replace_from old new (List.length old - 1) s'
          else c :: replace_from old new 0 s'
      end
  end.

Definition replace (old new s : list ascii) : list ascii :=
  replace_from old new 0 s.

(** [(p[:i], p[i:])] for [i = p.rfind(sep) + 1]. *)
Fixpoint rsplit_sep (p : list ascii) : list ascii * list ascii :=
  match p with
  | [] => ([], [])
  | c :: p' =>
      let (h, t) := rsplit_sep p' in
      match h with
      | [] => if Ascii.eqb c sep then ([c], t) else ([], c :: t)
      | _ :: _ => (c :: h, t)
      end
  end.

(** [head.rstrip(sep)] *)
Fixpoint rstrip_sep (p : list ascii) : list ascii :=
  match p with
  | [] => []
  | c :: p' =>
      match rstrip_sep p' with
      | [] => if Ascii.eqb c sep then [] else [c]
      | r => c :: r
      end
  end.

Definition basename (p : list ascii) : list ascii := snd (rsplit_sep p).

Definition dirname (p : list ascii) : list ascii :=
  let head := fst (rsplit_sep p) in
  match head with
  | [] => head
  | _ :: _ =>
      if forallb (fun c => Ascii.eqb c sep) head then head
      else rstrip_sep head
  end.

(** [os.path.join(a, b)] *)
Definition join (a b : list ascii) : list ascii :=
  if startswith [sep] b then b
  else
    match a with
    | [] => a ++ b
    | _ :: _ => if endswith_sep a then a ++ b else a ++ sep :: b
    end.

End Os.

(** A file name: no separator in it. *)
Definition no_sep (name : list ascii) : bool :=
  forallb (fun c => negb (Ascii.eqb c Os.sep)) name.

(** File paths used as examples. *)
Definition data_dir : list ascii := list_ascii_of_string "src/data".
Definition planned_stem : list ascii := list_ascii_of_string "trajectory_1".
Definition other_name : list ascii := list_ascii_of_string "plan.csv".

(** Lines 112-115 and 220-223: the figure is named after the planned file,
    [suffix] in place of ["_planned.csv"], in the directory of that file. *)
Definition plot_path (suffix : string) (filepath_planned : list ascii)
  : list ascii :=
  let base_name :=
    Os.replace (list_ascii_of_string "_planned.csv")
      (list_ascii_of_string suffix) (Os.basename filepath_planned) in
  Os.join (Os.dirname filepath_planned) base_name.

Definition plot_path_joint : list ascii -> list ascii :=
  plot_path "_compare_planned_vs_executed.png".

Definition plot_path_cartesian : list ascii -> list ascii :=
  plot_path "_compare_cartesian_planned_vs_executed.png".

(** ** The properties the specification states, in its own words *)

(** The names the specification gives to the two failures of the arc-length
    parametrization. *)
Definition InsufficientPoints : exn :=
  ValueError "Need at least two points for arc-length parametrization.".

Definition ZeroArcLength : exn :=
  ValueError "Arc length is zero. All positions are identical.".

(** The values of the selected velocity channels at one sample. *)
Definition sample_vels (df : Pd.DataFrame) (row : list R) : list R :=
  match Pd.get_locs (vel_cols df) (Pd.columns df) with
  | Ok js => Pd.take_row js row
  | Raise _ => []
  end.

(** One entry of the mask: the sample is moving. *)
Definition movingb (df : Pd.DataFrame) (thr : R) (row : list R) : bool :=
  negb (forallb (fun v => Rleb v thr) (sample_vels df row)).

(** The mask of the rows under [f], labelled from [k] on. *)
Definition labelled_from {A : Type} (f : A -> bool) (k : nat) (rows : list A)
  : Pd.Series :=
  combine (seq k (List.length (map f rows))) (map f rows).

(** At least one velocity exceeds the threshold: as a signed value, and in
    absolute value. *)
Definition exceeds (thr : R) (vels : list R) : Prop :=
  Exists (fun v => thr < v) vels.

Definition exceeds_abs (thr : R) (vels : list R) : Prop :=
  Exists (fun v => thr < Rabs v) vels.

(** [trim df thr] is the sub-sequence of [df] from the first to the last
    sample at which [exceed] holds. *)
Definition trims_to_segment
    (exceed : R -> list R -> Prop)
    (trim : Pd.DataFrame -> R -> result Pd.DataFrame)
    (df : Pd.DataFrame) (thr : R) : Prop :=
  exists pre seg post,
    Pd.values df = pre ++ seg ++ post /\
    trim df thr = Ok (Pd.mkDataFrame (Pd.columns df) seg) /\
    Forall (fun row => ~ exceed thr (sample_vels df row)) pre /\
    Forall (fun row => ~ exceed thr (sample_vels df row)) post /\
    (exists row, hd_error seg = Some row /\ exceed thr (sample_vels df row)) /\
    (exists row,
        hd_error (rev seg) = Some row /\ exceed thr (sample_vels df row)).

(** The Euclidean distance of two points, and the length of a polyline: the
    sum of the distances of consecutive points. *)
Definition euclid (p q : list R) : R :=
  sqrt (Np.sum (map Rsqr (Np.sub_row q p))).

Fixpoint path_length (ps : list (list R)) : R :=
  match ps with
  | [] => 0
  | p :: ps' =>
      match ps' with
      | [] => 0
      | q :: _ => euclid p q + path_length ps'
      end
  end.

(** The divisor of the normalisation, [arc_lengths[-1]]. *)
Definition arc_divisor (positions : list (list R)) : R :=
  last (0 :: Np.cumsum (Np.norm_axis1 (Np.diff positions))) 0.

(** The first occurrence of every coordinate, in the order of the input. *)
Fixpoint first_occurrences {A : Type} (seen : list R) (sv : list (R * A))
  : list (R * A) :=
  match sv with
  | [] => []
  | p :: sv' =>
      if existsb (Reqb (fst p)) seen then first_occurrences seen sv'
      else p :: first_occurrences (fst p :: seen) sv'
  end.

(** Linear interpolation between [(x0, y0)] and [(x1, y1)], channel by
    channel, and the piecewise-linear interpolant of the samples
    [(xs[i], ys[i])]. *)
Definition lerp (x0 x1 : R) (y0 y1 : list R) (x : R) : list R :=
  map (fun p => fst p + (snd p - fst p) * ((x - x0) / (x1 - x0)))
    (combine y0 y1).

Definition piecewise_linear (xs : list R) (ys : list (list R)) (x : R)
    (v : list R) : Prop :=
  exists i,
    (S i < List.length xs)%nat /\
    nth i xs 0 <= x <= nth (S i) xs 0 /\
    v = lerp (nth i xs 0) (nth (S i) xs 0) (nth i ys []) (nth (S i) ys []) x.

(** An array of [n] rows and [c] columns. *)
Definition shape (n c : nat) (a : list (list R)) : Prop :=
  List.length a = n /\ Forall (fun row => List.length row = c) a.

(** The squared difference of two trajectories at point [i], channel [j],
    and sums over an index range. *)
Definition sq_err (p e : list (list R)) (i j : nat) : R :=
  Rsqr (nth j (nth i p []) 0 - nth j (nth i e []) 0).

Definition sum_upto (n : nat) (f : nat -> R) : R :=
  fold_right Rplus 0 (map f (seq 0 n)).

(** ** Recorded trajectories used as examples *)

Definition frame (vel_name : string) (vels : list R) : Pd.DataFrame :=
  Pd.mkDataFrame ["joint_pos"%string; vel_name]
    (map (fun p => [INR (fst p); snd p])
       (combine (seq 0 (List.length vels)) vels)).

(** Ten samples, the velocity channel valued [0,0,0,2,3,4,2,0,0,0]. *)
Definition df_ramp : Pd.DataFrame :=
  frame "joint_vel" [0; 0; 0; 2; 3; 4; 2; 0; 0; 0].

(** A motion that starts in the negative direction. *)
Definition df_backward : Pd.DataFrame := frame "joint_vel" [-2; 2; 0].

(** A robot at rest. *)
Definition df_rest : Pd.DataFrame := frame "joint_vel" [0; 0; 0].

(** A motion in the positive direction, a sample at rest on each side. *)
Definition df_pulse : Pd.DataFrame := frame "joint_vel" [0; 0; 1; 0].

(** A fill-level channel beside the position, and a velocity channel under
    another name. *)
Definition df_level : Pd.DataFrame := frame "level" [0; 5; 0].
Definition df_speed : Pd.DataFrame := frame "joint_speed" [0; 5; 0].

(** Polylines: two legs of lengths 5 and 12, a point repeated three times,
    and a single point. *)
Definition two_legs : list (list R) := [[0; 0; 0]; [3; 4; 0]; [3; 4; 12]].
Definition coincident : list (list R) := [[1; 1; 1]; [1; 1; 1]; [1; 1; 1]].
Definition single_point : list (list R) := [[1; 1; 1]].

(** Two resampled trajectories of two points, apart by 1 in one channel of
    the second point. *)
Definition planned_two : list (list R) := [[0; 0; 0]; [1; 0; 0]].
Definition executed_two : list (list R) := [[0; 0; 0]; [1; 1; 0]].

(** Coordinates without a repeated value, and four points on a line. *)
Definition s_unique : list R := [0; 0.2; 0.5; 1.0].
Definition p_unique : list (list R) :=
  [[0; 0; 0]; [1; 0; 0]; [3; 0; 0]; [4; 0; 0]].

(** Coordinates with one repeated value, and five points on a line. *)
Definition s_repeat : list R := [0; 0.2; 0.2; 0.5; 1.0].
Definition p_line : list (list R) :=
  [[0; 0; 0]; [1; 0; 0]; [2; 0; 0]; [3; 0; 0]; [4; 0; 0]].

(** A path moved by the vector [t], and a path scaled by the factor [k]. *)
Definition translate (t : list R) (positions : list (list R))
  : list (list R) :=
  map (fun p => Np.add_row p t) positions.

Definition scale (k : R) (positions : list (list R)) : list (list R) :=
  map (map (Rmult k)) positions.

(** Coordinates that start late, with two values. *)
Definition s_late : list R := [0.5; 1].
Definition p_pair : list (list R) := [[0]; [1]].

(** The mask of [np.unique] when the coordinates come sorted: the first
    entry, and every entry that differs from the one before. *)
Definition first_mask (s : list R) : list bool :=
  match s with
  | [] => []
  | x :: s' => true :: Np.neq_prev x s'
  end.

(** * Proofs *)

(** ** Comparisons *)

Lemma Rleb_true x y : x <= y -> Rleb x y = true.
Proof. unfold Rleb; destruct (Rle_dec x y); tauto. Qed.

Lemma Rleb_false x y : y < x -> Rleb x y = false.
Proof. unfold Rleb; destruct (Rle_dec x y); [lra | reflexivity]. Qed.

Lemma Rleb_iff x y : Rleb x y = true <-> x <= y.
Proof. unfold Rleb; destruct (Rle_dec x y); split; auto; discriminate. Qed.

Lemma Rltb_true x y : x < y -> Rltb x y = true.
Proof. unfold Rltb; destruct (Rlt_dec x y); tauto. Qed.

Lemma Rltb_false x y : y <= x -> Rltb x y = false.
Proof. unfold Rltb; destruct (Rlt_dec x y); [lra | reflexivity]. Qed.

Lemma Rltb_iff x y : Rltb x y = true <-> x < y.
Proof. unfold Rltb; destruct (Rlt_dec x y); split; auto; discriminate. Qed.

Lemma Reqb_true x y : x = y -> Reqb x y = true.
Proof. unfold Reqb; destruct (Req_dec_T x y); tauto. Qed.

Lemma Reqb_false x y : x <> y -> Reqb x y = false.
Proof. unfold Reqb; destruct (Req_dec_T x y); tauto. Qed.

Lemma Reqb_iff x y : Reqb x y = true <-> x = y.
Proof. unfold Reqb; destruct (Req_dec_T x y); split; auto; discriminate. Qed.

(** Comparisons of numerals are settled by [lra]. *)
Ltac rdecide :=
  repeat match goal with
    | |- context [Rleb ?a ?b] =>
        first [ rewrite (Rleb_true a b) by lra
              | rewrite (Rleb_false a b) by lra ]
    | |- context [Rltb ?a ?b] =>
        first [ rewrite (Rltb_true a b) by lra
              | rewrite (Rltb_false a b) by lra ]
    | |- context [Reqb ?a ?b] =>
        first [ rewrite (Reqb_true a b) by lra
              | rewrite (Reqb_false a b) by lra ]
    end.

Ltac reval := repeat (cbn; rdecide).

(** ** Column selection *)

Lemma get_loc_in c cols : In c cols -> exists j, Pd.get_loc c cols = Some j.
Proof.
  induction cols as [|c' cols IH]; simpl; [tauto|].
  intros [->|Hin].
  - rewrite String.eqb_refl. eauto.
  - destruct (String.eqb c c'); [eauto|].
    destruct (IH Hin) as [j ->]. simpl. eauto.
Qed.

Lemma get_locs_incl names cols :
  incl names cols -> exists js, Pd.get_locs names cols = Ok js.
Proof.
  induction names as [|c names IH]; intros Hincl; simpl; [eauto|].
  destruct (get_loc_in c cols) as [j ->]; [apply Hincl; left; reflexivity|].
  destruct IH as [js ->]; [intros x Hx; apply Hincl; right; exact Hx|].
  simpl. eauto.
Qed.

Lemma vel_cols_incl df : incl (vel_cols df) (Pd.columns df).
Proof. intros c Hc. apply filter_In in Hc. tauto. Qed.

Lemma getitem_vel_cols df :
  Pd.getitem df (vel_cols df) = Ok (map (sample_vels df) (Pd.values df)).
Proof.
  unfold Pd.getitem, sample_vels.
  destruct (get_locs_incl _ _ (vel_cols_incl df)) as [js ->].
  reflexivity.
Qed.

(** ** [idxmax] on a mask and on the reversed mask *)

Lemma moving_mask_map df thr rows :
  moving_mask (map (sample_vels df) rows) thr = map (movingb df thr) rows.
Proof. unfold moving_mask. rewrite map_map. reflexivity. Qed.

Lemma movingb_exceeds df thr row :
  movingb df thr row = true <-> exceeds thr (sample_vels df row).
Proof.
  unfold movingb, exceeds.
  induction (sample_vels df row) as [|v vs IH]; simpl.
  - split; [discriminate | intros H; inversion H].
  - rewrite negb_andb, orb_true_iff, IH, Exists_cons, negb_true_iff.
    split; (intros [H|H]; [left | right; exact H]).
    + destruct (Rlt_dec thr v) as [Hlt|Hge]; [exact Hlt|].
      rewrite Rleb_true in H by lra. discriminate.
    + apply Rleb_false. exact H.
Qed.

Lemma movingb_not_exceeds df thr row :
  movingb df thr row = false <-> ~ exceeds thr (sample_vels df row).
Proof.
  rewrite <- movingb_exceeds. destruct (movingb df thr row); split; auto.
  - intros H. discriminate.
  - intros H. exfalso. auto.
Qed.

Section Idxmax.

Context {A : Type} (f : A -> bool).

Local Abbreviation labelled := (labelled_from f).

Lemma series_labelled rows : Pd.series (map f rows) = labelled 0 rows.
Proof. reflexivity. Qed.

Lemma labelled_cons k r rows :
  labelled k (r :: rows) = (k, f r) :: labelled (S k) rows.
Proof. reflexivity. Qed.

Lemma labelled_app k rows1 rows2 :
  labelled k (rows1 ++ rows2) =
  labelled k rows1 ++ labelled (k + List.length rows1) rows2.
Proof.
  revert k. induction rows1 as [|r rows1 IH]; intros k.
  - simpl. rewrite Nat.add_0_r. reflexivity.
  - rewrite <- app_comm_cons, !labelled_cons, IH. simpl.
    rewrite Nat.add_succ_r. reflexivity.
Qed.

Lemma find_labelled_none k rows :
  Forall (fun r => f r = false) rows ->
  find (fun p => snd p) (labelled k rows) = None.
Proof.
  intros H. revert k. induction H as [|r rows Hr _ IH]; intros k.
  - reflexivity.
  - rewrite labelled_cons. simpl. rewrite Hr. apply IH.
Qed.

Lemma find_rev_labelled_none k rows :
  Forall (fun r => f r = false) rows ->
  find (fun p => snd p) (rev (labelled k rows)) = None.
Proof.
  intros H.
  destruct (find (fun p => snd p) (rev (labelled k rows))) as [p|] eqn:E;
    [|reflexivity].
  apply find_some in E. destruct E as [Hin Hp].
  apply in_rev in Hin.
  pose proof (find_labelled_none k rows H) as Hnone.
  eapply find_none in Hnone; [|exact Hin]. congruence.
Qed.

Lemma find_app_none {B : Type} (g : B -> bool) l1 l2 :
  find g l1 = None -> find g (l1 ++ l2) = find g l2.
Proof.
  induction l1 as [|b l1 IH]; simpl; [reflexivity|].
  destruct (g b); [discriminate | exact IH].
Qed.

Lemma idxmax_find s l b :
  find (fun p => snd p) s = Some (l, b) -> Pd.idxmax s = Ok l.
Proof.
  intros H. destruct s as [|[l0 b0] s']; [discriminate|].
  unfold Pd.idxmax. rewrite H. reflexivity.
Qed.

(** The first [True] of the mask. *)
Lemma idxmax_first pre r rest :
  Forall (fun r => f r = false) pre -> f r = true ->
  Pd.idxmax (Pd.series (map f (pre ++ r :: rest))) = Ok (List.length pre).
Proof.
  intros Hpre Hr. rewrite series_labelled, labelled_app, labelled_cons.
  apply idxmax_find with (b := true).
  rewrite find_app_none by (apply find_labelled_none; exact Hpre).
  simpl. rewrite Hr. reflexivity.
Qed.

(** The first [True] of the reversed mask is the last one of the mask. *)
Lemma idxmax_last front r post :
  Forall (fun r => f r = false) post -> f r = true ->
  Pd.idxmax (rev (Pd.series (map f (front ++ r :: post)))) =
  Ok (List.length front).
Proof.
  intros Hpost Hr. rewrite series_labelled, labelled_app, labelled_cons.
  rewrite rev_app_distr. simpl rev. rewrite <- !app_assoc.
  apply idxmax_find with (b := true).
  rewrite find_app_none by (apply find_rev_labelled_none; exact Hpost).
  simpl. rewrite Hr. reflexivity.
Qed.

(** No [True] at all: the first label, and for the reversed mask the
    last. *)
Lemma idxmax_none_first r rows :
  Forall (fun r => f r = false) (r :: rows) ->
  Pd.idxmax (Pd.series (map f (r :: rows))) = Ok 0%nat.
Proof.
  intros H. rewrite series_labelled.
  pose proof (find_labelled_none 0 _ H) as Hnone.
  rewrite labelled_cons in *. unfold Pd.idxmax. rewrite Hnone. reflexivity.
Qed.

Lemma idxmax_none_last rows r :
  Forall (fun r => f r = false) (rows ++ [r]) ->
  Pd.idxmax (rev (Pd.series (map f (rows ++ [r])))) = Ok (List.length rows).
Proof.
  intros H. rewrite series_labelled.
  pose proof (find_rev_labelled_none 0 _ H) as Hnone.
  rewrite labelled_app, labelled_cons, rev_app_distr in *.
  simpl in *. rewrite Hnone. reflexivity.
Qed.

(** The first and the last row at which [f] holds. *)
Lemma split_first rows :
  Exists (fun r => f r = true) rows ->
  exists pre r rest,
    rows = pre ++ r :: rest /\ Forall (fun r => f r = false) pre /\
    f r = true.
Proof.
  induction rows as [|a rows IH]; intros H; [inversion H|].
  destruct (f a) eqn:Ea.
  - exists [], a, rows. auto.
  - destruct IH as (pre & r & rest & -> & Hpre & Hr).
    + inversion H; subst; [congruence | assumption].
    + exists (a :: pre), r, rest. auto.
Qed.

Lemma split_last rows :
  Exists (fun r => f r = true) rows ->
  exists front r post,
    rows = front ++ r :: post /\ Forall (fun r => f r = false) post /\
    f r = true.
Proof.
  intros H.
  destruct (split_first (rev rows)) as (pre & r & rest & E & Hpre & Hr).
  - apply Exists_exists in H. destruct H as (x & Hin & Hx).
    apply Exists_exists. exists x. split; [|exact Hx].
    apply in_rev. rewrite rev_involutive. exact Hin.
  - exists (rev rest), r, (rev pre).
    split; [|split; [apply Forall_rev; exact Hpre | exact Hr]].
    rewrite <- (rev_involutive rows), E, rev_app_distr. simpl.
    rewrite <- app_assoc. reflexivity.
Qed.

(** Both decompositions together: what lies between the first and the
    last. *)
Lemma split_first_last rows :
  Exists (fun r => f r = true) rows ->
  exists pre seg post first_row last_row,
    rows = pre ++ seg ++ post /\
    Forall (fun r => f r = false) pre /\
    Forall (fun r => f r = false) post /\
    hd_error seg = Some first_row /\ f first_row = true /\
    hd_error (rev seg) = Some last_row /\ f last_row = true /\
    Pd.idxmax (Pd.series (map f rows)) = Ok (List.length pre) /\
    Pd.idxmax (rev (Pd.series (map f rows))) =
      Ok (List.length pre + List.length seg - 1)%nat.
Proof.
  intros H.
  destruct (split_first rows H) as (pre & r & rest & E1 & Hpre & Hr).
  destruct (split_last rows H) as (front & r' & post & E2 & Hpost & Hr').
  assert (Hmid : exists mid, front = pre ++ mid /\
                             r :: rest = mid ++ r' :: post).
  { rewrite E1 in E2. apply app_eq_app in E2.
    destruct E2 as [l [[-> E]|[-> E]]].
    - destruct l as [|a l].
      + exists []. rewrite !app_nil_r. simpl in *. auto.
      + exfalso. simpl in E. injection E as -> ->.
        apply Forall_app in Hpost. destruct Hpost as [_ Hp].
        inversion Hp; subst. congruence.
    - exists l. auto. }
  destruct Hmid as (mid & -> & Emid).
  exists pre, (mid ++ [r']), post, r, r'.
  assert (Erows : rows = pre ++ (mid ++ [r']) ++ post).
  { rewrite E1, Emid, <- app_assoc. reflexivity. }
  repeat split; auto.
  - destruct mid; simpl in *; congruence.
  - rewrite rev_app_distr. reflexivity.
  - rewrite E1. apply idxmax_first; assumption.
  - rewrite E2, idxmax_last by assumption.
    rewrite !length_app. simpl. f_equal. lia.
Qed.

End Idxmax.

(** ** Slices *)

Lemma skipn_length_app {A : Type} (l1 l2 : list A) :
  skipn (List.length l1) (l1 ++ l2) = l2.
Proof. induction l1; simpl; auto. Qed.

Lemma firstn_length_app {A : Type} (l1 l2 : list A) :
  firstn (List.length l1) (l1 ++ l2) = l1.
Proof. induction l1; simpl; f_equal; auto. Qed.

Lemma loc_segment df pre seg post :
  Pd.values df = pre ++ seg ++ post -> seg <> [] ->
  Pd.loc df (List.length pre) (List.length pre + List.length seg - 1) =
  Pd.mkDataFrame (Pd.columns df) seg.
Proof.
  intros E Hseg. unfold Pd.loc. rewrite E, skipn_length_app.
  replace (S (List.length pre + List.length seg - 1) - List.length pre)%nat
    with (List.length seg).
  - rewrite firstn_length_app. reflexivity.
  - destruct seg; [congruence | simpl List.length; lia].
Qed.

(** ** The trimming, through the first and the last moving sample *)

Lemma trim_joint_bounds df thr :
  trim_joint df thr =
  (start_index <-
     Pd.idxmax (Pd.series (map (movingb df thr) (Pd.values df))) ;;
   end_index <-
     Pd.idxmax (rev (Pd.series (map (movingb df thr) (Pd.values df)))) ;;
   Ok (Pd.loc df start_index end_index)).
Proof.
  unfold trim_joint. rewrite getitem_vel_cols. simpl.
  rewrite moving_mask_map. reflexivity.
Qed.

Lemma trim_cartesian_guard df thr :
  vel_cols df <> [] -> 0 < thr -> trim_cartesian df thr = trim_joint df thr.
Proof.
  intros Hcols Hthr. unfold trim_cartesian, trim_joint.
  destruct (vel_cols df); [congruence|].
  rewrite Rltb_true by exact Hthr. reflexivity.
Qed.

Lemma trim_cartesian_noop df thr :
  vel_cols df = [] \/ thr <= 0 -> trim_cartesian df thr = Ok df.
Proof.
  intros H. unfold trim_cartesian.
  destruct (vel_cols df); [reflexivity|].
  destruct H as [H|H]; [discriminate|].
  rewrite Rltb_false by exact H. reflexivity.
Qed.

Lemma sample_vels_no_cols df row : vel_cols df = [] -> sample_vels df row = [].
Proof. intros H. unfold sample_vels. rewrite H. reflexivity. Qed.

Lemma exceeds_vel_cols df thr :
  Exists (fun row => exceeds thr (sample_vels df row)) (Pd.values df) ->
  vel_cols df <> [].
Proof.
  intros H Hcols. apply Exists_exists in H. destruct H as (row & _ & Hrow).
  rewrite sample_vels_no_cols in Hrow by exact Hcols. inversion Hrow.
Qed.

Lemma Forall_not_exceeds df thr rows :
  Forall (fun r => movingb df thr r = false) rows <->
  Forall (fun row => ~ exceeds thr (sample_vels df row)) rows.
Proof.
  rewrite !Forall_forall. split; intros H r Hr.
  - apply movingb_not_exceeds. auto.
  - apply movingb_not_exceeds. auto.
Qed.

Lemma trim_joint_segment df thr :
  Exists (fun row => exceeds thr (sample_vels df row)) (Pd.values df) ->
  trims_to_segment exceeds trim_joint df thr.
Proof.
  intros H.
  destruct (split_first_last (movingb df thr) (Pd.values df))
    as (pre & seg & post & r1 & r2 & E & Hpre & Hpost & Hh & Hr1 & Hl & Hr2
        & Hs & He).
  { eapply Exists_impl; [|exact H]. intros r. apply movingb_exceeds. }
  exists pre, seg, post. split; [exact E|]. split.
  - rewrite trim_joint_bounds, Hs, He. simpl. f_equal.
    apply (loc_segment df pre seg post E).
    destruct seg; [discriminate | congruence].
  - split; [apply Forall_not_exceeds; exact Hpre|].
    split; [apply Forall_not_exceeds; exact Hpost|].
    split; [exists r1 | exists r2]; (split; [assumption|]);
      apply movingb_exceeds; assumption.
Qed.

Lemma trim_joint_rest df thr :
  Pd.values df <> [] ->
  Forall (fun row => ~ exceeds thr (sample_vels df row)) (Pd.values df) ->
  Pd.idxmax (Pd.series (map (movingb df thr) (Pd.values df))) = Ok 0%nat /\
  Pd.idxmax (rev (Pd.series (map (movingb df thr) (Pd.values df)))) =
    Ok (List.length (Pd.values df) - 1)%nat /\
  trim_joint df thr = Ok df.
Proof.
  intros Hne Hall. apply Forall_not_exceeds in Hall.
  assert (H1 : Pd.idxmax (Pd.series (map (movingb df thr) (Pd.values df)))
               = Ok 0%nat).
  { destruct (Pd.values df) as [|r rows]; [congruence|].
    apply idxmax_none_first. exact Hall. }
  assert (H2 : Pd.idxmax (rev (Pd.series (map (movingb df thr) (Pd.values df))))
               = Ok (List.length (Pd.values df) - 1)%nat).
  { destruct (exists_last Hne) as (front & r & E). rewrite E in *.
    rewrite idxmax_none_last by exact Hall.
    rewrite length_app. simpl. f_equal. lia. }
  split; [exact H1|]. split; [exact H2|].
  rewrite trim_joint_bounds, H1, H2. simpl. f_equal.
  unfold Pd.loc. simpl skipn.
  replace (S (List.length (Pd.values df) - 1) - 0)%nat
    with (List.length (Pd.values df))
    by (destruct (Pd.values df); [congruence | simpl; lia]).
  rewrite firstn_all. destruct df; reflexivity.
Qed.

(** ** Substrings *)

Lemma prefix_app sub s :
  String.prefix sub s = true <-> exists post, s = (sub ++ post)%string.
Proof.
  revert s. induction sub as [|a sub IH]; intros s.
  - destruct s; simpl; split; eauto.
  - destruct s as [|b s]; simpl.
    + split; [discriminate | intros [post H]; discriminate].
    + destruct (Ascii.ascii_dec a b) as [->|Hab].
      * rewrite IH. split; intros [post H]; exists post; congruence.
      * split; [discriminate | intros [post H]; congruence].
Qed.

Lemma contains_app sub s :
  contains sub s = true <->
  exists pre post, s = (pre ++ sub ++ post)%string.
Proof.
  induction s as [|b s IH].
  - change (contains sub EmptyString) with (String.prefix sub EmptyString).
    rewrite prefix_app. split.
    + intros [post H]. exists EmptyString, post. exact H.
    + intros (pre & post & H). destruct pre; simpl in H; [eauto|discriminate].
  - change (contains sub (String b s))
      with (String.prefix sub (String b s) || contains sub s).
    rewrite orb_true_iff, IH, prefix_app. split.
    + intros [[post H]|(pre & post & H)].
      * exists EmptyString, post. exact H.
      * exists (String b pre), post. simpl. congruence.
    + intros (pre & post & H). destruct pre as [|c pre]; simpl in H.
      * left. eauto.
      * right. exists pre, post. congruence.
Qed.

(** ** The motion-segment trimmer *)

Ltac trim_eval :=
  unfold trim_joint, trim_cartesian, vel_cols, Pd.getitem, moving_mask,
    Pd.series, frame;
  reval.

Ltac vels_eval := unfold exceeds, exceeds_abs, sample_vels, vel_cols; cbn.

(** C1, as the program has it: with a positive threshold and at least one
    sample at which a selected velocity channel exceeds the threshold (as a
    signed value: the program takes no absolute value), both comparison
    functions keep the samples from the first such sample to the last one,
    and drop the samples before and after, at which every selected velocity
    is at or below the threshold.  For the velocities [0,0,0,2,3,4,2,0,0,0]
    and the threshold 1 what is kept is the four samples 3 to 6. *)
Theorem trim_first_to_last_moving (df : Pd.DataFrame) (thr : R) :
  0 < thr ->
  Exists (fun row => exceeds thr (sample_vels df row)) (Pd.values df) ->
  trims_to_segment exceeds trim_joint df thr /\
  trims_to_segment exceeds trim_cartesian df thr /\
  trim_joint df_ramp 1 =
    Ok (Pd.mkDataFrame (Pd.columns df_ramp)
          (firstn 4 (skipn 3 (Pd.values df_ramp)))) /\
  trim_cartesian df_ramp 1 =
    Ok (Pd.mkDataFrame (Pd.columns df_ramp)
          (firstn 4 (skipn 3 (Pd.values df_ramp)))).
Proof.
  intros Hthr Hex.
  pose proof (trim_joint_segment df thr Hex) as Hj.
  split; [exact Hj|]. split.
  - unfold trims_to_segment.
    rewrite (trim_cartesian_guard df thr (exceeds_vel_cols df thr Hex) Hthr).
    exact Hj.
  - split; unfold df_ramp; trim_eval; reflexivity.
Qed.

Lemma trim_first_to_last_moving_witness :
  0 < 1 /\
  Exists (fun row => exceeds 1 (sample_vels df_ramp row)) (Pd.values df_ramp) /\
  trims_to_segment exceeds trim_joint df_ramp 1 /\
  trims_to_segment exceeds trim_cartesian df_ramp 1.
Proof.
  assert (H1 : 0 < 1) by lra.
  assert (H2 : Exists (fun row => exceeds 1 (sample_vels df_ramp row))
                 (Pd.values df_ramp)).
  { unfold df_ramp, frame. cbn. do 3 apply Exists_cons_tl.
    apply Exists_cons_hd. vels_eval. apply Exists_cons_hd. lra. }
  split; [exact H1|]. split; [exact H2|].
  destruct (trim_first_to_last_moving df_ramp 1 H1 H2) as (Hj & Hc & _).
  split; assumption.
Defined.

(** C1 as it is stated fails: after a first sample of velocity -2, which
    exceeds the threshold 1 in absolute value, the program starts the
    segment at the second sample. *)
Lemma trim_abs_counterexample :
  0 < 1 /\
  Exists (fun row => exceeds_abs 1 (sample_vels df_backward row))
    (Pd.values df_backward) /\
  ~ trims_to_segment exceeds_abs trim_joint df_backward 1 /\
  ~ trims_to_segment exceeds_abs trim_cartesian df_backward 1.
Proof.
  assert (Habs : exceeds_abs 1 (sample_vels df_backward [INR 0; -2])).
  { vels_eval. apply Exists_cons_hd.
    unfold Rabs. destruct (Rcase_abs (-2)); lra. }
  assert (Hno : forall trim,
    trim df_backward 1 =
      Ok (Pd.mkDataFrame (Pd.columns df_backward) [[INR 1; 2]]) ->
    ~ trims_to_segment exceeds_abs trim df_backward 1).
  { intros trim Ht (pre & seg & post & E & Hseg & Hpre & _).
    rewrite Ht in Hseg. injection Hseg as <-.
    unfold df_backward, frame in E. cbn in E.
    destruct pre as [|row pre]; cbn in E.
    - injection E as E _. lra.
    - injection E as <- _. inversion Hpre; subst. auto. }
  split; [lra|]. split.
  - unfold df_backward, frame. cbn. apply Exists_cons_hd. exact Habs.
  - split; apply Hno; unfold df_backward; trim_eval; reflexivity.
Qed.

(** C4 at the failing input: with the threshold 0 the joint-space function
    cuts the recording down to its one sample of positive velocity, where the
    Cartesian function, which has the guard, returns it whole. *)
Theorem trim_joint_zero_threshold :
  trim_joint df_pulse 0 =
    Ok (Pd.mkDataFrame (Pd.columns df_pulse)
          (firstn 1 (skipn 2 (Pd.values df_pulse)))) /\
  trim_joint df_pulse 0 <> Ok df_pulse /\
  trim_cartesian df_pulse 0 = Ok df_pulse.
Proof.
  assert (H : trim_joint df_pulse 0 =
    Ok (Pd.mkDataFrame (Pd.columns df_pulse)
          (firstn 1 (skipn 2 (Pd.values df_pulse))))).
  { unfold df_pulse. trim_eval. reflexivity. }
  split; [exact H|]. split.
  - rewrite H. unfold df_pulse, frame. cbn. intros E. discriminate E.
  - apply trim_cartesian_noop. right. lra.
Qed.

(** C5, as the program has it: when no selected velocity exceeds the
    threshold at any sample of a recording that is not empty, the start
    index is the first label and the end index the last one, and both
    comparison functions keep the whole recording. *)
Theorem trim_at_rest_keeps_all (df : Pd.DataFrame) (thr : R) :
  0 < thr ->
  Pd.values df <> [] ->
  Forall (fun row => ~ exceeds thr (sample_vels df row)) (Pd.values df) ->
  Pd.idxmax (Pd.series (moving_mask (map (sample_vels df) (Pd.values df)) thr))
    = Ok 0%nat /\
  Pd.idxmax
    (rev (Pd.series (moving_mask (map (sample_vels df) (Pd.values df)) thr)))
    = Ok (List.length (Pd.values df) - 1)%nat /\
  trim_joint df thr = Ok df /\
  trim_cartesian df thr = Ok df.
Proof.
  intros Hthr Hne Hall. rewrite moving_mask_map.
  destruct (trim_joint_rest df thr Hne Hall) as (H1 & H2 & H3).
  repeat split; try assumption.
  destruct (vel_cols df) eqn:Hcols.
  - apply trim_cartesian_noop. left. exact Hcols.
  - rewrite trim_cartesian_guard; [exact H3 | congruence | exact Hthr].
Qed.

Lemma trim_at_rest_keeps_all_witness :
  0 < 1 /\
  Pd.values df_rest <> [] /\
  Forall (fun row => ~ exceeds 1 (sample_vels df_rest row)) (Pd.values df_rest)
  /\ trim_joint df_rest 1 = Ok df_rest
  /\ trim_cartesian df_rest 1 = Ok df_rest.
Proof.
  assert (H1 : 0 < 1) by lra.
  assert (H2 : Pd.values df_rest <> []) by (cbn; discriminate).
  assert (H3 : Forall (fun row => ~ exceeds 1 (sample_vels df_rest row))
                 (Pd.values df_rest)).
  { unfold df_rest, frame. cbn.
    repeat (apply Forall_cons; [vels_eval; intros H; inversion H; subst;
      [lra | match goal with H' : Exists _ [] |- _ => inversion H' end]|]).
    apply Forall_nil. }
  split; [exact H1|]. split; [exact H2|]. split; [exact H3|].
  destruct (trim_at_rest_keeps_all df_rest 1 H1 H2 H3) as (_ & _ & Hj & Hc).
  split; assumption.
Defined.

(** C5 as it is stated fails: for three samples at rest the program returns
    the three of them, not the first one alone. *)
Lemma trim_at_rest_counterexample :
  0 < 1 /\
  Forall (fun row => ~ exceeds 1 (sample_vels df_rest row)) (Pd.values df_rest)
  /\ trim_joint df_rest 1 <>
       Ok (Pd.mkDataFrame (Pd.columns df_rest) (firstn 1 (Pd.values df_rest)))
  /\ trim_cartesian df_rest 1 <>
       Ok (Pd.mkDataFrame (Pd.columns df_rest) (firstn 1 (Pd.values df_rest))).
Proof.
  split; [lra|]. split.
  - unfold df_rest, frame. cbn.
    repeat (apply Forall_cons; [vels_eval; intros H; inversion H; subst;
      [lra | match goal with H' : Exists _ [] |- _ => inversion H' end]|]).
    apply Forall_nil.
  - split; unfold df_rest; trim_eval; intros E; discriminate E.
Qed.

(** C10: the velocity channels of both comparison functions are the columns
    of the executed recording whose name contains "vel", and nothing else is
    consulted.  A fill-level column named "level" therefore decides what is
    trimmed, and a velocity column named "joint_speed" is ignored: nothing
    is trimmed. *)
Theorem vel_cols_by_substring :
  (forall df c,
      In c (vel_cols df) <->
      In c (Pd.columns df) /\
      exists pre post, c = (pre ++ "vel" ++ post)%string) /\
  (vel_cols df_level = ["level"%string] /\
   trim_joint df_level 1 =
     Ok (Pd.mkDataFrame (Pd.columns df_level)
           (firstn 1 (skipn 1 (Pd.values df_level)))) /\
   trim_cartesian df_level 1 =
     Ok (Pd.mkDataFrame (Pd.columns df_level)
           (firstn 1 (skipn 1 (Pd.values df_level))))) /\
  (vel_cols df_speed = [] /\
   trim_joint df_speed 1 = Ok df_speed /\
   trim_cartesian df_speed 1 = Ok df_speed).
Proof.
  split; [|split].
  - intros df c. unfold vel_cols. rewrite filter_In, contains_app. tauto.
  - split; [reflexivity|].
    split; unfold df_level; trim_eval; reflexivity.
  - split; [reflexivity|].
    split; unfold df_speed; trim_eval; reflexivity.
Qed.

(** ** Sums and running sums *)

Lemma sum_nonneg l : Forall (fun v => 0 <= v) l -> 0 <= Np.sum l.
Proof.
  induction 1 as [|v l Hv _ IH]; simpl; [lra|].
  unfold Np.sum in *. simpl. lra.
Qed.

Lemma Forall_firstn_keep {A : Type} (P : A -> Prop) n l :
  Forall P l -> Forall P (firstn n l).
Proof.
  intros H. revert n. induction H; intros [|n]; simpl; constructor; auto.
Qed.

Lemma sum_firstn_mono l i j :
  Forall (fun v => 0 <= v) l -> (i <= j)%nat ->
  Np.sum (firstn i l) <= Np.sum (firstn j l).
Proof.
  intros H. revert i j. induction H as [|v l Hv Hl IH]; intros i j Hij.
  - rewrite !firstn_nil. lra.
  - destruct i as [|i].
    + apply sum_nonneg. apply Forall_firstn_keep. constructor; assumption.
    + destruct j as [|j]; [lia|].
      simpl. unfold Np.sum in *. simpl.
      specialize (IH i j ltac:(lia)). lra.
Qed.

Lemma cumsum_from_length acc l :
  List.length (Np.cumsum_from acc l) = List.length l.
Proof. revert acc. induction l; intros acc; simpl; auto. Qed.

Lemma cumsum_from_nth acc l i :
  (i < List.length l)%nat ->
  nth i (Np.cumsum_from acc l) 0 = acc + Np.sum (firstn (S i) l).
Proof.
  revert acc i. induction l as [|v l IH]; intros acc i Hi; simpl in Hi; [lia|].
  destruct i as [|i].
  - simpl. unfold Np.sum. simpl. lra.
  - change (nth i (Np.cumsum_from (acc + v) l) 0 =
            acc + Np.sum (v :: firstn (S i) l)).
    rewrite IH by lia. unfold Np.sum. simpl. lra.
Qed.

Lemma last_cons_cons {A : Type} (a b : A) l d :
  last (a :: b :: l) d = last (b :: l) d.
Proof. reflexivity. Qed.

Lemma cumsum_from_last acc l :
  last (acc :: Np.cumsum_from acc l) 0 = acc + Np.sum l.
Proof.
  revert acc. induction l as [|v l IH]; intros acc.
  - unfold Np.sum. simpl. lra.
  - cbn [Np.cumsum_from]. rewrite last_cons_cons, IH.
    unfold Np.sum. simpl. lra.
Qed.

(** [arc_lengths = 0 :: cumsum dists]: entry [i] is the sum of the first [i]
    distances. *)
Lemma arc_lengths_nth l i :
  (i <= List.length l)%nat ->
  nth i (0 :: Np.cumsum l) 0 = Np.sum (firstn i l).
Proof.
  intros Hi. destruct i as [|i]; [reflexivity|].
  unfold Np.cumsum. simpl nth. rewrite cumsum_from_nth by lia. lra.
Qed.

(** ** Distances along a polyline *)

Lemma diff_cons p q ps :
  Np.diff (p :: q :: ps) = Np.sub_row q p :: Np.diff (q :: ps).
Proof. reflexivity. Qed.

Lemma diff_length ps : List.length (Np.diff ps) = (List.length ps - 1)%nat.
Proof.
  induction ps as [|p ps IH]; [reflexivity|].
  destruct ps as [|q ps]; [reflexivity|].
  rewrite diff_cons. simpl List.length in *. lia.
Qed.

Lemma firstn_diff i ps : firstn i (Np.diff ps) = Np.diff (firstn (S i) ps).
Proof.
  revert i. induction ps as [|p ps IH]; intros i.
  - rewrite firstn_nil. reflexivity.
  - destruct ps as [|q ps].
    + simpl. destruct i; reflexivity.
    + rewrite diff_cons. destruct i as [|i]; [reflexivity|].
      change (firstn (S (S i)) (p :: q :: ps))
        with (p :: firstn (S i) (q :: ps)).
      simpl firstn at 1. rewrite IH. reflexivity.
Qed.

Lemma dists_path_length ps :
  Np.sum (Np.norm_axis1 (Np.diff ps)) = path_length ps.
Proof.
  induction ps as [|p ps IH]; [reflexivity|].
  destruct ps as [|q ps]; [reflexivity|].
  rewrite diff_cons.
  change (path_length (p :: q :: ps))
    with (euclid p q + path_length (q :: ps)).
  rewrite <- IH. reflexivity.
Qed.

Lemma dists_nonneg a : Forall (fun v => 0 <= v) (Np.norm_axis1 a).
Proof.
  unfold Np.norm_axis1. apply Forall_forall. intros v Hv.
  apply in_map_iff in Hv. destruct Hv as (row & <- & _). apply sqrt_pos.
Qed.

Lemma path_length_nonneg ps : 0 <= path_length ps.
Proof. rewrite <- dists_path_length. apply sum_nonneg, dists_nonneg. Qed.

Lemma arc_divisor_path_length ps : arc_divisor ps = path_length ps.
Proof.
  unfold arc_divisor, Np.cumsum. rewrite cumsum_from_last, dists_path_length.
  lra.
Qed.

(** The partial sums of the distances are the lengths of the initial
    polylines. *)
Lemma partial_path_length ps i :
  Np.sum (firstn i (Np.norm_axis1 (Np.diff ps))) =
  path_length (firstn (S i) ps).
Proof.
  unfold Np.norm_axis1. rewrite firstn_map, firstn_diff.
  apply dists_path_length.
Qed.

(** The result of the parametrization when it does not raise. *)
Lemma arc_length_ok positions :
  (2 <= List.length positions)%nat -> path_length positions <> 0 ->
  compute_arc_length_parametrization positions =
  Ok (map (fun a => a / arc_divisor positions)
        (0 :: Np.cumsum (Np.norm_axis1 (Np.diff positions)))).
Proof.
  intros Hlen Hpath. unfold compute_arc_length_parametrization.
  replace (List.length positions <? 2)%nat with false
    by (symmetry; apply Nat.ltb_ge; exact Hlen).
  rewrite dists_path_length, Reqb_false by exact Hpath. reflexivity.
Qed.

Lemma arc_length_too_short positions :
  (List.length positions < 2)%nat ->
  compute_arc_length_parametrization positions = Raise InsufficientPoints.
Proof.
  intros Hlen. unfold compute_arc_length_parametrization.
  replace (List.length positions <? 2)%nat with true
    by (symmetry; apply Nat.ltb_lt; exact Hlen).
  reflexivity.
Qed.

Lemma arc_length_zero positions :
  (2 <= List.length positions)%nat -> path_length positions = 0 ->
  compute_arc_length_parametrization positions = Raise ZeroArcLength.
Proof.
  intros Hlen Hpath. unfold compute_arc_length_parametrization.
  replace (List.length positions <? 2)%nat with false
    by (symmetry; apply Nat.ltb_ge; exact Hlen).
  rewrite dists_path_length, Reqb_true by exact Hpath. reflexivity.
Qed.

Lemma nth_map_in {A B : Type} (f : A -> B) l i d d' :
  (i < List.length l)%nat -> nth i (map f l) d' = f (nth i l d).
Proof.
  intros Hi. rewrite (nth_indep (map f l) d' (f d)) by (rewrite length_map; lia).
  apply map_nth.
Qed.

Lemma last_map_cons {A B : Type} (f : A -> B) a l d d' :
  last (map f (a :: l)) d' = f (last (a :: l) d).
Proof.
  revert a. induction l as [|b l IH]; intros a; [reflexivity|].
  change (map f (a :: b :: l)) with (f a :: map f (b :: l)).
  rewrite (last_cons_cons a b l d).
  rewrite <- IH. reflexivity.
Qed.

Lemma arc_lengths_length positions :
  (1 <= List.length positions)%nat ->
  List.length (0 :: Np.cumsum (Np.norm_axis1 (Np.diff positions))) =
  List.length positions.
Proof.
  intros H. unfold Np.cumsum, Np.norm_axis1. simpl List.length.
  rewrite cumsum_from_length, length_map, diff_length. lia.
Qed.

Lemma partial_path_mono positions i j :
  (i <= j)%nat ->
  path_length (firstn (S i) positions) <= path_length (firstn (S j) positions).
Proof.
  intros Hij. rewrite <- !partial_path_length.
  apply sum_firstn_mono; [apply dists_nonneg | exact Hij].
Qed.

Lemma partial_path_le_total positions i :
  path_length (firstn (S i) positions) <= path_length positions.
Proof.
  rewrite <- (firstn_all positions) at 2.
  destruct (Nat.le_gt_cases (S i) (List.length positions)) as [H|H].
  - destruct (List.length positions) as [|n] eqn:E; [lia|].
    apply partial_path_mono. lia.
  - rewrite firstn_all, firstn_all2 by lia. lra.
Qed.

(** The entry [i] of the parametrization. *)
Lemma arc_length_nth positions i :
  (i < List.length positions)%nat ->
  nth i (map (fun a => a / arc_divisor positions)
           (0 :: Np.cumsum (Np.norm_axis1 (Np.diff positions)))) 0 =
  path_length (firstn (S i) positions) / path_length positions.
Proof.
  intros Hi.
  rewrite (nth_map_in _ _ _ 0) by (rewrite arc_lengths_length; lia).
  rewrite arc_lengths_nth.
  - rewrite partial_path_length, arc_divisor_path_length. reflexivity.
  - unfold Np.norm_axis1. rewrite length_map, diff_length. lia.
Qed.

Lemma quotient_bounds a b t : 0 < t -> a <= b -> a / t <= b / t.
Proof.
  intros Ht Hab. unfold Rdiv. apply Rmult_le_compat_r; [|exact Hab].
  left. apply Rinv_0_lt_compat. exact Ht.
Qed.

(** ** The arc-length parametrizer *)

(** C2: for at least two points in space whose polyline has a length other
    than zero, the parametrization has one coordinate per point, the
    cumulative distance over the total length; the coordinates lie in [0,1]
    and never decrease, the first is 0 and the last is 1. *)
Theorem arc_length_parametrization_spec (positions : list (list R)) :
  (2 <= List.length positions)%nat ->
  Forall (fun p => List.length p = 3%nat) positions ->
  path_length positions <> 0 ->
  exists s,
    compute_arc_length_parametrization positions = Ok s /\
    List.length s = List.length positions /\
    (forall i, (i < List.length positions)%nat ->
       nth i s 0 =
       path_length (firstn (S i) positions) / path_length positions) /\
    Forall (fun c => 0 <= c <= 1) s /\
    (forall i j, (i <= j < List.length s)%nat -> nth i s 0 <= nth j s 0) /\
    nth 0 s 0 = 0 /\
    last s 0 = 1.
Proof.
  intros Hlen _ Hpath.
  pose proof (path_length_nonneg positions) as Hnn.
  assert (Hpos : 0 < path_length positions) by lra.
  eexists. split; [apply arc_length_ok; assumption|].
  assert (Hl : List.length
                 (map (fun a => a / arc_divisor positions)
                    (0 :: Np.cumsum (Np.norm_axis1 (Np.diff positions)))) =
               List.length positions).
  { rewrite length_map. apply arc_lengths_length. lia. }
  split; [exact Hl|]. split; [intros i Hi; apply arc_length_nth; exact Hi|].
  split; [|split; [|split]].
  - apply Forall_forall. intros c Hc.
    apply (In_nth _ _ 0) in Hc. destruct Hc as (i & Hi & <-).
    rewrite Hl in Hi. rewrite arc_length_nth by exact Hi. split.
    + apply Rmult_le_pos; [apply path_length_nonneg|].
      left. apply Rinv_0_lt_compat. exact Hpos.
    + replace 1 with (path_length positions / path_length positions)
        by (field; lra).
      apply quotient_bounds; [exact Hpos | apply partial_path_le_total].
  - intros i j Hij. rewrite Hl in Hij.
    rewrite !arc_length_nth by lia.
    apply quotient_bounds; [exact Hpos | apply partial_path_mono; lia].
  - rewrite arc_length_nth by lia.
    destruct positions as [|p ps]; [simpl in Hlen; lia|].
    simpl. unfold Rdiv. apply Rmult_0_l.
  - rewrite (last_map_cons _ _ _ 0).
    fold (arc_divisor positions). rewrite arc_divisor_path_length.
    field. lra.
Qed.

Lemma arc_length_parametrization_spec_witness :
  exists s,
    compute_arc_length_parametrization two_legs = Ok s /\
    nth 0 s 0 = 0 /\ last s 0 = 1.
Proof.
  assert (H1 : (2 <= List.length two_legs)%nat) by (simpl; lia).
  assert (H2 : Forall (fun p : list R => List.length p = 3%nat) two_legs)
    by (repeat constructor).
  assert (H3 : path_length two_legs <> 0).
  { cbn. unfold euclid. cbn.
    assert (Ha : 0 < sqrt (Rsqr (3 - 0) + (Rsqr (4 - 0) + (Rsqr (0 - 0) + 0)))).
    { apply sqrt_lt_R0. unfold Rsqr. lra. }
    pose proof (sqrt_pos (Rsqr (3 - 3) + (Rsqr (4 - 4) + (Rsqr (12 - 0) + 0)))).
    lra. }
  destruct (arc_length_parametrization_spec _ H1 H2 H3)
    as (s & Hs & _ & _ & _ & _ & H0 & Hlast).
  exists s. auto.
Defined.

(** C6: fewer than two points raise the error for insufficient points; two
    points or more whose polyline has length zero, as three times the point
    (1,1,1), raise the error for a zero arc length; every other input is
    divided by a total other than zero and returned, and nothing else is
    raised. *)
Theorem arc_length_failures (positions : list (list R)) :
  ((List.length positions < 2)%nat ->
   compute_arc_length_parametrization positions = Raise InsufficientPoints) /\
  ((2 <= List.length positions)%nat -> path_length positions = 0 ->
   compute_arc_length_parametrization positions = Raise ZeroArcLength) /\
  ((2 <= List.length positions)%nat -> path_length positions <> 0 ->
   arc_divisor positions <> 0 /\
   compute_arc_length_parametrization positions =
   Ok (map (fun a => a / arc_divisor positions)
         (0 :: Np.cumsum (Np.norm_axis1 (Np.diff positions))))) /\
  (forall e, compute_arc_length_parametrization positions = Raise e ->
     ((List.length positions < 2)%nat /\ e = InsufficientPoints) \/
     ((2 <= List.length positions)%nat /\ path_length positions = 0 /\
      e = ZeroArcLength)) /\
  compute_arc_length_parametrization coincident = Raise ZeroArcLength.
Proof.
  split; [apply arc_length_too_short|].
  split; [apply arc_length_zero|].
  split; [|split].
  - intros Hlen Hpath. split; [|apply arc_length_ok; assumption].
    rewrite arc_divisor_path_length. exact Hpath.
  - intros e He.
    destruct (Nat.lt_ge_cases (List.length positions) 2) as [Hlen|Hlen].
    + left. rewrite arc_length_too_short in He by exact Hlen.
      split; [exact Hlen | congruence].
    + right. destruct (Req_dec_T (path_length positions) 0) as [Hz|Hnz].
      * rewrite arc_length_zero in He by assumption.
        repeat split; [exact Hlen | exact Hz | congruence].
      * rewrite arc_length_ok in He by assumption. discriminate He.
  - apply arc_length_zero; [simpl; lia|].
    cbn. unfold euclid. cbn.
    replace (Rsqr (1 - 1)) with 0 by (unfold Rsqr; ring).
    replace (0 + (0 + (0 + 0))) with 0 by ring.
    rewrite sqrt_0. ring.
Qed.

Lemma arc_length_failures_witness :
  (List.length single_point < 2)%nat /\
  compute_arc_length_parametrization single_point = Raise InsufficientPoints.
Proof.
  assert (H : (List.length single_point < 2)%nat) by (simpl; lia).
  split; [exact H|].
  exact (proj1 (arc_length_failures single_point) H).
Defined.

(** ** Sorting what is sorted, and indexing by a range *)

Lemma fold_insert_sorted k a :
  Sorted Rle a ->
  fold_right Np.insert [] (combine (seq k (List.length a)) a) =
  combine (seq k (List.length a)) a.
Proof.
  intros H. revert k. induction H as [|x a Ha IH Hhd]; intros k.
  - reflexivity.
  - simpl. rewrite IH. destruct Hhd as [|y a' Hxy]; [reflexivity|].
    simpl. rewrite Rleb_true by exact Hxy. reflexivity.
Qed.

Lemma map_fst_combine_seq {A : Type} k (a : list A) :
  map fst (combine (seq k (List.length a)) a) = seq k (List.length a).
Proof. revert k. induction a; intros k; simpl; f_equal; auto. Qed.

Lemma argsort_sorted a : Sorted Rle a -> Np.argsort a = seq 0 (List.length a).
Proof.
  intros H. unfold Np.argsort. rewrite fold_insert_sorted by exact H.
  apply map_fst_combine_seq.
Qed.

Lemma map_nth_seq {A : Type} (pre a : list A) d :
  map (fun i => nth i (pre ++ a) d) (seq (List.length pre) (List.length a)) = a.
Proof.
  revert pre. induction a as [|x a IH]; intros pre; [reflexivity|].
  simpl. f_equal.
  - rewrite app_nth2, Nat.sub_diag by lia. reflexivity.
  - specialize (IH (pre ++ [x])). rewrite length_app, <- app_assoc in IH.
    simpl in IH. rewrite Nat.add_1_r in IH. exact IH.
Qed.

Lemma compress_cons {A : Type} (b : bool) mask (x : A) a :
  Np.compress (b :: mask) (x :: a) =
  if b then x :: Np.compress mask a else Np.compress mask a.
Proof. unfold Np.compress. simpl. destruct b; reflexivity. Qed.

Lemma compress_nil_r {A : Type} mask : Np.compress mask (@nil A) = [].
Proof. unfold Np.compress. destruct mask; reflexivity. Qed.

Lemma compress_nil_l {A : Type} (a : list A) : Np.compress [] a = [].
Proof. reflexivity. Qed.

(** Indexing [a] by the selected part of its own range selects the same
    part of [a]. *)
Lemma take_compress_seq {A : Type} (pre a : list A) mask :
  Np.take (pre ++ a)
    (Np.compress mask (seq (List.length pre) (List.length a))) =
  Ok (Np.compress mask a).
Proof.
  revert pre mask. induction a as [|x a IH]; intros pre mask.
  - simpl. rewrite !compress_nil_r. reflexivity.
  - destruct mask as [|b mask]; [reflexivity|].
    simpl seq. rewrite !compress_cons.
    specialize (IH (pre ++ [x]) mask).
    rewrite length_app, <- app_assoc in IH. simpl in IH.
    rewrite Nat.add_1_r in IH.
    destruct b; [|exact IH].
    simpl. rewrite nth_error_app2, Nat.sub_diag by lia. simpl.
    rewrite IH. reflexivity.
Qed.

Lemma compress_combine {A B : Type} mask (a : list A) (b : list B) :
  List.length a = List.length b ->
  Np.compress mask a = map fst (Np.compress mask (combine a b)) /\
  Np.compress mask b = map snd (Np.compress mask (combine a b)).
Proof.
  revert mask b. induction a as [|x a IH]; intros mask b Hlen.
  - destruct b; [|discriminate]. simpl. rewrite !compress_nil_r. auto.
  - destruct b as [|y b]; [discriminate|].
    destruct mask as [|m mask]; [auto|].
    simpl combine. rewrite !compress_cons.
    destruct (IH mask b) as [H1 H2]; [simpl in Hlen; lia|].
    destruct m; simpl; split; congruence.
Qed.

(** ** The mask of [np.unique] on sorted coordinates *)

Lemma neq_prev_first_occurrences {A : Type} x seen s (vals : list A) :
  In x seen -> Forall (fun c => c <= x) seen -> Sorted Rle (x :: s) ->
  Np.compress (Np.neq_prev x s) (combine s vals) =
  first_occurrences seen (combine s vals).
Proof.
  revert x seen vals. induction s as [|y s IH]; intros x seen vals Hin Hle Hs.
  - simpl. reflexivity.
  - destruct vals as [|v vals]; [reflexivity|].
    apply Sorted_inv in Hs. destruct Hs as [Hs Hhd].
    apply HdRel_inv in Hhd.
    simpl Np.neq_prev. simpl combine. rewrite compress_cons.
    cbn [first_occurrences fst].
    destruct (Req_dec_T y x) as [->|Hne].
    + rewrite Reqb_true by reflexivity. simpl negb.
      replace (existsb (Reqb x) seen) with true.
      * apply IH; assumption.
      * symmetry. apply existsb_exists. exists x.
        split; [exact Hin | apply Reqb_true; reflexivity].
    + rewrite Reqb_false by exact Hne. simpl negb.
      replace (existsb (Reqb y) seen) with false.
      * f_equal. apply IH; [left; reflexivity | | exact Hs].
        constructor; [lra|].
        eapply Forall_impl; [|exact Hle]. simpl. intros c Hc. lra.
      * symmetry. apply not_true_is_false. intros Hex.
        apply existsb_exists in Hex. destruct Hex as (c & Hc & Hyc).
        apply Reqb_iff in Hyc. subst c.
        rewrite Forall_forall in Hle. specialize (Hle y Hc). lra.
Qed.

Lemma unique_index_sorted s :
  Sorted Rle s ->
  snd (Np.unique_index s) =
  Np.compress
    (match s with [] => [] | x :: s' => true :: Np.neq_prev x s' end)
    (seq 0 (List.length s)).
Proof.
  intros H. unfold Np.unique_index. rewrite argsort_sorted by exact H.
  pose proof (map_nth_seq [] s 0) as E. simpl in E. rewrite E.
  reflexivity.
Qed.

(** What [first_occurrences] keeps: every coordinate not seen before, once. *)
Lemma existsb_Reqb_In c seen : existsb (Reqb c) seen = true <-> In c seen.
Proof.
  rewrite existsb_exists. split.
  - intros (x & Hx & E). apply Reqb_iff in E. subst x. exact Hx.
  - intros H. exists c. split; [exact H | apply Reqb_true; reflexivity].
Qed.

Lemma first_occurrences_In {A : Type} seen (sv : list (R * A)) c :
  In c (map fst (first_occurrences seen sv)) <->
  In c (map fst sv) /\ ~ In c seen.
Proof.
  revert seen. induction sv as [|p sv IH]; intros seen.
  - simpl. tauto.
  - cbn [first_occurrences].
    destruct (existsb (Reqb (fst p)) seen) eqn:E.
    + apply existsb_Reqb_In in E. rewrite IH. simpl. split.
      * tauto.
      * intros [[Hc|Hc] Hn]; [subst c; tauto | tauto].
    + assert (Hp : ~ In (fst p) seen).
      { intros H. apply existsb_Reqb_In in H. congruence. }
      simpl. rewrite IH. simpl.
      destruct (Req_dec_T (fst p) c) as [Hc|Hc].
      * subst c. tauto.
      * tauto.
Qed.

Lemma first_occurrences_NoDup {A : Type} seen (sv : list (R * A)) :
  NoDup (map fst (first_occurrences seen sv)).
Proof.
  revert seen. induction sv as [|p sv IH]; intros seen.
  - constructor.
  - cbn [first_occurrences].
    destruct (existsb (Reqb (fst p)) seen); [apply IH|].
    simpl. constructor; [|apply IH].
    rewrite first_occurrences_In. simpl. tauto.
Qed.

Lemma map_fst_combine_same {A B : Type} (a : list A) (b : list B) :
  List.length b = List.length a -> map fst (combine a b) = a.
Proof.
  revert b. induction a as [|x a IH]; intros [|y b] H;
    try reflexivity; try discriminate.
  simpl. f_equal. apply IH. simpl in H. lia.
Qed.

(** ** The duplicate-point filter *)

(** C7: for coordinates that never decrease and as many values, the filter
    returns the coordinates and the values of the first occurrence of every
    coordinate, in the order of the input and of the same length: every
    coordinate of the input is kept, and none twice; for the
    coordinates [0, 0.2, 0.2, 0.5, 1.0] four are kept, and the value kept
    at 0.2 is the one of index 1. *)
Theorem remove_duplicate_points_first_occurrences
    (s : list R) (positions : list (list R)) :
  List.length positions = List.length s ->
  Sorted Rle s ->
  remove_duplicate_points s positions =
    Ok (map fst (first_occurrences [] (combine s positions)),
        map snd (first_occurrences [] (combine s positions))) /\
  List.length (map fst (first_occurrences [] (combine s positions))) =
  List.length (map snd (first_occurrences [] (combine s positions))) /\
  NoDup (map fst (first_occurrences [] (combine s positions))) /\
  (forall c,
      In c (map fst (first_occurrences [] (combine s positions))) <->
      In c s) /\
  remove_duplicate_points s_repeat p_line =
    Ok ([0; 0.2; 0.5; 1.0], [[0; 0; 0]; [1; 0; 0]; [3; 0; 0]; [4; 0; 0]]).
Proof.
  assert (Hgen : forall s positions,
    List.length positions = List.length s -> Sorted Rle s ->
    remove_duplicate_points s positions =
    Ok (map fst (first_occurrences [] (combine s positions)),
        map snd (first_occurrences [] (combine s positions)))).
  { clear. intros s positions Hlen Hs. unfold remove_duplicate_points.
    rewrite unique_index_sorted by exact Hs.
    set (mask := match s with [] => [] | x :: s' => true :: Np.neq_prev x s' end).
    pose proof (take_compress_seq [] s mask) as Ts. simpl in Ts.
    pose proof (take_compress_seq [] positions mask) as Tp. simpl in Tp.
    rewrite Hlen in Tp. rewrite Ts, Tp. simpl.
    destruct (compress_combine mask s positions) as [E1 E2]; [congruence|].
    rewrite E1, E2.
    assert (E : Np.compress mask (combine s positions) =
                first_occurrences [] (combine s positions)).
    { subst mask. destruct s as [|x s']; [reflexivity|].
      destruct positions as [|v vals]; [discriminate|].
      simpl combine. rewrite compress_cons. cbn [first_occurrences fst existsb].
      f_equal. apply neq_prev_first_occurrences.
      - left. reflexivity.
      - constructor; [lra | constructor].
      - exact Hs. }
    rewrite E. reflexivity. }
  intros Hlen Hs. split; [apply Hgen; assumption|].
  split; [rewrite !length_map; reflexivity|].
  split; [apply first_occurrences_NoDup|].
  split.
  { intros c. rewrite first_occurrences_In, map_fst_combine_same by exact Hlen.
    simpl. tauto. }
  unfold remove_duplicate_points, Np.unique_index, Np.argsort, Np.compress,
    s_repeat, p_line.
  reval. reflexivity.
Qed.

Lemma remove_duplicate_points_first_occurrences_witness :
  List.length p_line = List.length s_repeat /\
  Sorted Rle s_repeat /\
  remove_duplicate_points s_repeat p_line =
    Ok (map fst (first_occurrences [] (combine s_repeat p_line)),
        map snd (first_occurrences [] (combine s_repeat p_line))).
Proof.
  assert (H1 : List.length p_line = List.length s_repeat) by reflexivity.
  assert (H2 : Sorted Rle s_repeat) by (unfold s_repeat; repeat constructor; lra).
  split; [exact H1|]. split; [exact H2|].
  exact (proj1 (remove_duplicate_points_first_occurrences _ _ H1 H2)).
Defined.

(** ** The evaluation coordinates *)

Lemma linspace_unit_length n : List.length (Np.linspace 0 1 n) = n.
Proof.
  destruct n as [|[|m]]; [reflexivity | reflexivity |].
  unfold Np.linspace. rewrite length_app, length_map, length_seq.
  simpl. lia.
Qed.

Lemma linspace_unit_nth n k :
  (2 <= n)%nat -> (k < n)%nat ->
  nth k (Np.linspace 0 1 n) 0 = INR k / INR (n - 1).
Proof.
  intros Hn Hk. destruct n as [|[|m]]; [lia | lia |].
  unfold Np.linspace.
  replace (S (S m) - 1)%nat with (S m) by lia.
  assert (Hm : INR (S m) <> 0) by (apply not_0_INR; lia).
  destruct (Nat.eq_dec k (S m)) as [->|Hne].
  - rewrite app_nth2 by (rewrite length_map, length_seq; lia).
    rewrite length_map, length_seq, Nat.sub_diag. simpl nth.
    field. exact Hm.
  - rewrite app_nth1 by (rewrite length_map, length_seq; lia).
    rewrite (nth_map_in _ _ _ 0%nat) by (rewrite length_seq; lia).
    rewrite seq_nth by lia. simpl plus. field. exact Hm.
Qed.

Lemma linspace_unit_range n k :
  (2 <= n)%nat -> (k < n)%nat -> 0 <= INR k / INR (n - 1) <= 1.
Proof.
  intros Hn Hk.
  assert (Hpos : 0 < INR (n - 1)) by (apply lt_0_INR; lia).
  split.
  - apply Rmult_le_pos; [apply pos_INR|].
    left. apply Rinv_0_lt_compat. exact Hpos.
  - replace 1 with (INR (n - 1) / INR (n - 1)) by (field; lra).
    apply quotient_bounds; [exact Hpos|]. apply le_INR. lia.
Qed.

Lemma last_nth {A : Type} (l : list A) d :
  last l d = nth (List.length l - 1) l d.
Proof.
  induction l as [|a l IH]; [reflexivity|].
  destruct l as [|b l]; [reflexivity|].
  rewrite last_cons_cons, IH. simpl. rewrite Nat.sub_0_r. reflexivity.
Qed.

(** ** Strictly increasing coordinates *)

Lemma sorted_lt_le s : Sorted Rlt s -> Sorted Rle s.
Proof.
  induction 1 as [|x s Hs IH Hhd]; constructor; [exact IH|].
  destruct Hhd; constructor. lra.
Qed.

Lemma sorted_lt_nth s i j :
  Sorted Rlt s -> (i < j < List.length s)%nat -> nth i s 0 < nth j s 0.
Proof.
  intros Hs. apply Sorted_StronglySorted in Hs;
    [|intros a b c; apply Rlt_trans].
  revert i j. induction Hs as [|x s Hs IH Hall]; intros i j Hij.
  - simpl in Hij. lia.
  - destruct j as [|j]; [lia|]. simpl in Hij.
    destruct i as [|i].
    + simpl. rewrite Forall_forall in Hall. apply Hall. apply nth_In. lia.
    + simpl. apply IH. lia.
Qed.

(** ** The interpolator *)

Lemma take_seq {A : Type} (a : list A) :
  Np.take a (seq 0 (List.length a)) = Ok a.
Proof.
  assert (H : forall pre a : list A,
             Np.take (pre ++ a) (seq (List.length pre) (List.length a)) = Ok a).
  { clear. intros pre a. revert pre.
    induction a as [|x a IH]; intros pre; [reflexivity|].
    simpl. rewrite nth_error_app2, Nat.sub_diag by lia. simpl.
    specialize (IH (pre ++ [x])). rewrite length_app, <- app_assoc in IH.
    simpl in IH. rewrite Nat.add_1_r in IH. rewrite IH. reflexivity. }
  apply (H [] a).
Qed.

Lemma make_sorted s positions :
  Sorted Rlt s -> (1 <= List.length s)%nat ->
  List.length positions = List.length s ->
  Sp.make s positions = Ok (Sp.mkInterp1d s positions).
Proof.
  intros Hs Hlen Hpos. unfold Sp.make.
  rewrite <- Hpos, Nat.eqb_refl. simpl negb. cbv iota.
  rewrite argsort_sorted by (apply sorted_lt_le; exact Hs).
  rewrite take_seq. rewrite <- Hpos, take_seq. simpl.
  replace (List.length s <? 1)%nat with false
    by (symmetry; apply Nat.ltb_ge; exact Hlen).
  reflexivity.
Qed.

Lemma searchsorted_spec a v :
  (Np.searchsorted a v <= List.length a)%nat /\
  (forall i, (i < Np.searchsorted a v)%nat -> nth i a 0 < v) /\
  ((Np.searchsorted a v < List.length a)%nat ->
   v <= nth (Np.searchsorted a v) a 0).
Proof.
  induction a as [|x a (IH1 & IH2 & IH3)]; simpl.
  - repeat split; intros; lia.
  - destruct (Rlt_dec x v) as [Hlt|Hge].
    + rewrite Rltb_true by exact Hlt. repeat split.
      * lia.
      * intros [|i] Hi; [exact Hlt | apply IH2; lia].
      * intros H. apply IH3. lia.
    + rewrite Rltb_false by lra. repeat split.
      * lia.
      * intros i Hi. lia.
      * intros _. simpl. lra.
Qed.

(** The formula of [_call_linear] is the linear interpolation of the two
    samples. *)
Lemma call_linear_formula x_lo x_hi x_new y_lo y_hi :
  map (fun p => fst p * (x_new - x_lo) + snd p)
    (combine (map (fun d => d / (x_hi - x_lo)) (Np.sub_row y_hi y_lo)) y_lo) =
  lerp x_lo x_hi y_lo y_hi x_new.
Proof.
  unfold lerp, Np.sub_row. revert y_lo.
  induction y_hi as [|b y_hi IH]; intros [|a y_lo]; try reflexivity.
  simpl. f_equal; [unfold Rdiv; ring | apply IH].
Qed.

Lemma call_linear_piecewise s positions x :
  Sorted Rlt s -> (2 <= List.length s)%nat ->
  nth 0 s 0 <= x <= last s 0 ->
  piecewise_linear s positions x
    (Sp.call_linear (Sp.mkInterp1d s positions) x).
Proof.
  intros Hs Hlen [Hlo Hhi]. unfold Sp.call_linear. simpl Sp.x. simpl Sp.y.
  destruct (searchsorted_spec s x) as (Hc1 & Hc2 & Hc3).
  set (c := Np.searchsorted s x) in *.
  set (n := List.length s) in *.
  rewrite last_nth in Hhi. fold n in Hhi.
  assert (Hcn : (c < n)%nat).
  { destruct (Nat.lt_ge_cases c n) as [H|H]; [exact H|].
    specialize (Hc2 (n - 1)%nat ltac:(lia)). lra. }
  specialize (Hc3 Hcn).
  set (hi := Np.clip c 1 (n - 1)).
  assert (Hhi1 : (1 <= hi)%nat) by (unfold hi, Np.clip; lia).
  assert (Hhin : (hi < n)%nat) by (unfold hi, Np.clip; lia).
  replace (hi =? 0)%nat with false by (symmetry; apply Nat.eqb_neq; lia).
  rewrite call_linear_formula.
  exists (hi - 1)%nat. replace (S (hi - 1)) with hi by lia.
  split; [exact Hhin|]. split; [|reflexivity].
  destruct (Nat.eq_dec c 0) as [Hc0|Hc0].
  - assert (Eh : hi = 1%nat) by (unfold hi, Np.clip; lia).
    rewrite Eh, Hc0 in *. simpl Nat.sub.
    pose proof (sorted_lt_nth s 0 1 Hs ltac:(lia)). lra.
  - assert (Eh : hi = c) by (unfold hi, Np.clip; lia).
    rewrite Eh. specialize (Hc2 (c - 1)%nat ltac:(lia)). lra.
Qed.

Lemma lerp_left x0 x1 y0 y1 :
  List.length y0 = List.length y1 -> lerp x0 x1 y0 y1 x0 = y0.
Proof.
  unfold lerp. revert y1. induction y0 as [|a y0 IH]; intros [|b y1] H;
    try reflexivity; try discriminate.
  simpl. f_equal; [unfold Rdiv; ring | apply IH; simpl in H; lia].
Qed.

Lemma lerp_right x0 x1 y0 y1 :
  x0 <> x1 -> List.length y0 = List.length y1 -> lerp x0 x1 y0 y1 x1 = y1.
Proof.
  intros Hx. unfold lerp. revert y1.
  induction y0 as [|a y0 IH]; intros [|b y1] H;
    try reflexivity; try discriminate.
  simpl. f_equal; [field; lra | apply IH; simpl in H; lia].
Qed.

Lemma rows_same_length (positions : list (list R)) d i j :
  Forall (fun row => List.length row = d) positions ->
  (i < List.length positions)%nat -> (j < List.length positions)%nat ->
  List.length (nth i positions []) = List.length (nth j positions []).
Proof.
  intros H Hi Hj. rewrite Forall_forall in H.
  rewrite (H (nth i positions [])), (H (nth j positions []));
    [reflexivity | apply nth_In; exact Hj | apply nth_In; exact Hi].
Qed.

(** At the first coordinate the interpolant is the first sample, at the last
    coordinate the last one. *)
Lemma piecewise_linear_first s positions d v :
  Sorted Rlt s -> List.length positions = List.length s ->
  Forall (fun row => List.length row = d) positions ->
  piecewise_linear s positions (nth 0 s 0) v -> v = nth 0 positions [].
Proof.
  intros Hs Hlen Hd (i & Hi & [Hx _] & ->).
  assert (i = 0)%nat as ->.
  { destruct i as [|i]; [reflexivity|].
    pose proof (sorted_lt_nth s 0 (S i) Hs ltac:(lia)). lra. }
  apply lerp_left. apply (rows_same_length positions d); [exact Hd | lia | lia].
Qed.

Lemma piecewise_linear_last s positions d v :
  Sorted Rlt s -> List.length positions = List.length s ->
  Forall (fun row => List.length row = d) positions ->
  piecewise_linear s positions (last s 0) v -> v = last positions [].
Proof.
  intros Hs Hlen Hd (i & Hi & [_ Hx] & ->).
  rewrite (last_nth s 0) in *. rewrite (last_nth positions []), Hlen.
  assert (S i = List.length s - 1)%nat as E.
  { destruct (Nat.eq_dec (S i) (List.length s - 1)) as [E|E]; [exact E|].
    pose proof (sorted_lt_nth s (S i) (List.length s - 1) Hs ltac:(lia)). lra. }
  rewrite <- E.
  pose proof (sorted_lt_nth s i (S i) Hs ltac:(lia)) as Hlt.
  apply lerp_right; [lra|].
  apply (rows_same_length positions d); [exact Hd | lia | lia].
Qed.

Lemma check_bounds_unit s positions xs :
  nth 0 s 0 = 0 -> last s 0 = 1 -> Forall (fun v => 0 <= v <= 1) xs ->
  Sp.check_bounds (Sp.mkInterp1d s positions) xs = Ok tt.
Proof.
  intros H0 H1 Hxs. unfold Sp.check_bounds. simpl Sp.x.
  replace (hd 0 s) with 0 by (destruct s; simpl in *; lra).
  rewrite H1.
  replace (existsb (fun v => Rltb v 0) xs) with false.
  - replace (existsb (fun v => Rltb 1 v) xs) with false; [reflexivity|].
    symmetry. apply not_true_is_false. intros H.
    apply existsb_exists in H. destruct H as (v & Hv & Hlt).
    apply Rltb_iff in Hlt. rewrite Forall_forall in Hxs.
    specialize (Hxs v Hv). lra.
  - symmetry. apply not_true_is_false. intros H.
    apply existsb_exists in H. destruct H as (v & Hv & Hlt).
    apply Rltb_iff in Hlt. rewrite Forall_forall in Hxs.
    specialize (Hxs v Hv). lra.
Qed.

Lemma linspace_unit_Forall n :
  (2 <= n)%nat -> Forall (fun v => 0 <= v <= 1) (Np.linspace 0 1 n).
Proof.
  intros Hn. apply Forall_forall. intros v Hv.
  apply (In_nth _ _ 0) in Hv. destruct Hv as (k & Hk & <-).
  rewrite linspace_unit_length in Hk.
  rewrite linspace_unit_nth by assumption.
  apply linspace_unit_range; assumption.
Qed.

(** The normalized sample index of the joint-space comparison,
    [np.linspace(0, 1, len(positions))], is such a coordinate sequence. *)
Lemma sorted_of_nth l :
  (forall i, (S i < List.length l)%nat -> nth i l 0 < nth (S i) l 0) ->
  Sorted Rlt l.
Proof.
  induction l as [|a l IH]; intros H; constructor.
  - apply IH. intros i Hi. apply (H (S i)). simpl. lia.
  - destruct l as [|b l]; constructor.
    apply (H 0%nat). simpl. lia.
Qed.

Lemma linspace_unit_sorted m :
  (2 <= m)%nat -> Sorted Rlt (Np.linspace 0 1 m).
Proof.
  intros Hm. apply sorted_of_nth. intros i Hi.
  rewrite linspace_unit_length in Hi.
  rewrite !linspace_unit_nth by lia.
  assert (Hpos : 0 < INR (m - 1)) by (apply lt_0_INR; lia).
  unfold Rdiv. apply Rmult_lt_compat_r.
  - apply Rinv_0_lt_compat. exact Hpos.
  - apply lt_INR. lia.
Qed.

(** ** The resampler *)

(** C3: for strictly increasing coordinates from 0 to 1, at least two of
    them, as many value vectors of one width, and at least two points asked
    for, the resampling returns that many vectors; the evaluation coordinate
    [k] is [k/(n_points-1)], the first 0 and the last 1, and the vector [k]
    is the piecewise-linear interpolation of the samples there; the first
    vector is the first sample and the last vector the last sample. *)
Theorem resample_piecewise_linear
    (s : list R) (positions : list (list R)) (d n_points : nat) :
  (2 <= List.length s)%nat ->
  List.length positions = List.length s ->
  Forall (fun row => List.length row = d) positions ->
  Sorted Rlt s ->
  nth 0 s 0 = 0 ->
  last s 0 = 1 ->
  (2 <= n_points)%nat ->
  exists out,
    resample s positions n_points = Ok out /\
    List.length out = n_points /\
    (forall k, (k < n_points)%nat ->
       nth k (Np.linspace 0 1 n_points) 0 = INR k / INR (n_points - 1) /\
       piecewise_linear s positions (INR k / INR (n_points - 1))
         (nth k out [])) /\
    nth 0 (Np.linspace 0 1 n_points) 0 = 0 /\
    last (Np.linspace 0 1 n_points) 0 = 1 /\
    nth 0 out [] = nth 0 positions [] /\
    last out [] = last positions [].
Proof.
  intros Hlen Hpos Hd Hs H0 H1 Hn.
  set (f := Sp.mkInterp1d s positions).
  exists (map (Sp.call_linear f) (Np.linspace 0 1 n_points)).
  assert (Hout : forall k, (k < n_points)%nat ->
            nth k (map (Sp.call_linear f) (Np.linspace 0 1 n_points)) [] =
            Sp.call_linear f (INR k / INR (n_points - 1))).
  { intros k Hk.
    rewrite (nth_map_in _ _ _ 0) by (rewrite linspace_unit_length; exact Hk).
    rewrite linspace_unit_nth by assumption. reflexivity. }
  assert (Hpw : forall k, (k < n_points)%nat ->
            piecewise_linear s positions (INR k / INR (n_points - 1))
              (Sp.call_linear f (INR k / INR (n_points - 1)))).
  { intros k Hk. apply call_linear_piecewise; [exact Hs | exact Hlen|].
    rewrite H0, H1. apply linspace_unit_range; assumption. }
  assert (Hfirst : INR 0 / INR (n_points - 1) = 0)
    by (simpl; unfold Rdiv; ring).
  assert (Hlast : INR (n_points - 1) / INR (n_points - 1) = 1).
  { field. apply not_0_INR. lia. }
  split.
  - unfold resample. rewrite make_sorted by (assumption || lia). simpl.
    unfold Sp.call.
    rewrite (check_bounds_unit s positions);
      [reflexivity | exact H0 | exact H1 | apply linspace_unit_Forall; exact Hn].
  - split; [rewrite length_map; apply linspace_unit_length|].
    split.
    { intros k Hk. split; [apply linspace_unit_nth; assumption|].
      rewrite Hout by exact Hk. apply Hpw. exact Hk. }
    split; [rewrite linspace_unit_nth by lia; exact Hfirst|].
    split.
    { rewrite last_nth, linspace_unit_length, linspace_unit_nth by lia.
      exact Hlast. }
    split.
    + rewrite Hout by lia.
      apply (piecewise_linear_first s positions d); try assumption.
      rewrite H0, <- Hfirst. apply Hpw. lia.
    + rewrite last_nth, length_map, linspace_unit_length, Hout by lia.
      apply (piecewise_linear_last s positions d); try assumption.
      rewrite H1, <- Hlast. apply Hpw. lia.
Qed.

Lemma resample_piecewise_linear_witness :
  exists out,
    resample s_unique p_unique 3 = Ok out /\
    List.length out = 3%nat /\
    nth 0 out [] = nth 0 p_unique [] /\
    last out [] = last p_unique [].
Proof.
  assert (H1 : (2 <= List.length s_unique)%nat) by (simpl; lia).
  assert (H2 : List.length p_unique = List.length s_unique) by reflexivity.
  assert (H3 : Forall (fun row : list R => List.length row = 3%nat) p_unique)
    by (repeat constructor).
  assert (H4 : Sorted Rlt s_unique)
    by (unfold s_unique; repeat constructor; lra).
  assert (H5 : nth 0 s_unique 0 = 0) by reflexivity.
  assert (H6 : last s_unique 0 = 1) by (simpl; lra).
  assert (H7 : (2 <= 3)%nat) by lia.
  destruct (resample_piecewise_linear s_unique p_unique 3 3 H1 H2 H3 H4 H5 H6 H7)
    as (out & Hout & Hlen & _ & _ & _ & Hfirst & Hlast).
  exists out. auto.
Defined.

(** ** Sums over index ranges *)

Lemma sum_app l1 l2 : Np.sum (l1 ++ l2) = Np.sum l1 + Np.sum l2.
Proof.
  unfold Np.sum. induction l1 as [|v l1 IH]; simpl; [lra|].
  rewrite IH. lra.
Qed.

Lemma sum_upto_S n f : sum_upto (S n) f = sum_upto n f + f n.
Proof.
  unfold sum_upto. rewrite seq_S, map_app. simpl.
  fold (Np.sum (map f (seq 0 n) ++ [f n])). rewrite sum_app.
  unfold Np.sum. simpl. lra.
Qed.

Lemma sum_upto_ext n f g :
  (forall i, (i < n)%nat -> f i = g i) -> sum_upto n f = sum_upto n g.
Proof.
  induction n as [|n IH]; intros H; [reflexivity|].
  rewrite !sum_upto_S, IH, (H n) by (intros; try apply H; lia). reflexivity.
Qed.

Lemma sum_upto_nonneg n f :
  (forall i, (i < n)%nat -> 0 <= f i) -> 0 <= sum_upto n f.
Proof.
  induction n as [|n IH]; intros H; [unfold sum_upto; simpl; lra|].
  rewrite sum_upto_S. specialize (IH ltac:(intros; apply H; lia)).
  specialize (H n ltac:(lia)). lra.
Qed.

Lemma sum_upto_pos n f k :
  (forall i, (i < n)%nat -> 0 <= f i) -> (k < n)%nat -> 0 < f k ->
  0 < sum_upto n f.
Proof.
  induction n as [|n IH]; intros H Hk Hfk; [lia|].
  rewrite sum_upto_S.
  pose proof (sum_upto_nonneg n f ltac:(intros; apply H; lia)) as Hn.
  pose proof (H n ltac:(lia)) as Hfn.
  destruct (Nat.eq_dec k n) as [->|Hne]; [lra|].
  specialize (IH ltac:(intros; apply H; lia) ltac:(lia) Hfk). lra.
Qed.

(** A sum over a list is the sum over its indices. *)
Lemma sum_upto_nth {A : Type} (g : A -> R) (a : list A) d :
  sum_upto (List.length a) (fun i => g (nth i a d)) = Np.sum (map g a).
Proof.
  unfold sum_upto, Np.sum.
  rewrite <- (map_map (fun i => nth i a d) g).
  pose proof (map_nth_seq [] a d) as E. simpl in E. rewrite E. reflexivity.
Qed.

Lemma sum_index l : Np.sum l = sum_upto (List.length l) (fun j => nth j l 0).
Proof. rewrite (sum_upto_nth (fun v => v)), map_id. reflexivity. Qed.

Lemma sum_concat a : Np.sum (List.concat a) = Np.sum (map Np.sum a).
Proof.
  induction a as [|row a IH]; [reflexivity|].
  simpl. rewrite sum_app, IH. reflexivity.
Qed.

Lemma length_concat_shape n c a :
  shape n c a -> List.length (List.concat a) = (n * c)%nat.
Proof.
  intros [Hn Hc]. subst n. induction Hc as [|row a Hrow _ IH]; [reflexivity|].
  simpl. rewrite length_app, IH, Hrow. reflexivity.
Qed.

(** ** Rows and columns of an array *)

Lemma shape_row n c a i :
  shape n c a -> (i < n)%nat -> List.length (nth i a []) = c.
Proof.
  intros [Hn Hc] Hi. rewrite Forall_forall in Hc. apply Hc, nth_In. lia.
Qed.

Lemma sub_row_length a b :
  List.length a = List.length b ->
  List.length (Np.sub_row a b) = List.length a.
Proof.
  intros H. unfold Np.sub_row. rewrite length_map, length_combine. lia.
Qed.

Lemma sub_row_nth a b j :
  List.length a = List.length b -> (j < List.length a)%nat ->
  nth j (Np.sub_row a b) 0 = nth j a 0 - nth j b 0.
Proof.
  intros H Hj. unfold Np.sub_row.
  rewrite (nth_map_in _ _ _ (0, 0)) by (rewrite length_combine; lia).
  rewrite combine_nth by exact H. reflexivity.
Qed.

Lemma add_row_length a b :
  List.length a = List.length b ->
  List.length (Np.add_row a b) = List.length a.
Proof.
  intros H. unfold Np.add_row. rewrite length_map, length_combine. lia.
Qed.

Lemma add_row_nth a b j :
  List.length a = List.length b -> (j < List.length a)%nat ->
  nth j (Np.add_row a b) 0 = nth j a 0 + nth j b 0.
Proof.
  intros H Hj. unfold Np.add_row.
  rewrite (nth_map_in _ _ _ (0, 0)) by (rewrite length_combine; lia).
  rewrite combine_nth by exact H. reflexivity.
Qed.

(** The squared differences [(planned - executed) ** 2], entry by entry. *)
Lemma sq_diff_row p e n c i :
  shape n c p -> shape n c e -> (i < n)%nat ->
  nth i (Np.square (Np.sub p e)) [] =
  map Rsqr (Np.sub_row (nth i p []) (nth i e [])).
Proof.
  intros [Hp _] [He _] Hi. unfold Np.square, Np.sub.
  rewrite (nth_map_in _ _ _ [])
    by (rewrite length_map, length_combine; lia).
  rewrite (nth_map_in _ _ _ ([], []))  by (rewrite length_combine; lia).
  rewrite combine_nth by lia. reflexivity.
Qed.

Lemma sq_diff_shape p e n c :
  shape n c p -> shape n c e -> shape n c (Np.square (Np.sub p e)).
Proof.
  intros Hp He. split.
  - destruct Hp as [Hp _], He as [He _]. unfold Np.square, Np.sub.
    rewrite !length_map, length_combine. lia.
  - apply Forall_forall. intros row Hrow.
    apply (In_nth _ _ []) in Hrow. destruct Hrow as (i & Hi & <-).
    assert (Hin : (i < n)%nat).
    { destruct Hp as [Hp _], He as [He _]. unfold Np.square, Np.sub in Hi.
      rewrite !length_map, length_combine in Hi. lia. }
    rewrite (sq_diff_row p e n c) by assumption.
    rewrite length_map, sub_row_length;
      rewrite ?(shape_row n c p), ?(shape_row n c e) by assumption;
      reflexivity.
Qed.

Lemma sq_diff_nth p e n c i j :
  shape n c p -> shape n c e -> (i < n)%nat -> (j < c)%nat ->
  nth j (nth i (Np.square (Np.sub p e)) []) 0 = sq_err p e i j.
Proof.
  intros Hp He Hi Hj.
  pose proof (shape_row n c p i Hp Hi) as Lp.
  pose proof (shape_row n c e i He Hi) as Le.
  rewrite (sq_diff_row p e n c) by assumption.
  rewrite (nth_map_in _ _ _ 0) by (rewrite sub_row_length; lia).
  rewrite sub_row_nth by lia. reflexivity.
Qed.

(** The column sums of [np.mean(_, axis=0)]. *)
Lemma fold_add_row c a acc :
  List.length acc = c -> Forall (fun row => List.length row = c) a ->
  List.length (fold_left Np.add_row a acc) = c /\
  forall j, (j < c)%nat ->
    nth j (fold_left Np.add_row a acc) 0 =
    nth j acc 0 + Np.sum (map (fun row => nth j row 0) a).
Proof.
  intros Hacc Ha. revert acc Hacc.
  induction Ha as [|row a Hrow _ IH]; intros acc Hacc.
  - split; [exact Hacc|]. intros j Hj. unfold Np.sum. simpl. lra.
  - simpl fold_left.
    destruct (IH (Np.add_row acc row)) as [IH1 IH2].
    { rewrite add_row_length; lia. }
    split; [exact IH1|]. intros j Hj.
    rewrite IH2, add_row_nth by lia. unfold Np.sum. simpl. lra.
Qed.

Lemma sum_axis0_length n c a :
  (1 <= n)%nat -> shape n c a -> List.length (Np.sum_axis0 a) = c.
Proof.
  intros Hn [Hlen Hc]. subst n.
  destruct a as [|row a]; [simpl in Hn; lia|].
  inversion Hc as [|? ? Hrow Ha]; subst.
  apply (fold_add_row (List.length row) a row eq_refl Ha).
Qed.

Lemma sum_axis0_nth n c a j :
  (1 <= n)%nat -> shape n c a -> (j < c)%nat ->
  nth j (Np.sum_axis0 a) 0 = sum_upto n (fun i => nth j (nth i a []) 0).
Proof.
  intros Hn [Hlen Hc] Hj. subst n.
  rewrite (sum_upto_nth (fun row => nth j row 0)).
  destruct a as [|row a]; [simpl in Hn; lia|].
  inversion Hc as [|? ? Hrow Ha]; subst.
  destruct (fold_add_row (List.length row) a row eq_refl Ha) as [H1 H2].
  simpl Np.sum_axis0. rewrite H2 by exact Hj.
  unfold Np.sum. reflexivity.
Qed.

(** The sum of all squared differences, by rows and by entries. *)
Lemma sq_diff_total p e n c :
  shape n c p -> shape n c e ->
  Np.sum (map Np.sum (Np.square (Np.sub p e))) =
  sum_upto n (fun i => sum_upto c (fun j => sq_err p e i j)).
Proof.
  intros Hp He.
  pose proof (sq_diff_shape p e n c Hp He) as HD.
  rewrite <- (sum_upto_nth Np.sum _ []).
  replace (List.length (Np.square (Np.sub p e))) with n
    by (symmetry; apply HD).
  apply sum_upto_ext. intros i Hi.
  rewrite sum_index, (shape_row n c _ i HD Hi).
  apply sum_upto_ext. intros j Hj.
  apply (sq_diff_nth p e n c); assumption.
Qed.

Lemma sum_squares_nonneg l : 0 <= Np.sum (map Rsqr l).
Proof.
  apply sum_nonneg, Forall_forall. intros v Hv.
  apply in_map_iff in Hv. destruct Hv as (x & <- & _). apply Rle_0_sqr.
Qed.

Lemma total_rmse_entries p e n c :
  shape n c p -> shape n c e ->
  total_rmse p e =
  sqrt (sum_upto n (fun i => sum_upto c (fun j => sq_err p e i j))
        / INR (n * c)).
Proof.
  intros Hp He.
  pose proof (sq_diff_shape p e n c Hp He) as HD.
  unfold total_rmse, Np.mean_all, Np.mean.
  rewrite sum_concat, (length_concat_shape n c) by exact HD.
  rewrite (sq_diff_total p e n c) by assumption.
  reflexivity.
Qed.

(** ** The deviation metrics *)

(** C8: for two resampled trajectories of [n] points and [c] channels, the
    RMSE of channel [j] is the square root of the mean over the points of
    the squared difference in that channel, and the total RMSE the square
    root of the mean of the squared differences over all points and
    channels. *)
Theorem rmse_per_channel_and_total
    (planned executed : list (list R)) (n c : nat) :
  (1 <= n)%nat -> shape n c planned -> shape n c executed ->
  List.length (rmse planned executed) = c /\
  (forall j, (j < c)%nat ->
     nth j (rmse planned executed) 0 =
     sqrt (sum_upto n (fun i => sq_err planned executed i j) / INR n)) /\
  total_rmse planned executed =
    sqrt (sum_upto n (fun i => sum_upto c (fun j => sq_err planned executed i j))
          / INR (n * c)).
Proof.
  intros Hn Hp He.
  pose proof (sq_diff_shape planned executed n c Hp He) as HD.
  pose proof (sum_axis0_length n c _ Hn HD) as HL.
  split; [|split].
  - unfold rmse, Np.mean_axis0. rewrite !length_map. exact HL.
  - intros j Hj. unfold rmse, Np.mean_axis0.
    rewrite (nth_map_in _ _ _ 0) by (rewrite length_map; lia).
    rewrite (nth_map_in _ _ _ 0) by lia.
    rewrite (sum_axis0_nth n c) by assumption.
    replace (List.length (Np.square (Np.sub planned executed))) with n
      by (symmetry; apply HD).
    f_equal. f_equal. apply sum_upto_ext. intros i Hi.
    apply (sq_diff_nth planned executed n c); assumption.
  - apply total_rmse_entries; assumption.
Qed.

Lemma rmse_per_channel_and_total_witness :
  (1 <= 2)%nat /\ shape 2 3 planned_two /\ shape 2 3 executed_two /\
  List.length (rmse planned_two executed_two) = 3%nat.
Proof.
  assert (H1 : (1 <= 2)%nat) by lia.
  assert (H2 : shape 2 3 planned_two) by (split; repeat constructor).
  assert (H3 : shape 2 3 executed_two) by (split; repeat constructor).
  split; [exact H1|]. split; [exact H2|]. split; [exact H3|].
  exact (proj1 (rmse_per_channel_and_total _ _ 2 3 H1 H2 H3)).
Defined.

(** C9: for two resampled trajectories of [n] points in space, the 3-D RMSE
    is the square root of the mean over the points of the squared Euclidean
    norm of the difference of the two points.  It is another operation than
    the total RMSE of the joint-space comparison: where the trajectories
    differ in some channel of some point, the total RMSE is strictly the
    smaller of the two. *)
Theorem rmse_3d_point_norms (planned executed : list (list R)) (n : nat) :
  (1 <= n)%nat -> shape n 3 planned -> shape n 3 executed ->
  rmse_3d planned executed =
    sqrt (sum_upto n
            (fun i => Rsqr (euclid (nth i executed []) (nth i planned [])))
          / INR n) /\
  ((exists i j, (i < n)%nat /\ (j < 3)%nat /\
                nth j (nth i planned []) 0 <> nth j (nth i executed []) 0) ->
   total_rmse planned executed < rmse_3d planned executed /\
   rmse_3d planned executed <> total_rmse planned executed).
Proof.
  intros Hn Hp He.
  pose proof (sq_diff_shape planned executed n 3 Hp He) as HD.
  assert (H3d : rmse_3d planned executed =
                sqrt (Np.sum (map Np.sum (Np.square (Np.sub planned executed)))
                      / INR n)).
  { unfold rmse_3d, Np.mean, Np.sum_axis1. rewrite length_map.
    replace (List.length (Np.square (Np.sub planned executed))) with n
      by (symmetry; apply HD).
    reflexivity. }
  split.
  - rewrite H3d. f_equal. f_equal.
    rewrite <- (sum_upto_nth Np.sum _ []).
    replace (List.length (Np.square (Np.sub planned executed))) with n
      by (symmetry; apply HD).
    apply sum_upto_ext. intros i Hi.
    rewrite (sq_diff_row planned executed n 3) by assumption.
    unfold euclid. rewrite Rsqr_sqrt by apply sum_squares_nonneg.
    reflexivity.
  - intros (i & j & Hi & Hj & Hne).
    assert (Hlt : total_rmse planned executed < rmse_3d planned executed).
    { rewrite (total_rmse_entries planned executed n 3) by assumption.
      rewrite H3d, (sq_diff_total planned executed n 3) by assumption.
      set (S := sum_upto n
                  (fun i => sum_upto 3 (fun j => sq_err planned executed i j))).
      assert (HS : 0 < S).
      { apply (sum_upto_pos n _ i).
        - intros k Hk. apply sum_upto_nonneg. intros l Hl. apply Rle_0_sqr.
        - exact Hi.
        - apply (sum_upto_pos 3 _ j).
          + intros l Hl. apply Rle_0_sqr.
          + exact Hj.
          + apply Rsqr_pos_lt. lra. }
      assert (HN : 0 < INR n) by (apply lt_0_INR; lia).
      assert (Hq : 0 < S / INR n) by (apply Rdiv_lt_0_compat; assumption).
      apply sqrt_lt_1_alt. rewrite mult_INR.
      replace (S / (INR n * INR 3)) with (S / INR n / 3)
        by (simpl; field; lra).
      lra. }
    split; [exact Hlt | lra].
Qed.

Lemma rmse_3d_point_norms_witness :
  (1 <= 2)%nat /\ shape 2 3 planned_two /\ shape 2 3 executed_two /\
  total_rmse planned_two executed_two < rmse_3d planned_two executed_two.
Proof.
  assert (H1 : (1 <= 2)%nat) by lia.
  assert (H2 : shape 2 3 planned_two) by (split; repeat constructor).
  assert (H3 : shape 2 3 executed_two) by (split; repeat constructor).
  split; [exact H1|]. split; [exact H2|]. split; [exact H3|].
  apply (proj2 (rmse_3d_point_norms _ _ 2 H1 H2 H3)).
  exists 1%nat, 1%nat. split; [lia|]. split; [lia|]. simpl. lra.
Defined.

(** * Further properties of the program *)

(** ** What the trimming returns *)

Lemma sample_vels_columns df df' row :
  Pd.columns df' = Pd.columns df -> sample_vels df' row = sample_vels df row.
Proof. intros H. unfold sample_vels, vel_cols. rewrite H. reflexivity. Qed.

Lemma movingb_columns df df' thr row :
  Pd.columns df' = Pd.columns df -> movingb df' thr row = movingb df thr row.
Proof.
  intros H. unfold movingb. rewrite (sample_vels_columns df df') by exact H.
  reflexivity.
Qed.

Lemma moving_or_rest {A : Type} (f : A -> bool) rows :
  Exists (fun r => f r = true) rows \/ Forall (fun r => f r = false) rows.
Proof.
  induction rows as [|r rows [IH|IH]].
  - right. constructor.
  - left. apply Exists_cons_tl. exact IH.
  - destruct (f r) eqn:E; [left; apply Exists_cons_hd | right; constructor];
      assumption.
Qed.

Lemma empty_or_not {A : Type} (l : list A) : l = [] \/ l <> [].
Proof. destruct l; [left; reflexivity | right; discriminate]. Qed.

Lemma trim_joint_empty df thr :
  Pd.values df = [] ->
  trim_joint df thr =
  Raise (ValueError "attempt to get argmax of an empty sequence").
Proof. intros H. rewrite trim_joint_bounds, H. reflexivity. Qed.

(** The two outcomes of the trimming of a recording that is not empty. *)
Lemma trim_joint_cases df thr :
  Pd.values df <> [] ->
  (Forall (fun r => movingb df thr r = false) (Pd.values df) /\
   trim_joint df thr = Ok df) \/
  (exists pre seg post r1 r2,
      Pd.values df = pre ++ seg ++ post /\
      trim_joint df thr = Ok (Pd.mkDataFrame (Pd.columns df) seg) /\
      Forall (fun r => movingb df thr r = false) pre /\
      Forall (fun r => movingb df thr r = false) post /\
      hd_error seg = Some r1 /\ movingb df thr r1 = true /\
      hd_error (rev seg) = Some r2 /\ movingb df thr r2 = true).
Proof.
  intros Hne.
  destruct (moving_or_rest (movingb df thr) (Pd.values df)) as [Hex|Hall].
  - right.
    destruct (split_first_last (movingb df thr) (Pd.values df) Hex)
      as (pre & seg & post & r1 & r2 & E & Hpre & Hpost & Hh & Hr1 & Hl & Hr2
          & Hs & He).
    exists pre, seg, post, r1, r2. repeat split; try assumption.
    rewrite trim_joint_bounds, Hs, He. simpl. f_equal.
    apply (loc_segment df pre seg post E).
    destruct seg; [discriminate | congruence].
  - left. split; [exact Hall|].
    apply trim_joint_rest; [exact Hne|].
    apply Forall_not_exceeds. exact Hall.
Qed.

Lemma trim_joint_block df thr df' :
  trim_joint df thr = Ok df' ->
  Pd.columns df' = Pd.columns df /\
  Pd.values df' <> [] /\
  exists pre post, Pd.values df = pre ++ Pd.values df' ++ post.
Proof.
  intros H.
  destruct (empty_or_not (Pd.values df)) as [E|Hne].
  - rewrite trim_joint_empty in H by exact E. discriminate H.
  - destruct (trim_joint_cases df thr Hne)
      as [[_ Ht]|(pre & seg & post & r1 & r2 & Es & Ht & _ & _ & Hh & _)].
    + rewrite Ht in H. injection H as <-.
      split; [reflexivity|]. split; [exact Hne|].
      exists [], []. rewrite app_nil_r. reflexivity.
    + rewrite Ht in H. injection H as <-. simpl.
      split; [reflexivity|]. split; [destruct seg; discriminate|].
      exists pre, post. exact Es.
Qed.

Lemma trim_joint_again df thr df' :
  trim_joint df thr = Ok df' -> trim_joint df' thr = Ok df'.
Proof.
  intros H.
  destruct (empty_or_not (Pd.values df)) as [E|Hne].
  { rewrite trim_joint_empty in H by exact E. discriminate H. }
  destruct (trim_joint_cases df thr Hne)
    as [[_ Ht]|(pre & seg & post & r1 & r2 & Es & Ht & _ & _ & Hh & Hr1 & Hl
                & Hr2)].
  - rewrite Ht in H. injection H as <-. exact Ht.
  - rewrite Ht in H. injection H as <-.
    destruct seg as [|a seg0]; [discriminate|].
    injection Hh as ->.
    destruct (rev (r1 :: seg0)) as [|b t] eqn:Erev; [discriminate|].
    injection Hl as ->.
    assert (Efront : r1 :: seg0 = rev t ++ [r2]).
    { rewrite <- (rev_involutive (r1 :: seg0)), Erev. reflexivity. }
    set (D := Pd.mkDataFrame (Pd.columns df) (r1 :: seg0)).
    assert (Hm : forall row, movingb D thr row = movingb df thr row)
      by (intros row; apply movingb_columns; reflexivity).
    pose proof (idxmax_first (movingb D thr) [] r1 seg0 (Forall_nil _)) as Hs.
    rewrite Hm in Hs. specialize (Hs Hr1). simpl app in Hs.
    pose proof (idxmax_last (movingb D thr) (rev t) r2 [] (Forall_nil _)) as He.
    rewrite Hm in He. specialize (He Hr2). rewrite <- Efront in He.
    rewrite trim_joint_bounds.
    change (Pd.values D) with (r1 :: seg0). rewrite Hs, He.
    simpl bind. f_equal. unfold Pd.loc, D. simpl Pd.columns. simpl Pd.values.
    f_equal. simpl skipn.
    replace (S (List.length (rev t)) - 0)%nat with (List.length (r1 :: seg0))
      by (rewrite Efront, length_app; simpl; lia).
    apply firstn_all.
Qed.

Lemma trim_cartesian_cases df thr :
  trim_cartesian df thr = Ok df \/ trim_cartesian df thr = trim_joint df thr.
Proof.
  unfold trim_cartesian, trim_joint.
  destruct (vel_cols df); [left; reflexivity|].
  destruct (Rltb 0 thr); [right | left]; reflexivity.
Qed.

(** X1: a recording without a sample makes the joint-space trimming fail on
    the argmax of an empty mask, whatever the threshold; the Cartesian
    trimming fails the same way when it trims at all, that is with a velocity
    column and a positive threshold, and returns the empty recording
    otherwise. *)
Theorem trim_empty_recording (df : Pd.DataFrame) (thr : R) :
  Pd.values df = [] ->
  trim_joint df thr =
    Raise (ValueError "attempt to get argmax of an empty sequence") /\
  (vel_cols df <> [] -> 0 < thr ->
   trim_cartesian df thr =
     Raise (ValueError "attempt to get argmax of an empty sequence")) /\
  (vel_cols df = [] \/ thr <= 0 -> trim_cartesian df thr = Ok df).
Proof.
  intros H. split; [apply trim_joint_empty; exact H|]. split.
  - intros Hc Ht. rewrite trim_cartesian_guard by assumption.
    apply trim_joint_empty. exact H.
  - apply trim_cartesian_noop.
Qed.

Lemma trim_empty_recording_witness :
  Pd.values (frame "joint_vel" []) = [] /\
  trim_joint (frame "joint_vel" []) 1 =
    Raise (ValueError "attempt to get argmax of an empty sequence").
Proof.
  assert (H : Pd.values (frame "joint_vel" []) = []) by reflexivity.
  split; [exact H|].
  exact (proj1 (trim_empty_recording (frame "joint_vel" []) 1 H)).
Defined.

(** X2: what either trimming returns is a block of consecutive samples of
    the recording under the same columns: nothing is reordered, changed or
    added; the joint-space trimming never returns an empty recording. *)
Theorem trim_returns_block (df df' : Pd.DataFrame) (thr : R) :
  (trim_joint df thr = Ok df' ->
   Pd.columns df' = Pd.columns df /\
   Pd.values df' <> [] /\
   exists pre post, Pd.values df = pre ++ Pd.values df' ++ post) /\
  (trim_cartesian df thr = Ok df' ->
   Pd.columns df' = Pd.columns df /\
   exists pre post, Pd.values df = pre ++ Pd.values df' ++ post).
Proof.
  split; [apply trim_joint_block|].
  intros H. destruct (trim_cartesian_cases df thr) as [E|E]; rewrite E in H.
  - injection H as <-. split; [reflexivity|].
    exists [], []. rewrite app_nil_r. reflexivity.
  - destruct (trim_joint_block df thr df' H) as (Hc & _ & Hb). auto.
Qed.

Lemma trim_returns_block_witness :
  trim_joint df_ramp 1 =
    Ok (Pd.mkDataFrame (Pd.columns df_ramp)
          (firstn 4 (skipn 3 (Pd.values df_ramp)))) /\
  exists pre post,
    Pd.values df_ramp = pre ++ firstn 4 (skipn 3 (Pd.values df_ramp)) ++ post.
Proof.
  assert (H : trim_joint df_ramp 1 =
    Ok (Pd.mkDataFrame (Pd.columns df_ramp)
          (firstn 4 (skipn 3 (Pd.values df_ramp)))))
    by (unfold df_ramp; trim_eval; reflexivity).
  split; [exact H|].
  exact (proj2 (proj2 (proj1 (trim_returns_block df_ramp _ 1) H))).
Defined.

Lemma trim_joint_ends_moving df thr r1 r2 :
  hd_error (Pd.values df) = Some r1 -> movingb df thr r1 = true ->
  hd_error (rev (Pd.values df)) = Some r2 -> movingb df thr r2 = true ->
  trim_joint df thr = Ok df.
Proof.
  intros Hh Hr1 Hl Hr2.
  destruct (Pd.values df) as [|a rows] eqn:E; [discriminate|].
  injection Hh as ->.
  destruct (rev (r1 :: rows)) as [|b t] eqn:Erev; [discriminate|].
  injection Hl as ->.
  assert (Efront : r1 :: rows = rev t ++ [r2]).
  { rewrite <- (rev_involutive (r1 :: rows)), Erev. reflexivity. }
  pose proof (idxmax_first (movingb df thr) [] r1 rows (Forall_nil _) Hr1)
    as Hs. simpl app in Hs.
  pose proof (idxmax_last (movingb df thr) (rev t) r2 [] (Forall_nil _) Hr2)
    as He. rewrite <- Efront in He.
  rewrite trim_joint_bounds, E, Hs, He. simpl bind. f_equal.
  unfold Pd.loc. rewrite E. simpl skipn.
  replace (S (List.length (rev t)) - 0)%nat with (List.length (r1 :: rows))
    by (rewrite Efront, length_app; simpl; lia).
  rewrite firstn_all, <- E. destruct df; reflexivity.
Qed.

Lemma vel_cols_columns df df' :
  Pd.columns df' = Pd.columns df -> vel_cols df' = vel_cols df.
Proof. intros H. unfold vel_cols. rewrite H. reflexivity. Qed.

(** X3: trimming what was trimmed changes nothing, in the joint-space and
    in the Cartesian comparison. *)
Theorem trim_idempotent (df df' : Pd.DataFrame) (thr : R) :
  (trim_joint df thr = Ok df' -> trim_joint df' thr = Ok df') /\
  (trim_cartesian df thr = Ok df' -> trim_cartesian df' thr = Ok df').
Proof.
  split; [apply trim_joint_again|].
  intros H.
  destruct (vel_cols df) as [|c cs] eqn:Hc.
  - rewrite trim_cartesian_noop in H by (left; exact Hc).
    injection H as <-. apply trim_cartesian_noop. left. exact Hc.
  - destruct (Rlt_dec 0 thr) as [Ht|Ht].
    + rewrite trim_cartesian_guard in H by (congruence || exact Ht).
      destruct (trim_joint_block df thr df' H) as (Hcols & _).
      rewrite trim_cartesian_guard;
        [apply (trim_joint_again df); exact H | | exact Ht].
      rewrite (vel_cols_columns df df') by exact Hcols. congruence.
    + rewrite trim_cartesian_noop in H by (right; lra).
      injection H as <-. apply trim_cartesian_noop. right. lra.
Qed.

Lemma trim_idempotent_witness :
  trim_joint
    (Pd.mkDataFrame (Pd.columns df_ramp)
       (firstn 4 (skipn 3 (Pd.values df_ramp)))) 1 =
  Ok (Pd.mkDataFrame (Pd.columns df_ramp)
        (firstn 4 (skipn 3 (Pd.values df_ramp)))).
Proof.
  assert (H : trim_joint df_ramp 1 =
    Ok (Pd.mkDataFrame (Pd.columns df_ramp)
          (firstn 4 (skipn 3 (Pd.values df_ramp)))))
    by (unfold df_ramp; trim_eval; reflexivity).
  exact (proj1 (trim_idempotent df_ramp _ 1) H).
Defined.

(** X4: on a recording that is not empty and with a positive threshold the
    two comparisons trim alike, whether or not there is a velocity column. *)
Theorem trim_pipelines_agree (df : Pd.DataFrame) (thr : R) :
  0 < thr -> Pd.values df <> [] ->
  trim_cartesian df thr = trim_joint df thr.
Proof.
  intros Ht Hne. destruct (vel_cols df) as [|c cs] eqn:Hc.
  - rewrite trim_cartesian_noop by (left; exact Hc).
    symmetry. apply trim_joint_rest; [exact Hne|].
    apply Forall_forall. intros row _ Hex.
    rewrite sample_vels_no_cols in Hex by exact Hc. inversion Hex.
  - apply trim_cartesian_guard; [congruence | exact Ht].
Qed.

Lemma trim_pipelines_agree_witness :
  0 < 1 /\ Pd.values df_speed <> [] /\
  trim_cartesian df_speed 1 = trim_joint df_speed 1.
Proof.
  assert (H1 : 0 < 1) by lra.
  assert (H2 : Pd.values df_speed <> []) by (cbn; discriminate).
  split; [exact H1|]. split; [exact H2|].
  exact (trim_pipelines_agree df_speed 1 H1 H2).
Defined.

(** X5: the joint-space trimming returns the recording as it is exactly
    when the recording is not empty and either no sample has a velocity
    above the threshold, or both the first and the last sample have one. *)
Theorem trim_joint_unchanged_iff (df : Pd.DataFrame) (thr : R) :
  trim_joint df thr = Ok df <->
  Pd.values df <> [] /\
  (Forall (fun row => ~ exceeds thr (sample_vels df row)) (Pd.values df) \/
   exists r1 r2,
     hd_error (Pd.values df) = Some r1 /\
     exceeds thr (sample_vels df r1) /\
     hd_error (rev (Pd.values df)) = Some r2 /\
     exceeds thr (sample_vels df r2)).
Proof.
  split.
  - intros H.
    destruct (trim_joint_block df thr df H) as (_ & Hne & _).
    split; [exact Hne|].
    destruct (trim_joint_cases df thr Hne)
      as [[Hall _]|(pre & seg & post & r1 & r2 & Es & Ht & _ & _ & Hh & Hr1
                    & Hl & Hr2)].
    + left. apply Forall_not_exceeds. exact Hall.
    + right. rewrite Ht in H. injection H as H.
      assert (Eseg : seg = Pd.values df) by (rewrite <- H; reflexivity).
      subst seg. exists r1, r2.
      repeat split; try assumption; apply movingb_exceeds; assumption.
  - intros [Hne [Hall|(r1 & r2 & Hh & Hr1 & Hl & Hr2)]].
    + apply trim_joint_rest; assumption.
    + apply (trim_joint_ends_moving df thr r1 r2); try assumption;
        apply movingb_exceeds; assumption.
Qed.

(** ** Selecting columns *)

Lemma get_loc_none c cols : Pd.get_loc c cols = None <-> ~ In c cols.
Proof.
  induction cols as [|c' cols IH]; simpl; [tauto|].
  destruct (String.eqb_spec c c') as [->|Hne].
  - split; [discriminate | tauto].
  - destruct (Pd.get_loc c cols) as [j|]; simpl.
    + split; [discriminate|]. intros H.
      assert (Hn : ~ In c cols) by tauto.
      apply IH in Hn. discriminate Hn.
    + split; [|reflexivity]. intros _ [H|H]; [congruence|].
      revert H. apply IH. reflexivity.
Qed.

Lemma get_locs_length names cols js :
  Pd.get_locs names cols = Ok js -> List.length js = List.length names.
Proof.
  revert js. induction names as [|c names IH]; intros js H; simpl in H.
  - injection H as <-. reflexivity.
  - destruct (Pd.get_loc c cols); [|discriminate].
    destruct (Pd.get_locs names cols) as [js'|]; [|discriminate].
    simpl in H. injection H as <-. simpl. f_equal. apply IH. reflexivity.
Qed.

Lemma get_locs_raise names cols e :
  Pd.get_locs names cols = Raise e ->
  exists c, e = KeyError c /\ In c names /\ ~ In c cols.
Proof.
  induction names as [|c names IH]; intros H; simpl in H; [discriminate|].
  destruct (Pd.get_loc c cols) eqn:E.
  - destruct (Pd.get_locs names cols) as [js'|e']; [discriminate|].
    simpl in H. injection H as <-.
    destruct (IH eq_refl) as (c' & He & Hin & Hn).
    exists c'. simpl. auto.
  - injection H as <-. exists c. split; [reflexivity|].
    split; [left; reflexivity | apply get_loc_none; exact E].
Qed.

(** X6: [df[names]] returns one row per sample with one value per name
    when every name is a column, and raises [KeyError] for a name that is
    not a column otherwise. *)
Theorem getitem_outcome (df : Pd.DataFrame) (names : list string) :
  (incl names (Pd.columns df) ->
   exists rows,
     Pd.getitem df names = Ok rows /\
     shape (List.length (Pd.values df)) (List.length names) rows) /\
  (~ incl names (Pd.columns df) ->
   exists c,
     Pd.getitem df names = Raise (KeyError c) /\
     In c names /\ ~ In c (Pd.columns df)).
Proof.
  unfold Pd.getitem. split.
  - intros Hincl. destruct (get_locs_incl _ _ Hincl) as [js Hjs].
    rewrite Hjs. simpl. eexists. split; [reflexivity|].
    split; [apply length_map|].
    apply Forall_forall. intros row Hrow.
    apply in_map_iff in Hrow. destruct Hrow as (r & <- & _).
    unfold Pd.take_row. rewrite length_map.
    apply (get_locs_length _ _ _ Hjs).
  - intros Hn. destruct (Pd.get_locs names (Pd.columns df)) as [js|e] eqn:E.
    + exfalso. apply Hn. intros c Hc.
      destruct (in_dec string_dec c (Pd.columns df)) as [Hin|Hin]; [exact Hin|].
      exfalso. clear Hn. revert js E.
      induction names as [|c' names IH]; intros js E; [inversion Hc|].
      simpl in E. destruct (Pd.get_loc c' (Pd.columns df)) eqn:El;
        [|discriminate].
      destruct (Pd.get_locs names (Pd.columns df)) as [js'|]; [|discriminate].
      destruct Hc as [->|Hc].
      * apply get_loc_none in Hin. congruence.
      * apply (IH Hc js'). reflexivity.
    + destruct (get_locs_raise _ _ _ E) as (c & -> & Hin & Hnot).
      exists c. simpl. auto.
Qed.

Lemma getitem_outcome_witness :
  incl ["joint_vel"%string] (Pd.columns df_ramp) /\
  exists rows,
    Pd.getitem df_ramp ["joint_vel"%string] = Ok rows /\
    shape (List.length (Pd.values df_ramp)) 1 rows.
Proof.
  assert (H : incl ["joint_vel"%string] (Pd.columns df_ramp)).
  { intros c [<-|[]]. simpl. auto. }
  split; [exact H|].
  exact (proj1 (getitem_outcome df_ramp ["joint_vel"%string]) H).
Defined.

(** ** The duplicate-point filter on sorted coordinates *)

Lemma remove_duplicate_points_mask s (positions : list (list R)) :
  Sorted Rle s -> List.length positions = List.length s ->
  remove_duplicate_points s positions =
  Ok (Np.compress (first_mask s) s, Np.compress (first_mask s) positions).
Proof.
  intros Hs Hlen. unfold remove_duplicate_points.
  rewrite unique_index_sorted by exact Hs. fold (first_mask s).
  pose proof (take_compress_seq [] s (first_mask s)) as Ts. simpl in Ts.
  pose proof (take_compress_seq [] positions (first_mask s)) as Tp.
  simpl in Tp. rewrite Hlen in Tp. rewrite Ts, Tp. reflexivity.
Qed.

Lemma compress_same_length {A B : Type} mask (a : list A) (b : list B) :
  List.length a = List.length b ->
  List.length (Np.compress mask a) = List.length (Np.compress mask b).
Proof.
  intros H. destruct (compress_combine mask a b H) as [-> ->].
  rewrite !length_map. reflexivity.
Qed.

Lemma compress_neq_prev_sorted x s :
  Sorted Rle (x :: s) ->
  Sorted Rlt (x :: Np.compress (Np.neq_prev x s) s) /\
  last (x :: Np.compress (Np.neq_prev x s) s) 0 = last (x :: s) 0.
Proof.
  revert x. induction s as [|y s IH]; intros x Hs.
  - simpl. rewrite compress_nil_r. split; [repeat constructor | reflexivity].
  - apply Sorted_inv in Hs. destruct Hs as [Hs Hhd].
    apply HdRel_inv in Hhd.
    simpl Np.neq_prev. rewrite compress_cons.
    destruct (Req_dec_T y x) as [->|Hne].
    + rewrite Reqb_true by reflexivity. simpl negb. cbv iota.
      rewrite (last_cons_cons x x s). apply IH. exact Hs.
    + rewrite Reqb_false by exact Hne. simpl negb. cbv iota.
      destruct (IH y Hs) as [IH1 IH2].
      rewrite !last_cons_cons. split; [|exact IH2].
      constructor; [exact IH1 | constructor; lra].
Qed.

Lemma compress_neq_prev_strict {A : Type} x s (l : list A) :
  Sorted Rlt (x :: s) -> List.length l = List.length s ->
  Np.compress (Np.neq_prev x s) l = l.
Proof.
  revert x l. induction s as [|y s IH]; intros x l Hs Hl.
  - destruct l; [reflexivity | discriminate].
  - destruct l as [|a l]; [discriminate|].
    apply Sorted_inv in Hs. destruct Hs as [Hs Hhd].
    apply HdRel_inv in Hhd.
    simpl Np.neq_prev. rewrite compress_cons, Reqb_false by lra.
    simpl negb. cbv iota. f_equal. apply IH; [exact Hs|].
    simpl in Hl. lia.
Qed.

(** X7: on coordinates that never decrease the filter returns strictly
    increasing coordinates with as many values; the first and the last
    coordinate are those of the input, and the first value is the first
    value of the input. *)
Theorem dedupe_strictly_increasing (s : list R) (positions : list (list R)) :
  Sorted Rle s -> List.length positions = List.length s ->
  exists s' positions',
    remove_duplicate_points s positions = Ok (s', positions') /\
    Sorted Rlt s' /\
    List.length positions' = List.length s' /\
    hd 0 s' = hd 0 s /\
    last s' 0 = last s 0 /\
    hd [] positions' = hd [] positions.
Proof.
  intros Hs Hlen. eexists. eexists.
  split; [apply remove_duplicate_points_mask; assumption|].
  split; [|split; [apply compress_same_length; exact Hlen|]].
  - destruct s as [|x s]; [constructor|].
    simpl first_mask. rewrite compress_cons.
    apply compress_neq_prev_sorted. exact Hs.
  - destruct s as [|x s].
    + destruct positions; [|discriminate]. repeat split.
    + destruct positions as [|p positions]; [discriminate|].
      simpl first_mask. rewrite !compress_cons.
      split; [reflexivity|]. split; [|reflexivity].
      apply compress_neq_prev_sorted. exact Hs.
Qed.

Lemma dedupe_strictly_increasing_witness :
  exists s' positions',
    remove_duplicate_points s_repeat p_line = Ok (s', positions') /\
    Sorted Rlt s'.
Proof.
  assert (H1 : Sorted Rle s_repeat)
    by (unfold s_repeat; repeat constructor; lra).
  assert (H2 : List.length p_line = List.length s_repeat) by reflexivity.
  destruct (dedupe_strictly_increasing s_repeat p_line H1 H2)
    as (s' & p' & H & Hs & _).
  exists s', p'. auto.
Defined.

(** X8: strictly increasing coordinates have no duplicate, and the filter
    returns them and their values unchanged. *)
Theorem dedupe_strict_unchanged (s : list R) (positions : list (list R)) :
  Sorted Rlt s -> List.length positions = List.length s ->
  remove_duplicate_points s positions = Ok (s, positions).
Proof.
  intros Hs Hlen.
  rewrite remove_duplicate_points_mask
    by (try apply sorted_lt_le; assumption).
  destruct s as [|x s].
  - destruct positions; [reflexivity | discriminate].
  - destruct positions as [|p positions]; [discriminate|].
    simpl first_mask. rewrite !compress_cons.
    rewrite !(compress_neq_prev_strict x s) by (simpl in Hlen; auto; lia).
    reflexivity.
Qed.

Lemma dedupe_strict_unchanged_witness :
  Sorted Rlt s_unique /\ List.length p_unique = List.length s_unique /\
  remove_duplicate_points s_unique p_unique = Ok (s_unique, p_unique).
Proof.
  assert (H1 : Sorted Rlt s_unique)
    by (unfold s_unique; repeat constructor; lra).
  assert (H2 : List.length p_unique = List.length s_unique) by reflexivity.
  split; [exact H1|]. split; [exact H2|].
  exact (dedupe_strict_unchanged s_unique p_unique H1 H2).
Defined.

(** ** From the parametrization to the resampled path *)

Lemma sorted_le_of_nth l :
  (forall i, (S i < List.length l)%nat -> nth i l 0 <= nth (S i) l 0) ->
  Sorted Rle l.
Proof.
  induction l as [|a l IH]; intros H; constructor.
  - apply IH. intros i Hi. apply (H (S i)). simpl. lia.
  - destruct l as [|b l]; constructor.
    apply (H 0%nat). simpl. lia.
Qed.

Lemma arc_length_inv positions s :
  compute_arc_length_parametrization positions = Ok s ->
  (2 <= List.length positions)%nat /\ path_length positions <> 0.
Proof.
  intros H.
  destruct (Nat.lt_ge_cases (List.length positions) 2) as [Hlen|Hlen].
  - rewrite arc_length_too_short in H by exact Hlen. discriminate H.
  - split; [exact Hlen|]. intros Hz.
    rewrite arc_length_zero in H by assumption. discriminate H.
Qed.

Lemma arc_length_raise positions e :
  compute_arc_length_parametrization positions = Raise e ->
  e = InsufficientPoints \/ e = ZeroArcLength.
Proof.
  intros H.
  destruct (Nat.lt_ge_cases (List.length positions) 2) as [Hlen|Hlen].
  - rewrite arc_length_too_short in H by exact Hlen. left. congruence.
  - destruct (Req_dec_T (path_length positions) 0) as [Hz|Hnz].
    + rewrite arc_length_zero in H by assumption. right. congruence.
    + rewrite arc_length_ok in H by assumption. discriminate H.
Qed.

(** The coordinates the parametrization returns. *)
Lemma arc_length_coordinates positions s :
  compute_arc_length_parametrization positions = Ok s ->
  List.length s = List.length positions /\
  Sorted Rle s /\ hd 0 s = 0 /\ last s 0 = 1.
Proof.
  intros H. destruct (arc_length_inv positions s H) as [Hlen Hpath].
  rewrite arc_length_ok in H by assumption.
  assert (E : s = map (fun a => a / arc_divisor positions)
                    (0 :: Np.cumsum (Np.norm_axis1 (Np.diff positions))))
    by congruence.
  subst s. clear H.
  pose proof (path_length_nonneg positions) as Hnn.
  assert (Hpos : 0 < path_length positions) by lra.
  assert (Hl : List.length
                 (map (fun a => a / arc_divisor positions)
                    (0 :: Np.cumsum (Np.norm_axis1 (Np.diff positions)))) =
               List.length positions).
  { rewrite length_map. apply arc_lengths_length. lia. }
  split; [exact Hl|]. split; [|split].
  - apply sorted_le_of_nth. intros i Hi.
    assert (Hi' : (S i < List.length positions)%nat)
      by (rewrite <- Hl; exact Hi).
    rewrite !arc_length_nth by lia.
    apply quotient_bounds; [exact Hpos | apply partial_path_mono; lia].
  - simpl. unfold Rdiv. apply Rmult_0_l.
  - rewrite (last_map_cons _ _ _ 0).
    fold (arc_divisor positions). rewrite arc_divisor_path_length.
    field. lra.
Qed.

Lemma linspace_unit_Forall_any n :
  Forall (fun v => 0 <= v <= 1) (Np.linspace 0 1 n).
Proof.
  destruct n as [|[|m]].
  - constructor.
  - repeat constructor; simpl; lra.
  - apply linspace_unit_Forall. lia.
Qed.

Lemma resample_unit_ok s (positions : list (list R)) n_points :
  Sorted Rlt s -> (1 <= List.length s)%nat ->
  List.length positions = List.length s ->
  hd 0 s = 0 -> last s 0 = 1 ->
  resample s positions n_points =
  Ok (map (Sp.call_linear (Sp.mkInterp1d s positions))
        (Np.linspace 0 1 n_points)).
Proof.
  intros Hs Hlen Hpos H0 H1. unfold resample.
  rewrite make_sorted by assumption. simpl. unfold Sp.call.
  rewrite (check_bounds_unit s positions);
    [reflexivity | | exact H1 | apply linspace_unit_Forall_any].
  destruct s; simpl in *; lra.
Qed.

Lemma two_coordinates s :
  hd 0 s = 0 -> last s 0 = 1 -> (2 <= List.length s)%nat.
Proof.
  intros H0 H1. destruct s as [|a [|b s]]; simpl in *; try lra. lia.
Qed.

Lemma arc_chain positions s n_points :
  compute_arc_length_parametrization positions = Ok s ->
  exists s' positions' out,
    remove_duplicate_points s positions = Ok (s', positions') /\
    (2 <= List.length s')%nat /\
    resample s' positions' n_points = Ok out /\
    List.length out = n_points.
Proof.
  intros H.
  destruct (arc_length_coordinates positions s H) as (Hlen & Hs & H0 & H1).
  pose proof (remove_duplicate_points_mask s positions Hs (eq_sym Hlen)) as Hd.
  assert (Hprops :
    Sorted Rlt (Np.compress (first_mask s) s) /\
    hd 0 (Np.compress (first_mask s) s) = 0 /\
    last (Np.compress (first_mask s) s) 0 = 1).
  { destruct s as [|x s]; [simpl in H1; lra|].
    simpl first_mask. rewrite compress_cons.
    destruct (compress_neq_prev_sorted x s Hs) as [Hlt Hlast].
    split; [exact Hlt|]. split; [exact H0|].
    rewrite Hlast. exact H1. }
  destruct Hprops as (Hlt & H0' & H1').
  pose proof (two_coordinates _ H0' H1') as H2.
  exists (Np.compress (first_mask s) s), (Np.compress (first_mask s) positions).
  eexists. split; [exact Hd|]. split; [exact H2|]. split.
  - apply resample_unit_ok; try assumption; [lia|].
    apply compress_same_length. congruence.
  - rewrite length_map. apply linspace_unit_length.
Qed.

(** X9: once the parametrization of a path has succeeded, the rest of the
    Cartesian chain cannot fail: the filter leaves at least two distinct
    coordinates, from 0 to 1, and the resampling returns [n_points]
    vectors.  The error for too few unique points is never raised. *)
Theorem parametrized_path_resamples
    (positions : list (list R)) (s : list R) (n_points : nat) :
  compute_arc_length_parametrization positions = Ok s ->
  exists s' positions' out,
    remove_duplicate_points s positions = Ok (s', positions') /\
    (2 <= List.length s')%nat /\
    resample s' positions' n_points = Ok out /\
    List.length out = n_points.
Proof. apply arc_chain. Qed.

Lemma parametrized_path_resamples_witness :
  exists s s' positions' out,
    compute_arc_length_parametrization two_legs = Ok s /\
    remove_duplicate_points s two_legs = Ok (s', positions') /\
    resample s' positions' 5 = Ok out /\
    List.length out = 5%nat.
Proof.
  assert (H3 : path_length two_legs <> 0).
  { cbn. unfold euclid. cbn.
    assert (Ha : 0 < sqrt (Rsqr (3 - 0) + (Rsqr (4 - 0) + (Rsqr (0 - 0) + 0)))).
    { apply sqrt_lt_R0. unfold Rsqr. lra. }
    pose proof (sqrt_pos (Rsqr (3 - 3) + (Rsqr (4 - 4) + (Rsqr (12 - 0) + 0)))).
    lra. }
  assert (H : compute_arc_length_parametrization two_legs =
              Ok (map (fun a => a / arc_divisor two_legs)
                    (0 :: Np.cumsum (Np.norm_axis1 (Np.diff two_legs))))).
  { apply arc_length_ok; [simpl; lia | exact H3]. }
  destruct (parametrized_path_resamples two_legs _ 5 H)
    as (s' & p' & out & Hd & _ & Hr & Hl).
  eexists. exists s', p', out. split; [exact H|]. auto.
Defined.

(** ** The ways the comparisons fail *)

Lemma trim_joint_raise df thr e :
  trim_joint df thr = Raise e ->
  e = ValueError "attempt to get argmax of an empty sequence".
Proof.
  intros H. destruct (empty_or_not (Pd.values df)) as [E|Hne].
  - rewrite trim_joint_empty in H by exact E. congruence.
  - destruct (trim_joint_cases df thr Hne)
      as [[_ Ht]|(pre & seg & post & r1 & r2 & _ & Ht & _)];
      rewrite Ht in H; discriminate H.
Qed.

Lemma trim_cartesian_raise df thr e :
  trim_cartesian df thr = Raise e ->
  e = ValueError "attempt to get argmax of an empty sequence".
Proof.
  intros H. destruct (trim_cartesian_cases df thr) as [E|E]; rewrite E in H.
  - discriminate H.
  - apply (trim_joint_raise df thr). exact H.
Qed.

Lemma getitem_raise df names e :
  Pd.getitem df names = Raise e -> exists c, e = KeyError c /\ In c names.
Proof.
  unfold Pd.getitem. intros H.
  destruct (Pd.get_locs names (Pd.columns df)) as [js|e'] eqn:E;
    [discriminate H|].
  simpl in H. injection H as <-.
  destruct (get_locs_raise _ _ _ E) as (c & -> & Hin & _). eauto.
Qed.

(** X10: the Cartesian comparison fails in four ways only: on an empty
    recording to trim, on a position column that is missing, on a path of
    fewer than two points and on a path of length zero.  It never raises the
    error for too few unique points, and the interpolation is never asked
    for a coordinate outside its range. *)
Theorem compare_cartesian_failures
    (df_planned df_executed : Pd.DataFrame) (cart_pos_names : list string)
    (n_points : nat) (vel_threshold : R) (e : exn) :
  compare_cartesian_trajectories df_planned df_executed cart_pos_names
    n_points vel_threshold = Raise e ->
  e = ValueError "attempt to get argmax of an empty sequence" \/
  (exists c, e = KeyError c /\ In c (firstn 3 cart_pos_names)) \/
  e = InsufficientPoints \/
  e = ZeroArcLength.
Proof.
  unfold compare_cartesian_trajectories.
  destruct (trim_cartesian df_executed vel_threshold) as [dfe|e0] eqn:Et;
    cbn [bind].
  2:{ intros H. injection H as <-. left.
      apply (trim_cartesian_raise _ _ _ Et). }
  destruct (Pd.getitem df_planned (firstn 3 cart_pos_names)) as [pp|e1] eqn:Ep;
    cbn [bind].
  2:{ intros H. injection H as <-. right. left.
      apply (getitem_raise _ _ _ Ep). }
  destruct (Pd.getitem dfe (firstn 3 cart_pos_names)) as [ep|e2] eqn:Ee;
    cbn [bind].
  2:{ intros H. injection H as <-. right. left.
      apply (getitem_raise _ _ _ Ee). }
  destruct (compute_arc_length_parametrization pp) as [sp|e3] eqn:Esp;
    cbn [bind].
  2:{ intros H. injection H as <-. right. right.
      apply (arc_length_raise _ _ Esp). }
  destruct (compute_arc_length_parametrization ep) as [se|e4] eqn:Ese;
    cbn [bind].
  2:{ intros H. injection H as <-. right. right.
      apply (arc_length_raise _ _ Ese). }
  destruct (arc_chain pp sp n_points Esp)
    as (sp' & pp' & outp & Hdp & H2p & Hrp & _).
  destruct (arc_chain ep se n_points Ese)
    as (se' & ep' & oute & Hde & H2e & Hre & _).
  rewrite Hdp, Hde. cbn [bind].
  replace (List.length sp' <? 2)%nat with false
    by (symmetry; apply Nat.ltb_ge; exact H2p).
  replace (List.length se' <? 2)%nat with false
    by (symmetry; apply Nat.ltb_ge; exact H2e).
  cbn [orb]. rewrite Hrp, Hre. cbn [bind]. intros H. discriminate H.
Qed.

Lemma compare_cartesian_failures_witness :
  compare_cartesian_trajectories df_rest (frame "joint_vel" [])
    ["joint_pos"%string] 5 1 =
    Raise (ValueError "attempt to get argmax of an empty sequence") /\
  (ValueError "attempt to get argmax of an empty sequence" =
     ValueError "attempt to get argmax of an empty sequence" \/
   (exists c,
       ValueError "attempt to get argmax of an empty sequence" = KeyError c /\
       In c (firstn 3 ["joint_pos"%string])) \/
   ValueError "attempt to get argmax of an empty sequence" = InsufficientPoints
   \/ ValueError "attempt to get argmax of an empty sequence" = ZeroArcLength).
Proof.
  assert (H : compare_cartesian_trajectories df_rest (frame "joint_vel" [])
                ["joint_pos"%string] 5 1 =
              Raise (ValueError "attempt to get argmax of an empty sequence")).
  { unfold compare_cartesian_trajectories. trim_eval. reflexivity. }
  split; [exact H|].
  exact (compare_cartesian_failures _ _ _ _ _ _ H).
Defined.

(** ** The joint-space comparison *)

Lemma getitem_ok df names :
  incl names (Pd.columns df) ->
  exists rows,
    Pd.getitem df names = Ok rows /\
    shape (List.length (Pd.values df)) (List.length names) rows.
Proof.
  intros Hincl. unfold Pd.getitem.
  destruct (get_locs_incl _ _ Hincl) as [js Hjs].
  rewrite Hjs. simpl. eexists. split; [reflexivity|].
  split; [apply length_map|].
  apply Forall_forall. intros row Hrow.
  apply in_map_iff in Hrow. destruct Hrow as (r & <- & _).
  unfold Pd.take_row. rewrite length_map.
  apply (get_locs_length _ _ _ Hjs).
Qed.

Lemma hd_nth0 (l : list R) : hd 0 l = nth 0 l 0.
Proof. destruct l; reflexivity. Qed.

Lemma resample_index_ok (positions : list (list R)) n_points :
  (2 <= List.length positions)%nat ->
  resample (Np.linspace 0 1 (List.length positions)) positions n_points =
  Ok (map (Sp.call_linear
             (Sp.mkInterp1d (Np.linspace 0 1 (List.length positions))
                positions))
        (Np.linspace 0 1 n_points)).
Proof.
  intros Hm. apply resample_unit_ok.
  - apply linspace_unit_sorted. exact Hm.
  - rewrite linspace_unit_length. lia.
  - rewrite linspace_unit_length. reflexivity.
  - rewrite hd_nth0, linspace_unit_nth by lia. simpl. unfold Rdiv. ring.
  - rewrite last_nth, linspace_unit_length, linspace_unit_nth by lia.
    field. apply not_0_INR. lia.
Qed.

Lemma call_linear_length s (positions : list (list R)) c x :
  (2 <= List.length s)%nat -> List.length positions = List.length s ->
  Forall (fun row => List.length row = c) positions ->
  List.length (Sp.call_linear (Sp.mkInterp1d s positions) x) = c.
Proof.
  intros Hlen Hpos Hc. unfold Sp.call_linear. simpl Sp.x. simpl Sp.y.
  set (n := List.length s) in *.
  set (hi := Np.clip (Np.searchsorted s x) 1 (n - 1)).
  assert (Hhi : (1 <= hi < n)%nat) by (unfold hi, Np.clip; lia).
  replace (hi =? 0)%nat with false by (symmetry; apply Nat.eqb_neq; lia).
  rewrite Forall_forall in Hc.
  assert (Hlo : List.length (nth (hi - 1) positions []) = c)
    by (apply Hc, nth_In; lia).
  assert (Hhi' : List.length (nth hi positions []) = c)
    by (apply Hc, nth_In; lia).
  rewrite length_map, length_combine, length_map, sub_row_length by lia.
  lia.
Qed.

Lemma resample_index_shape (positions : list (list R)) n_points c :
  (2 <= List.length positions)%nat ->
  Forall (fun row => List.length row = c) positions ->
  exists out,
    resample (Np.linspace 0 1 (List.length positions)) positions n_points =
      Ok out /\
    shape n_points c out.
Proof.
  intros Hm Hc. eexists. split; [apply resample_index_ok; exact Hm|].
  split; [rewrite length_map; apply linspace_unit_length|].
  apply Forall_forall. intros row Hrow.
  apply in_map_iff in Hrow. destruct Hrow as (x & <- & _).
  apply call_linear_length;
    [rewrite linspace_unit_length; exact Hm
    | rewrite linspace_unit_length; reflexivity | exact Hc].
Qed.

Lemma rmse_length p e n c :
  (1 <= n)%nat -> shape n c p -> shape n c e -> List.length (rmse p e) = c.
Proof.
  intros Hn Hp He. unfold rmse, Np.mean_axis0. rewrite !length_map.
  apply (sum_axis0_length n c); [exact Hn|].
  apply sq_diff_shape; assumption.
Qed.

Lemma compare_joint_ok
    (df_planned df_executed df_clean : Pd.DataFrame)
    (joint_pos_names : list string) (n_points : nat) (vel_threshold : R) :
  trim_joint df_executed vel_threshold = Ok df_clean ->
  incl joint_pos_names (Pd.columns df_planned) ->
  incl joint_pos_names (Pd.columns df_executed) ->
  (2 <= List.length (Pd.values df_planned))%nat ->
  (2 <= List.length (Pd.values df_clean))%nat ->
  (1 <= n_points)%nat ->
  exists per_joint total,
    compare_joint_trajectories df_planned df_executed joint_pos_names
      n_points vel_threshold = Ok (per_joint, total) /\
    List.length per_joint = List.length joint_pos_names.
Proof.
  intros Ht Hp He H2p H2e Hn.
  destruct (trim_joint_block _ _ _ Ht) as (Hcols & _).
  destruct (getitem_ok df_planned joint_pos_names Hp) as (pp & Epp & Spp).
  destruct (getitem_ok df_clean joint_pos_names) as (ep & Eep & Sep);
    [rewrite Hcols; exact He|].
  destruct Spp as [Lpp Cpp]. destruct Sep as [Lep Cep].
  destruct (resample_index_shape pp n_points (List.length joint_pos_names))
    as (outp & Erp & Sp); [lia | exact Cpp|].
  destruct (resample_index_shape ep n_points (List.length joint_pos_names))
    as (oute & Ere & Se); [lia | exact Cep|].
  unfold compare_joint_trajectories.
  rewrite Ht. cbn [bind]. rewrite Epp. cbn [bind]. rewrite Erp. cbn [bind].
  rewrite Eep. cbn [bind]. rewrite Ere. cbn [bind].
  eexists. eexists. split; [reflexivity|].
  apply (rmse_length outp oute n_points); assumption.
Qed.

(** X11: the joint-space comparison succeeds, with one RMSE per joint
    name, when the executed recording can be trimmed, the joint names are
    columns of both recordings, and the planned and the trimmed executed
    recording have at least two samples each. *)
Theorem compare_joint_succeeds
    (df_planned df_executed df_clean : Pd.DataFrame)
    (joint_pos_names : list string) (n_points : nat) (vel_threshold : R) :
  trim_joint df_executed vel_threshold = Ok df_clean ->
  incl joint_pos_names (Pd.columns df_planned) ->
  incl joint_pos_names (Pd.columns df_executed) ->
  (2 <= List.length (Pd.values df_planned))%nat ->
  (2 <= List.length (Pd.values df_clean))%nat ->
  (1 <= n_points)%nat ->
  exists per_joint total,
    compare_joint_trajectories df_planned df_executed joint_pos_names
      n_points vel_threshold = Ok (per_joint, total) /\
    List.length per_joint = List.length joint_pos_names.
Proof. apply compare_joint_ok. Qed.

Lemma compare_joint_succeeds_witness :
  exists per_joint total,
    compare_joint_trajectories df_rest df_ramp ["joint_pos"%string] 5 1 =
      Ok (per_joint, total) /\
    List.length per_joint = 1%nat.
Proof.
  assert (H1 : trim_joint df_ramp 1 =
    Ok (Pd.mkDataFrame (Pd.columns df_ramp)
          (firstn 4 (skipn 3 (Pd.values df_ramp)))))
    by (unfold df_ramp; trim_eval; reflexivity).
  assert (H2 : incl ["joint_pos"%string] (Pd.columns df_rest))
    by (intros c [<-|[]]; simpl; auto).
  assert (H3 : incl ["joint_pos"%string] (Pd.columns df_ramp))
    by (intros c [<-|[]]; simpl; auto).
  assert (H4 : (2 <= List.length (Pd.values df_rest))%nat) by (simpl; lia).
  assert (H5 : (2 <= List.length
                  (Pd.values
                     (Pd.mkDataFrame (Pd.columns df_ramp)
                        (firstn 4 (skipn 3 (Pd.values df_ramp))))))%nat)
    by (simpl; lia).
  assert (H6 : (1 <= 5)%nat) by lia.
  exact (compare_joint_succeeds df_rest df_ramp _ ["joint_pos"%string] 5 1
           H1 H2 H3 H4 H5 H6).
Defined.

Lemma check_bounds_single (ys : list (list R)) n_points :
  (2 <= n_points)%nat ->
  Sp.check_bounds (Sp.mkInterp1d [0] ys) (Np.linspace 0 1 n_points) =
  Raise (ValueError "A value in x_new is above the interpolation range.").
Proof.
  intros Hn. unfold Sp.check_bounds. simpl Sp.x. simpl hd. simpl last.
  replace (existsb (fun v => Rltb v 0) (Np.linspace 0 1 n_points)) with false.
  - replace (existsb (fun v => Rltb 0 v) (Np.linspace 0 1 n_points)) with true;
      [reflexivity|].
    symmetry. apply existsb_exists. exists 1. split; [|apply Rltb_true; lra].
    assert (Hin : In (nth (n_points - 1) (Np.linspace 0 1 n_points) 0)
                    (Np.linspace 0 1 n_points))
      by (apply nth_In; rewrite linspace_unit_length; lia).
    rewrite linspace_unit_nth in Hin by lia.
    replace (INR (n_points - 1) / INR (n_points - 1)) with 1 in Hin
      by (field; apply not_0_INR; lia).
    exact Hin.
  - symmetry. apply not_true_is_false. intros H.
    apply existsb_exists in H. destruct H as (v & Hv & Hlt).
    apply Rltb_iff in Hlt.
    pose proof (linspace_unit_Forall_any n_points) as Hall.
    rewrite Forall_forall in Hall. specialize (Hall v Hv). lra.
Qed.

Lemma resample_single (row : list R) n_points :
  (2 <= n_points)%nat ->
  resample [0] [row] n_points =
  Raise (ValueError "A value in x_new is above the interpolation range.").
Proof.
  intros Hn. unfold resample.
  assert (Hm : Sp.make [0] [row] = Ok (Sp.mkInterp1d [0] [row]))
    by reflexivity.
  rewrite Hm. cbn [bind]. unfold Sp.call.
  rewrite check_bounds_single by exact Hn. reflexivity.
Qed.

(** X12: when the trimming leaves a single sample of the executed
    recording, and at least two points are asked for, the joint-space
    comparison fails with a [ValueError] of the interpolation: its only
    coordinate is 0, and the evaluation coordinates go up to 1. *)
Theorem compare_joint_single_sample
    (df_planned df_executed df_clean : Pd.DataFrame)
    (joint_pos_names : list string) (n_points : nat) (vel_threshold : R) :
  trim_joint df_executed vel_threshold = Ok df_clean ->
  List.length (Pd.values df_clean) = 1%nat ->
  incl joint_pos_names (Pd.columns df_planned) ->
  incl joint_pos_names (Pd.columns df_executed) ->
  (2 <= List.length (Pd.values df_planned))%nat ->
  (2 <= n_points)%nat ->
  exists msg,
    compare_joint_trajectories df_planned df_executed joint_pos_names
      n_points vel_threshold = Raise (ValueError msg).
Proof.
  intros Ht H1 Hp He H2p Hn.
  destruct (trim_joint_block _ _ _ Ht) as (Hcols & _).
  destruct (getitem_ok df_planned joint_pos_names Hp) as (pp & Epp & Spp).
  destruct (getitem_ok df_clean joint_pos_names) as (ep & Eep & Sep);
    [rewrite Hcols; exact He|].
  destruct Spp as [Lpp Cpp]. destruct Sep as [Lep _].
  unfold compare_joint_trajectories.
  rewrite Ht. cbn [bind]. rewrite Epp. cbn [bind].
  rewrite resample_index_ok by lia. cbn [bind]. rewrite Eep. cbn [bind].
  destruct ep as [|row [|row' ep]]; try (simpl in Lep; lia).
  change (Np.linspace 0 1 (List.length [row])) with [0].
  eexists. rewrite resample_single by exact Hn. reflexivity.
Qed.

Lemma compare_joint_single_sample_witness :
  exists msg,
    compare_joint_trajectories df_rest df_pulse ["joint_pos"%string] 5 0 =
      Raise (ValueError msg).
Proof.
  assert (H1 : trim_joint df_pulse 0 =
    Ok (Pd.mkDataFrame (Pd.columns df_pulse)
          (firstn 1 (skipn 2 (Pd.values df_pulse)))))
    by (unfold df_pulse; trim_eval; reflexivity).
  assert (H2 : List.length
                 (Pd.values
                    (Pd.mkDataFrame (Pd.columns df_pulse)
                       (firstn 1 (skipn 2 (Pd.values df_pulse))))) = 1%nat)
    by reflexivity.
  assert (H3 : incl ["joint_pos"%string] (Pd.columns df_rest))
    by (intros c [<-|[]]; simpl; auto).
  assert (H4 : incl ["joint_pos"%string] (Pd.columns df_pulse))
    by (intros c [<-|[]]; simpl; auto).
  assert (H5 : (2 <= List.length (Pd.values df_rest))%nat) by (simpl; lia).
  assert (H6 : (2 <= 5)%nat) by lia.
  exact (compare_joint_single_sample df_rest df_pulse _ ["joint_pos"%string]
           5 0 H1 H2 H3 H4 H5 H6).
Defined.

(** ** The interpolation at and outside the samples *)

Lemma sorted_lt_nth_le s i j :
  Sorted Rlt s -> (i < List.length s)%nat -> (j < List.length s)%nat ->
  nth i s 0 <= nth j s 0 -> (i <= j)%nat.
Proof.
  intros Hs Hi Hj Hle.
  destruct (Nat.le_gt_cases i j) as [H|H]; [exact H|].
  pose proof (sorted_lt_nth s j i Hs ltac:(lia)). lra.
Qed.

Lemma piecewise_linear_at_sample s (positions : list (list R)) c k v :
  Sorted Rlt s -> List.length positions = List.length s ->
  Forall (fun row => List.length row = c) positions ->
  (k < List.length s)%nat ->
  piecewise_linear s positions (nth k s 0) v -> v = nth k positions [].
Proof.
  intros Hs Hlen Hc Hk (i & Hi & [Hlo Hhi] & ->).
  pose proof (sorted_lt_nth_le s i k Hs ltac:(lia) Hk Hlo) as H1.
  pose proof (sorted_lt_nth_le s k (S i) Hs Hk Hi Hhi) as H2.
  pose proof (sorted_lt_nth s i (S i) Hs ltac:(lia)) as Hlt.
  assert (Hrows : List.length (nth i positions []) =
                  List.length (nth (S i) positions []))
    by (apply (rows_same_length positions c); [exact Hc | lia | lia]).
  destruct (Nat.eq_dec k i) as [->|Hne].
  - apply lerp_left. exact Hrows.
  - assert (k = S i) as -> by lia.
    apply lerp_right; [lra | exact Hrows].
Qed.

(** X13: resampling a trajectory of at least two samples on its normalized
    index to as many points as it has samples returns the samples. *)
Theorem resample_same_length (positions : list (list R)) (c : nat) :
  (2 <= List.length positions)%nat ->
  Forall (fun row => List.length row = c) positions ->
  resample (Np.linspace 0 1 (List.length positions)) positions
    (List.length positions) = Ok positions.
Proof.
  intros Hm Hc. rewrite resample_index_ok by exact Hm. f_equal.
  set (m := List.length positions) in *.
  set (s := Np.linspace 0 1 m).
  assert (Hs : Sorted Rlt s) by (apply linspace_unit_sorted; exact Hm).
  assert (Hls : List.length s = m) by apply linspace_unit_length.
  apply (nth_ext _ _ [] []).
  - rewrite length_map. exact Hls.
  - intros k Hk. rewrite length_map, Hls in Hk.
    rewrite (nth_map_in _ _ _ 0) by (rewrite Hls; exact Hk).
    symmetry. symmetry.
    apply (piecewise_linear_at_sample s positions c k);
      [exact Hs | rewrite Hls; reflexivity | exact Hc | rewrite Hls; exact Hk|].
    apply call_linear_piecewise; [exact Hs | rewrite Hls; exact Hm|].
    rewrite last_nth, Hls. split.
    + destruct (Nat.eq_dec k 0) as [->|Hne]; [lra|].
      left. apply sorted_lt_nth; [exact Hs | rewrite Hls; lia].
    + destruct (Nat.eq_dec k (m - 1)) as [->|Hne]; [lra|].
      left. apply sorted_lt_nth; [exact Hs | rewrite Hls; lia].
Qed.

Lemma resample_same_length_witness :
  resample (Np.linspace 0 1 (List.length p_unique)) p_unique
    (List.length p_unique) = Ok p_unique.
Proof.
  assert (H1 : (2 <= List.length p_unique)%nat) by (simpl; lia).
  assert (H2 : Forall (fun row : list R => List.length row = 3%nat) p_unique)
    by (repeat constructor).
  exact (resample_same_length p_unique 3 H1 H2).
Defined.

(** X14: the interpolation does not extrapolate.  For strictly increasing
    coordinates that start above 0 or end below 1, the resampling to two
    points or more fails with a [ValueError]. *)
Theorem resample_out_of_range
    (s : list R) (positions : list (list R)) (n_points : nat) :
  Sorted Rlt s -> (1 <= List.length s)%nat ->
  List.length positions = List.length s ->
  (2 <= n_points)%nat ->
  0 < hd 0 s \/ last s 0 < 1 ->
  exists msg, resample s positions n_points = Raise (ValueError msg).
Proof.
  intros Hs Hlen Hpos Hn Hout. unfold resample.
  rewrite make_sorted by assumption. cbn [bind]. unfold Sp.call.
  unfold Sp.check_bounds. simpl Sp.x.
  assert (H0 : In 0 (Np.linspace 0 1 n_points)).
  { assert (Hin : In (nth 0 (Np.linspace 0 1 n_points) 0)
                    (Np.linspace 0 1 n_points))
      by (apply nth_In; rewrite linspace_unit_length; lia).
    rewrite linspace_unit_nth in Hin by lia.
    replace (INR 0 / INR (n_points - 1)) with 0 in Hin
      by (simpl; unfold Rdiv; ring).
    exact Hin. }
  assert (H1 : In 1 (Np.linspace 0 1 n_points)).
  { assert (Hin : In (nth (n_points - 1) (Np.linspace 0 1 n_points) 0)
                    (Np.linspace 0 1 n_points))
      by (apply nth_In; rewrite linspace_unit_length; lia).
    rewrite linspace_unit_nth in Hin by lia.
    replace (INR (n_points - 1) / INR (n_points - 1)) with 1 in Hin
      by (field; apply not_0_INR; lia).
    exact Hin. }
  destruct (existsb (fun v => Rltb v (hd 0 s)) (Np.linspace 0 1 n_points))
    eqn:Eb; [eexists; reflexivity|].
  destruct Hout as [Hlo|Hhi].
  - exfalso. apply not_true_iff_false in Eb. apply Eb.
    apply existsb_exists. exists 0. split; [exact H0 | apply Rltb_true; lra].
  - replace (existsb (fun v => Rltb (last s 0) v) (Np.linspace 0 1 n_points))
      with true; [eexists; reflexivity|].
    symmetry. apply existsb_exists. exists 1.
    split; [exact H1 | apply Rltb_true; lra].
Qed.

Lemma resample_out_of_range_witness :
  exists msg, resample s_late p_pair 3 = Raise (ValueError msg).
Proof.
  assert (H1 : Sorted Rlt s_late) by (unfold s_late; repeat constructor; lra).
  assert (H2 : (1 <= List.length s_late)%nat) by (simpl; lia).
  assert (H3 : List.length p_pair = List.length s_late) by reflexivity.
  assert (H4 : (2 <= 3)%nat) by lia.
  assert (H5 : 0 < hd 0 s_late \/ last s_late 0 < 1) by (left; simpl; lra).
  exact (resample_out_of_range s_late p_pair 3 H1 H2 H3 H4 H5).
Defined.

(** ** Relations between the metrics *)

Lemma rmse_3d_entries p e n c :
  shape n c p -> shape n c e ->
  rmse_3d p e =
  sqrt (sum_upto n (fun i => sum_upto c (fun j => sq_err p e i j)) / INR n).
Proof.
  intros Hp He.
  pose proof (sq_diff_shape p e n c Hp He) as HD.
  unfold rmse_3d, Np.mean, Np.sum_axis1. rewrite length_map.
  replace (List.length (Np.square (Np.sub p e))) with n
    by (symmetry; apply HD).
  rewrite (sq_diff_total p e n c) by assumption. reflexivity.
Qed.

Lemma sq_total_nonneg p e n c :
  0 <= sum_upto n (fun i => sum_upto c (fun j => sq_err p e i j)).
Proof.
  apply sum_upto_nonneg. intros i _. apply sum_upto_nonneg. intros j _.
  apply Rle_0_sqr.
Qed.

(** X15: on trajectories of points in space the 3-D RMSE is the total RMSE
    of the joint-space comparison times the square root of 3. *)
Theorem rmse_3d_is_sqrt3_total (planned executed : list (list R)) (n : nat) :
  (1 <= n)%nat -> shape n 3 planned -> shape n 3 executed ->
  rmse_3d planned executed = sqrt 3 * total_rmse planned executed.
Proof.
  intros Hn Hp He.
  rewrite (rmse_3d_entries planned executed n 3) by assumption.
  rewrite (total_rmse_entries planned executed n 3) by assumption.
  pose proof (sq_total_nonneg planned executed n 3) as HS.
  set (S := sum_upto n
              (fun i => sum_upto 3 (fun j => sq_err planned executed i j)))
    in *.
  assert (HN : 0 < INR n) by (apply lt_0_INR; lia).
  rewrite <- sqrt_mult; [|lra|].
  - f_equal. rewrite mult_INR. simpl INR. field. lra.
  - rewrite mult_INR. simpl INR. apply Rmult_le_pos; [exact HS|].
    left. apply Rinv_0_lt_compat. lra.
Qed.

Lemma rmse_3d_is_sqrt3_total_witness :
  rmse_3d planned_two executed_two =
  sqrt 3 * total_rmse planned_two executed_two.
Proof.
  assert (H1 : (1 <= 2)%nat) by lia.
  assert (H2 : shape 2 3 planned_two) by (split; repeat constructor).
  assert (H3 : shape 2 3 executed_two) by (split; repeat constructor).
  exact (rmse_3d_is_sqrt3_total _ _ 2 H1 H2 H3).
Defined.

Lemma sum_upto_zero n f :
  (forall i, (i < n)%nat -> 0 <= f i) -> sum_upto n f = 0 ->
  forall i, (i < n)%nat -> f i = 0.
Proof.
  intros Hf Hz i Hi. pose proof (Hf i Hi) as H0.
  destruct (Req_dec_T (f i) 0) as [E|E]; [exact E|].
  pose proof (sum_upto_pos n f i Hf Hi ltac:(lra)). lra.
Qed.

Lemma sum_upto_all_zero n f :
  (forall i, (i < n)%nat -> f i = 0) -> sum_upto n f = 0.
Proof.
  induction n as [|n IH]; intros H; [reflexivity|].
  rewrite sum_upto_S, IH, (H n) by (intros; try apply H; lia). lra.
Qed.

Lemma array_ext (p e : list (list R)) n c :
  shape n c p -> shape n c e ->
  (forall i j, (i < n)%nat -> (j < c)%nat ->
     nth j (nth i p []) 0 = nth j (nth i e []) 0) ->
  p = e.
Proof.
  intros Hp He H.
  apply (nth_ext _ _ [] []); [destruct Hp, He; congruence|].
  intros i Hi. replace (List.length p) with n in Hi by (symmetry; apply Hp).
  pose proof (shape_row n c p i Hp Hi) as Lp.
  pose proof (shape_row n c e i He Hi) as Le.
  apply (nth_ext _ _ 0 0); [congruence|].
  intros j Hj. apply H; [exact Hi | lia].
Qed.

(** X16: equal trajectories have every RMSE zero, and a total RMSE of zero
    is reached by equal trajectories only. *)
Theorem rmse_zero_iff_equal (planned executed : list (list R)) (n c : nat) :
  (1 <= n)%nat -> (1 <= c)%nat ->
  shape n c planned -> shape n c executed ->
  (total_rmse planned executed = 0 <-> planned = executed) /\
  (planned = executed ->
   Forall (fun r => r = 0) (rmse planned executed) /\
   rmse_3d planned executed = 0).
Proof.
  intros Hn Hc Hp He.
  pose proof (sq_total_nonneg planned executed n c) as HS.
  assert (HN : 0 < INR (n * c)).
  { apply lt_0_INR. destruct n, c; simpl; lia. }
  assert (Hsame : planned = executed ->
    forall i j, sq_err planned executed i j = 0).
  { intros -> i j. unfold sq_err. rewrite Rminus_diag. apply Rsqr_0. }
  split; [split|].
  - intros Hz.
    rewrite (total_rmse_entries planned executed n c) in Hz by assumption.
    apply sqrt_eq_0 in Hz;
      [|apply Rmult_le_pos; [exact HS | left; apply Rinv_0_lt_compat; exact HN]].
    assert (HS0 : sum_upto n
              (fun i => sum_upto c (fun j => sq_err planned executed i j)) = 0).
    { unfold Rdiv in Hz. apply Rmult_integral in Hz.
      destruct Hz as [Hz|Hz]; [exact Hz|].
      pose proof (Rinv_0_lt_compat _ HN). lra. }
    apply (array_ext planned executed n c Hp He). intros i j Hi Hj.
    pose proof (sum_upto_zero n _
      ltac:(intros k _; apply sum_upto_nonneg; intros l _; apply Rle_0_sqr)
      HS0 i Hi) as Hrow.
    simpl in Hrow.
    pose proof (sum_upto_zero c _
      ltac:(intros l _; apply Rle_0_sqr) Hrow j Hj) as Hij.
    simpl in Hij. unfold sq_err in Hij. apply Rsqr_0_uniq in Hij. lra.
  - intros Heq.
    rewrite (total_rmse_entries planned executed n c) by assumption.
    rewrite sum_upto_all_zero.
    + unfold Rdiv. rewrite Rmult_0_l. apply sqrt_0.
    + intros i _. apply sum_upto_all_zero. intros j _. apply Hsame, Heq.
  - intros Heq. split.
    + apply Forall_forall. intros r Hr.
      apply (In_nth _ _ 0) in Hr. destruct Hr as (j & Hj & <-).
      rewrite (rmse_length planned executed n c) in Hj by assumption.
      unfold rmse, Np.mean_axis0.
      pose proof (sq_diff_shape planned executed n c Hp He) as HD.
      pose proof (sum_axis0_length n c _ Hn HD) as HL.
      rewrite (nth_map_in _ _ _ 0) by (rewrite length_map; lia).
      rewrite (nth_map_in _ _ _ 0) by lia.
      rewrite (sum_axis0_nth n c) by assumption.
      rewrite sum_upto_all_zero.
      * unfold Rdiv. rewrite Rmult_0_l. apply sqrt_0.
      * intros i Hi.
        rewrite (sq_diff_nth planned executed n c) by assumption.
        apply Hsame, Heq.
    + rewrite (rmse_3d_entries planned executed n c) by assumption.
      rewrite sum_upto_all_zero.
      * unfold Rdiv. rewrite Rmult_0_l. apply sqrt_0.
      * intros i _. apply sum_upto_all_zero. intros j _. apply Hsame, Heq.
Qed.

Lemma rmse_zero_iff_equal_witness :
  total_rmse planned_two planned_two = 0.
Proof.
  assert (H1 : (1 <= 2)%nat) by lia.
  assert (H2 : (1 <= 3)%nat) by lia.
  assert (H3 : shape 2 3 planned_two) by (split; repeat constructor).
  exact (proj2 (proj1 (rmse_zero_iff_equal _ _ 2 3 H1 H2 H3 H3)) eq_refl).
Defined.

Lemma sq_sub_row_sym a b :
  map Rsqr (Np.sub_row a b) = map Rsqr (Np.sub_row b a).
Proof.
  unfold Np.sub_row. revert b.
  induction a as [|x a IH]; intros [|y b]; try reflexivity.
  simpl. f_equal; [apply Rsqr_neg_minus | apply IH].
Qed.

Lemma sq_diff_sym p e :
  Np.square (Np.sub p e) = Np.square (Np.sub e p).
Proof.
  unfold Np.square, Np.sub. revert e.
  induction p as [|a p IH]; intros [|b e]; try reflexivity.
  simpl. f_equal; [apply sq_sub_row_sym | apply IH].
Qed.

(** X17: the three metrics do not depend on which trajectory is the planned
    one and which the executed one: swapping them changes nothing, whatever
    the shapes. *)
Theorem rmse_symmetric (planned executed : list (list R)) :
  rmse planned executed = rmse executed planned /\
  total_rmse planned executed = total_rmse executed planned /\
  rmse_3d planned executed = rmse_3d executed planned.
Proof.
  unfold rmse, total_rmse, rmse_3d.
  rewrite (sq_diff_sym planned executed). repeat split.
Qed.

Lemma sum_upto_plus n f g :
  sum_upto n (fun i => f i + g i) = sum_upto n f + sum_upto n g.
Proof.
  induction n as [|n IH]; [unfold sum_upto; simpl; lra|].
  rewrite !sum_upto_S, IH. lra.
Qed.

Lemma sum_upto_div n f k :
  sum_upto n (fun i => f i / k) = sum_upto n f / k.
Proof.
  induction n as [|n IH]; [unfold sum_upto, Rdiv; simpl; lra|].
  rewrite !sum_upto_S, IH. unfold Rdiv. lra.
Qed.

Lemma sum_upto_swap n c (f : nat -> nat -> R) :
  sum_upto n (fun i => sum_upto c (fun j => f i j)) =
  sum_upto c (fun j => sum_upto n (fun i => f i j)).
Proof.
  induction n as [|n IH].
  - symmetry. apply sum_upto_all_zero. intros j _. reflexivity.
  - rewrite sum_upto_S, IH, <- sum_upto_plus.
    apply sum_upto_ext. intros j _. rewrite sum_upto_S. reflexivity.
Qed.

Lemma rmse_nth p e n c j :
  (1 <= n)%nat -> shape n c p -> shape n c e -> (j < c)%nat ->
  nth j (rmse p e) 0 = sqrt (sum_upto n (fun i => sq_err p e i j) / INR n).
Proof.
  intros Hn Hp He Hj.
  pose proof (sq_diff_shape p e n c Hp He) as HD.
  pose proof (sum_axis0_length n c _ Hn HD) as HL.
  unfold rmse, Np.mean_axis0.
  rewrite (nth_map_in _ _ _ 0) by (rewrite length_map; lia).
  rewrite (nth_map_in _ _ _ 0) by lia.
  rewrite (sum_axis0_nth n c) by assumption.
  replace (List.length (Np.square (Np.sub p e))) with n
    by (symmetry; apply HD).
  f_equal. f_equal. apply sum_upto_ext. intros i Hi.
  apply (sq_diff_nth p e n c); assumption.
Qed.

(** X18: the total RMSE is the quadratic mean of the per-joint RMSEs: its
    square is the mean of their squares. *)
Theorem total_rmse_quadratic_mean
    (planned executed : list (list R)) (n c : nat) :
  (1 <= n)%nat -> (1 <= c)%nat ->
  shape n c planned -> shape n c executed ->
  total_rmse planned executed =
  sqrt (Np.mean (map Rsqr (rmse planned executed))).
Proof.
  intros Hn Hc Hp He.
  rewrite (total_rmse_entries planned executed n c) by assumption.
  f_equal. unfold Np.mean. rewrite length_map.
  rewrite <- (sum_upto_nth Rsqr (rmse planned executed) 0).
  rewrite (rmse_length planned executed n c) by assumption.
  assert (HN : INR n <> 0) by (apply not_0_INR; lia).
  assert (HC : INR c <> 0) by (apply not_0_INR; lia).
  rewrite (sum_upto_ext c _
             (fun j => sum_upto n (fun i => sq_err planned executed i j)
                       / INR n)).
  - rewrite sum_upto_div, <- sum_upto_swap, mult_INR. field. auto.
  - intros j Hj. rewrite (rmse_nth planned executed n c) by assumption.
    apply Rsqr_sqrt. apply Rmult_le_pos.
    + apply sum_upto_nonneg. intros i _. apply Rle_0_sqr.
    + left. apply Rinv_0_lt_compat. apply lt_0_INR. lia.
Qed.

Lemma total_rmse_quadratic_mean_witness :
  total_rmse planned_two executed_two =
  sqrt (Np.mean (map Rsqr (rmse planned_two executed_two))).
Proof.
  assert (H1 : (1 <= 2)%nat) by lia.
  assert (H2 : (1 <= 3)%nat) by lia.
  assert (H3 : shape 2 3 planned_two) by (split; repeat constructor).
  assert (H4 : shape 2 3 executed_two) by (split; repeat constructor).
  exact (total_rmse_quadratic_mean _ _ 2 3 H1 H2 H3 H4).
Defined.

(** ** The parametrization of a moved or scaled path *)

Lemma sub_row_translate p q t :
  List.length p = List.length t -> List.length q = List.length t ->
  Np.sub_row (Np.add_row q t) (Np.add_row p t) = Np.sub_row q p.
Proof.
  unfold Np.sub_row, Np.add_row. revert q t.
  induction p as [|a p IH]; intros [|b q] [|c t] Hp Hq;
    try reflexivity; try discriminate.
  simpl. f_equal; [ring|]. apply IH; simpl in *; lia.
Qed.

Lemma diff_translate t positions c :
  Forall (fun row => List.length row = c) positions -> List.length t = c ->
  Np.diff (translate t positions) = Np.diff positions.
Proof.
  intros H Ht. induction H as [|p ps Hp Hps IH]; [reflexivity|].
  destruct Hps as [|q ps Hq Hps]; [reflexivity|].
  change (translate t (p :: q :: ps))
    with (Np.add_row p t :: Np.add_row q t :: translate t ps).
  rewrite !diff_cons. f_equal.
  - apply sub_row_translate; congruence.
  - exact IH.
Qed.

(** X19: the parametrization does not depend on where the origin is: moving
    every point of a path by the same vector changes neither the
    coordinates nor the failure. *)
Theorem arc_length_translation
    (t : list R) (positions : list (list R)) (c : nat) :
  Forall (fun row => List.length row = c) positions -> List.length t = c ->
  compute_arc_length_parametrization (translate t positions) =
  compute_arc_length_parametrization positions.
Proof.
  intros H Ht. unfold compute_arc_length_parametrization.
  rewrite (diff_translate t positions c) by assumption.
  unfold translate. rewrite length_map. reflexivity.
Qed.

Lemma arc_length_translation_witness :
  compute_arc_length_parametrization (translate [1; 1; 1] two_legs) =
  compute_arc_length_parametrization two_legs.
Proof.
  assert (H1 : Forall (fun row : list R => List.length row = 3%nat) two_legs)
    by (repeat constructor).
  assert (H2 : List.length [1; 1; 1] = 3%nat) by reflexivity.
  exact (arc_length_translation [1; 1; 1] two_legs 3 H1 H2).
Defined.

Lemma sub_row_scale k p q :
  Np.sub_row (map (Rmult k) q) (map (Rmult k) p) =
  map (Rmult k) (Np.sub_row q p).
Proof.
  unfold Np.sub_row. revert p.
  induction q as [|b q IH]; intros [|a p]; try reflexivity.
  simpl. f_equal; [ring | apply IH].
Qed.

Lemma diff_scale k positions :
  Np.diff (scale k positions) = map (map (Rmult k)) (Np.diff positions).
Proof.
  induction positions as [|p ps IH]; [reflexivity|].
  destruct ps as [|q ps]; [reflexivity|].
  change (scale k (p :: q :: ps))
    with (map (Rmult k) p :: map (Rmult k) q :: scale k ps).
  rewrite !diff_cons. simpl map. f_equal; [apply sub_row_scale | exact IH].
Qed.

Lemma sum_scale a l : Np.sum (map (Rmult a) l) = a * Np.sum l.
Proof.
  unfold Np.sum. induction l as [|v l IH]; simpl; [ring|].
  rewrite IH. ring.
Qed.

Lemma sum_squares_scale k row :
  Np.sum (map Rsqr (map (Rmult k) row)) = Rsqr k * Np.sum (map Rsqr row).
Proof.
  unfold Np.sum. induction row as [|v row IH]; simpl; [ring|].
  rewrite IH, Rsqr_mult. ring.
Qed.

Lemma norm_scale k a :
  Np.norm_axis1 (map (map (Rmult k)) a) =
  map (Rmult (Rabs k)) (Np.norm_axis1 a).
Proof.
  unfold Np.norm_axis1. rewrite !map_map. apply map_ext. intros row.
  rewrite sum_squares_scale, sqrt_mult;
    [|apply Rle_0_sqr | apply sum_squares_nonneg].
  rewrite sqrt_Rsqr_abs. reflexivity.
Qed.

Lemma cumsum_from_scale a acc l :
  Np.cumsum_from (a * acc) (map (Rmult a) l) =
  map (Rmult a) (Np.cumsum_from acc l).
Proof.
  revert acc. induction l as [|v l IH]; intros acc; [reflexivity|].
  simpl. rewrite <- Rmult_plus_distr_l, IH. reflexivity.
Qed.

Lemma cumsum_scale a l :
  Np.cumsum (map (Rmult a) l) = map (Rmult a) (Np.cumsum l).
Proof.
  unfold Np.cumsum. rewrite <- cumsum_from_scale, Rmult_0_r. reflexivity.
Qed.

Lemma path_length_scale k positions :
  path_length (scale k positions) = Rabs k * path_length positions.
Proof.
  rewrite <- !dists_path_length, diff_scale, norm_scale. apply sum_scale.
Qed.

(** X20: the parametrization does not depend on the unit of length:
    scaling every point of a path by a factor other than zero changes
    neither the coordinates nor the failure. *)
Theorem arc_length_scaling (k : R) (positions : list (list R)) :
  k <> 0 ->
  compute_arc_length_parametrization (scale k positions) =
  compute_arc_length_parametrization positions.
Proof.
  intros Hk.
  assert (Ha : Rabs k <> 0) by (apply Rabs_no_R0; exact Hk).
  assert (Hlen : List.length (scale k positions) = List.length positions)
    by (unfold scale; apply length_map).
  destruct (Nat.lt_ge_cases (List.length positions) 2) as [H2|H2].
  { rewrite !arc_length_too_short by lia. reflexivity. }
  destruct (Req_dec_T (path_length positions) 0) as [Hz|Hnz].
  { rewrite !arc_length_zero; try lia; try assumption; [reflexivity|].
    rewrite path_length_scale, Hz. ring. }
  assert (Hnz' : path_length (scale k positions) <> 0).
  { rewrite path_length_scale. apply Rmult_integral_contrapositive. auto. }
  rewrite !arc_length_ok by (assumption || lia).
  rewrite !arc_divisor_path_length, path_length_scale.
  rewrite diff_scale, norm_scale, cumsum_scale. f_equal.
  simpl map. f_equal; [unfold Rdiv; ring|].
  rewrite map_map. apply map_ext. intros a. field. auto.
Qed.

Lemma arc_length_scaling_witness :
  1000 <> 0 /\
  compute_arc_length_parametrization (scale 1000 two_legs) =
  compute_arc_length_parametrization two_legs.
Proof.
  assert (H : 1000 <> 0) by lra.
  split; [exact H|]. exact (arc_length_scaling 1000 two_legs H).
Defined.

(** ** The duplicate-point filter on coordinates in any order *)

Lemma insert_In p q l : In q (Np.insert p l) <-> q = p \/ In q l.
Proof.
  induction l as [|r l IH]; simpl.
  - split; intros [H|H]; auto.
  - destruct (Rleb (snd p) (snd r)); simpl; [|rewrite IH]; split;
      intros H; intuition auto.
Qed.

Lemma insert_sorted p l :
  Sorted (fun a b => snd a <= snd b) l ->
  Sorted (fun a b : nat * R => snd a <= snd b) (Np.insert p l).
Proof.
  induction 1 as [|r l Hl IH Hhd]; simpl.
  - repeat constructor.
  - destruct (Rle_dec (snd p) (snd r)) as [Hle|Hgt].
    + rewrite Rleb_true by exact Hle.
      constructor; [constructor; assumption | constructor; exact Hle].
    + rewrite Rleb_false by lra. constructor; [exact IH|].
      destruct Hhd as [|r' l' Hrr']; simpl.
      * constructor. lra.
      * destruct (Rleb (snd p) (snd r')); constructor; lra.
Qed.

Lemma fold_insert_sorted_any l :
  Sorted (fun a b : nat * R => snd a <= snd b) (fold_right Np.insert [] l).
Proof.
  induction l as [|p l IH]; simpl; [constructor | apply insert_sorted, IH].
Qed.

Lemma fold_insert_In q l : In q (fold_right Np.insert [] l) <-> In q l.
Proof.
  induction l as [|p l IH]; simpl; [tauto|].
  rewrite insert_In, IH. intuition auto.
Qed.

Lemma in_combine_seq {A : Type} k (a : list A) i v :
  In (i, v) (combine (seq k (List.length a)) a) <->
  (k <= i)%nat /\ nth_error a (i - k) = Some v.
Proof.
  revert k. induction a as [|x a IH]; intros k; simpl.
  - split; [tauto|]. intros [_ H]. destruct (i - k)%nat; discriminate.
  - rewrite IH. split.
    + intros [H|[H1 H2]].
      * injection H as -> ->. rewrite Nat.sub_diag. split; [lia | reflexivity].
      * split; [lia|]. replace (i - k)%nat with (S (i - S k)) by lia.
        exact H2.
    + intros [H1 H2]. destruct (Nat.eq_dec i k) as [->|Hne].
      * rewrite Nat.sub_diag in H2. simpl in H2. left. congruence.
      * right. split; [lia|].
        replace (i - k)%nat with (S (i - S k)) in H2 by lia. exact H2.
Qed.

Lemma sorted_map_snd (l : list (nat * R)) :
  Sorted (fun a b => snd a <= snd b) l -> Sorted Rle (map snd l).
Proof.
  induction 1 as [|p l Hl IH Hhd]; simpl; constructor; [exact IH|].
  destruct Hhd; simpl; constructor. assumption.
Qed.

Lemma compress_map {A B : Type} (f : A -> B) mask (l : list A) :
  Np.compress mask (map f l) = map f (Np.compress mask l).
Proof.
  revert mask. induction l as [|x l IH]; intros mask.
  - simpl. rewrite !compress_nil_r. reflexivity.
  - destruct mask as [|b mask]; [reflexivity|].
    simpl map. rewrite !compress_cons, IH. destruct b; reflexivity.
Qed.

Lemma compress_In {A : Type} mask (l : list A) x :
  In x (Np.compress mask l) -> In x l.
Proof.
  revert mask. induction l as [|y l IH]; intros mask.
  - rewrite compress_nil_r. tauto.
  - destruct mask as [|b mask]; [simpl; tauto|].
    rewrite compress_cons. destruct b; simpl; intros H.
    + destruct H as [H|H]; [auto | right; eapply IH; exact H].
    + right. eapply IH. exact H.
Qed.

Lemma take_pairs {A : Type} (a : list A) (l : list (nat * A)) :
  Forall (fun p => nth_error a (fst p) = Some (snd p)) l ->
  Np.take a (map fst l) = Ok (map snd l).
Proof.
  induction 1 as [|p l Hp _ IH]; [reflexivity|].
  simpl. rewrite Hp, IH. reflexivity.
Qed.

Lemma take_valid {A : Type} (a : list A) idx :
  Forall (fun i => (i < List.length a)%nat) idx ->
  exists r, Np.take a idx = Ok r /\ List.length r = List.length idx.
Proof.
  induction 1 as [|i idx Hi _ (r & Hr & Hl)]; [exists []; auto|].
  simpl. destruct (nth_error a i) as [v|] eqn:E.
  - rewrite Hr. simpl. exists (v :: r). simpl. auto.
  - apply nth_error_None in E. lia.
Qed.

(** The sorted pairs of [np.argsort]: each index with its coordinate. *)
Lemma argsort_pairs s :
  exists l : list (nat * R),
    Np.argsort s = map fst l /\
    map (fun i => nth i s 0) (Np.argsort s) = map snd l /\
    Sorted Rle (map snd l) /\
    Forall (fun p => nth_error s (fst p) = Some (snd p)) l /\
    (forall c, In c s -> In c (map snd l)).
Proof.
  exists (fold_right Np.insert [] (combine (seq 0 (List.length s)) s)).
  assert (Hin : Forall (fun p => nth_error s (fst p) = Some (snd p))
                  (fold_right Np.insert []
                     (combine (seq 0 (List.length s)) s))).
  { apply Forall_forall. intros [i v] H.
    apply fold_insert_In, in_combine_seq in H. destruct H as [_ H].
    rewrite Nat.sub_0_r in H. exact H. }
  split; [reflexivity|]. split; [|split; [|split]].
  - unfold Np.argsort. rewrite map_map. apply map_ext_in.
    intros p Hp. rewrite Forall_forall in Hin. specialize (Hin p Hp).
    apply nth_error_nth. exact Hin.
  - apply sorted_map_snd, fold_insert_sorted_any.
  - exact Hin.
  - intros c Hc. apply (In_nth_error s c) in Hc. destruct Hc as [i Hi].
    apply in_map_iff. exists (i, c). split; [reflexivity|].
    apply fold_insert_In, in_combine_seq. rewrite Nat.sub_0_r.
    split; [lia | exact Hi].
Qed.

(** X21: in whatever order the coordinates come, the filter returns them
    sorted and strictly increasing, each coordinate of the input exactly
    once, with as many values. *)
Theorem dedupe_sorts (s : list R) (positions : list (list R)) :
  List.length positions = List.length s ->
  exists s' positions',
    remove_duplicate_points s positions = Ok (s', positions') /\
    Sorted Rlt s' /\
    (forall c, In c s' <-> In c s) /\
    List.length positions' = List.length s'.
Proof.
  intros Hlen.
  destruct (argsort_pairs s) as (l & Hperm & Haux & Hsorted & Hnth & Hcover).
  unfold remove_duplicate_points, Np.unique_index.
  rewrite Haux. fold (first_mask (map snd l)).
  cbn [snd]. rewrite Hperm, compress_map.
  set (kept := Np.compress (first_mask (map snd l)) l).
  assert (Hkept : Forall (fun p => nth_error s (fst p) = Some (snd p)) kept).
  { apply Forall_forall. intros p Hp. rewrite Forall_forall in Hnth.
    apply Hnth. eapply compress_In. exact Hp. }
  rewrite (take_pairs s kept Hkept). cbn [bind].
  destruct (take_valid positions (map fst kept)) as (r & Hr & Hl).
  { apply Forall_forall. intros i Hi. apply in_map_iff in Hi.
    destruct Hi as (p & <- & Hp). rewrite Forall_forall in Hkept.
    specialize (Hkept p Hp). rewrite Hlen.
    apply nth_error_Some. congruence. }
  rewrite Hr. cbn [bind]. exists (map snd kept), r.
  split; [reflexivity|].
  assert (Ekept : map snd kept =
                  Np.compress (first_mask (map snd l)) (map snd l))
    by (unfold kept; symmetry; apply compress_map).
  split; [|split].
  - rewrite Ekept. destruct (map snd l) as [|x aux]; [constructor|].
    simpl first_mask. rewrite compress_cons.
    apply compress_neq_prev_sorted. exact Hsorted.
  - intros c. rewrite Ekept. split.
    + intros H. apply compress_In in H. apply in_map_iff in H.
      destruct H as (p & <- & Hp). rewrite Forall_forall in Hnth.
      apply (nth_error_In s (fst p)). apply Hnth. exact Hp.
    + intros H. apply Hcover in H.
      destruct (map snd l) as [|x aux] eqn:E; [inversion H|].
      destruct (compress_combine (first_mask (x :: aux)) (x :: aux) (x :: aux)
                  eq_refl) as [E1 _].
      rewrite E1. simpl first_mask. simpl combine. rewrite compress_cons.
      simpl map.
      rewrite (neq_prev_first_occurrences x [x] aux aux);
        [| left; reflexivity | constructor; [lra | constructor]
         | exact Hsorted].
      destruct H as [H|H]; [left; exact H|].
      destruct (Req_dec_T x c) as [Hx|Hx]; [left; exact Hx|].
      right. apply first_occurrences_In. split.
      * rewrite map_fst_combine_same by reflexivity. exact H.
      * simpl. intros [Hc|[]]. auto.
  - rewrite Hl, !length_map. reflexivity.
Qed.

Lemma dedupe_sorts_witness :
  exists s' positions',
    remove_duplicate_points s_repeat p_line = Ok (s', positions') /\
    Sorted Rlt s'.
Proof.
  assert (H : List.length p_line = List.length s_repeat) by reflexivity.
  destruct (dedupe_sorts s_repeat p_line H) as (s' & p' & H1 & H2 & _).
  exists s', p'. auto.
Defined.

(** ** Trimming with two thresholds *)

Lemma trim_joint_of_decomposition df thr pre seg post r1 r2 :
  Pd.values df = pre ++ seg ++ post ->
  Forall (fun r => movingb df thr r = false) pre ->
  Forall (fun r => movingb df thr r = false) post ->
  hd_error seg = Some r1 -> movingb df thr r1 = true ->
  hd_error (rev seg) = Some r2 -> movingb df thr r2 = true ->
  trim_joint df thr = Ok (Pd.mkDataFrame (Pd.columns df) seg).
Proof.
  intros E Hpre Hpost Hh Hr1 Hl Hr2.
  destruct seg as [|a seg0] eqn:Eseg; [discriminate|].
  injection Hh as ->.
  destruct (rev (r1 :: seg0)) as [|b t] eqn:Erev; [discriminate|].
  injection Hl as ->.
  assert (Efront : r1 :: seg0 = rev t ++ [r2]).
  { rewrite <- (rev_involutive (r1 :: seg0)), Erev. reflexivity. }
  assert (Hs : Pd.idxmax (Pd.series (map (movingb df thr) (Pd.values df))) =
               Ok (List.length pre)).
  { rewrite E. simpl app. apply idxmax_first; assumption. }
  assert (He : Pd.idxmax
                 (rev (Pd.series (map (movingb df thr) (Pd.values df)))) =
               Ok (List.length pre + List.length (r1 :: seg0) - 1)%nat).
  { rewrite E, Efront, <- app_assoc, app_assoc. simpl app.
    rewrite idxmax_last by assumption.
    rewrite !length_app. simpl. f_equal. lia. }
  rewrite trim_joint_bounds, Hs, He. simpl bind. f_equal.
  apply (loc_segment df pre (r1 :: seg0) post E). discriminate.
Qed.

Lemma front_nested {A : Type} (f : A -> bool) pre1 rest1 pre2 r rest2 :
  pre1 ++ rest1 = pre2 ++ r :: rest2 ->
  Forall (fun x => f x = false) pre1 -> f r = true ->
  exists a, pre2 = pre1 ++ a /\ rest1 = a ++ r :: rest2.
Proof.
  intros E Hpre Hr. apply app_eq_app in E.
  destruct E as [l [[-> E]|[-> E]]].
  - destruct l as [|x l].
    + exists []. rewrite !app_nil_r. simpl in E. auto.
    + exfalso. simpl in E. injection E as <- _.
      apply Forall_app in Hpre. destruct Hpre as [_ Hp].
      inversion Hp; subst. congruence.
  - exists l. auto.
Qed.

Lemma exceeds_le thr1 thr2 vels :
  thr1 <= thr2 -> exceeds thr2 vels -> exceeds thr1 vels.
Proof.
  intros Hle H. unfold exceeds in *.
  eapply Exists_impl; [|exact H]. simpl. intros v Hv. lra.
Qed.

Lemma trim_nested df thr1 thr2 df1 :
  thr1 <= thr2 ->
  Exists (fun row => exceeds thr2 (sample_vels df row)) (Pd.values df) ->
  trim_joint df thr1 = Ok df1 ->
  exists seg2 a b,
    trim_joint df thr2 = Ok (Pd.mkDataFrame (Pd.columns df) seg2) /\
    trim_joint df1 thr2 = Ok (Pd.mkDataFrame (Pd.columns df) seg2) /\
    Pd.values df1 = a ++ seg2 ++ b.
Proof.
  intros Hle Hex Ht1.
  assert (Hne : Pd.values df <> []).
  { intros E. rewrite E in Hex. inversion Hex. }
  assert (Hmono : forall r, movingb df thr2 r = true ->
                            movingb df thr1 r = true).
  { intros r Hr. apply movingb_exceeds. apply (exceeds_le thr1 thr2); auto.
    apply movingb_exceeds. exact Hr. }
  destruct (trim_joint_cases df thr2 Hne)
    as [[Hall _]|(pre2 & seg2 & post2 & p1 & p2 & E2 & Ht2 & Hpre2 & Hpost2
                  & Hh2 & Hp1 & Hl2 & Hp2)].
  { exfalso. apply Exists_exists in Hex. destruct Hex as (r & Hin & Hr).
    apply movingb_exceeds in Hr. rewrite Forall_forall in Hall.
    rewrite (Hall r Hin) in Hr. discriminate. }
  destruct (trim_joint_cases df thr1 Hne)
    as [[Hall Ht]|(pre1 & seg1 & post1 & q1 & q2 & E1 & Ht & Hpre1 & Hpost1
                   & _)].
  - (* nothing moves at the lower threshold: impossible *)
    exfalso. apply Exists_exists in Hex. destruct Hex as (r & Hin & Hr).
    apply movingb_exceeds, Hmono in Hr. rewrite Forall_forall in Hall.
    rewrite (Hall r Hin) in Hr. discriminate.
  - rewrite Ht in Ht1. injection Ht1 as <-.
    destruct seg2 as [|x seg2'] eqn:Es2; [discriminate|].
    injection Hh2 as ->.
    (* the front *)
    assert (Efront : pre1 ++ (seg1 ++ post1) = pre2 ++ p1 :: (seg2' ++ post2))
      by (rewrite <- E1, E2; reflexivity).
    destruct (front_nested (movingb df thr1) _ _ _ _ _ Efront Hpre1
                (Hmono p1 Hp1)) as (a & Ea & Erest).
    (* the back, on the reversed recording *)
    destruct (rev (p1 :: seg2')) as [|y t] eqn:Erev; [discriminate|].
    injection Hl2 as ->.
    assert (Eback : rev post1 ++ (rev seg1 ++ rev pre1) =
                    rev post2 ++ p2 :: (t ++ rev pre2)).
    { rewrite <- !rev_app_distr, <- !app_assoc, <- E1, E2.
      rewrite !rev_app_distr, Erev, <- !app_assoc. reflexivity. }
    destruct (front_nested (movingb df thr1) _ _ _ _ _ Eback
                (Forall_rev Hpost1) (Hmono p2 Hp2)) as (b' & Eb & _).
    assert (Epost : post2 = rev b' ++ post1).
    { rewrite <- (rev_involutive post2), Eb, rev_app_distr, rev_involutive.
      reflexivity. }
    assert (Eseg : seg1 = a ++ (p1 :: seg2') ++ rev b').
    { assert (H : pre1 ++ seg1 ++ post1 =
                  pre1 ++ (a ++ (p1 :: seg2') ++ rev b') ++ post1).
      { rewrite <- E1, E2, Ea, Epost, <- !app_assoc. reflexivity. }
      apply app_inv_head in H. apply app_inv_tail in H. exact H. }
    exists (p1 :: seg2'), a, (rev b').
    split; [exact Ht2|]. split; [|exact Eseg].
    set (D := Pd.mkDataFrame (Pd.columns df) seg1).
    assert (Hm : forall row, movingb D thr2 row = movingb df thr2 row)
      by (intros row; apply movingb_columns; reflexivity).
    apply (trim_joint_of_decomposition D thr2 a (p1 :: seg2') (rev b') p1 p2).
    + exact Eseg.
    + apply Forall_forall. intros r Hr. rewrite Hm.
      rewrite Forall_forall in Hpre2. apply Hpre2. rewrite Ea.
      apply in_or_app. right. exact Hr.
    + apply Forall_forall. intros r Hr. rewrite Hm.
      rewrite Forall_forall in Hpost2. apply Hpost2. rewrite Epost.
      apply in_or_app. left. exact Hr.
    + reflexivity.
    + rewrite Hm. exact Hp1.
    + rewrite Erev. reflexivity.
    + rewrite Hm. exact Hp2.
Qed.

(** X22: thresholds nest.  When some sample still exceeds the higher of
    two thresholds, trimming at the lower one first and then at the higher
    one gives what trimming at the higher one gives, and that is a block of
    the recording trimmed at the lower threshold. *)
Theorem trim_thresholds_nest
    (df df1 : Pd.DataFrame) (thr1 thr2 : R) :
  thr1 <= thr2 ->
  Exists (fun row => exceeds thr2 (sample_vels df row)) (Pd.values df) ->
  trim_joint df thr1 = Ok df1 ->
  trim_joint df1 thr2 = trim_joint df thr2 /\
  exists df2 a b,
    trim_joint df thr2 = Ok df2 /\
    Pd.values df1 = a ++ Pd.values df2 ++ b.
Proof.
  intros Hle Hex Ht.
  destruct (trim_nested df thr1 thr2 df1 Hle Hex Ht)
    as (seg2 & a & b & H2 & H12 & E).
  split; [congruence|].
  exists (Pd.mkDataFrame (Pd.columns df) seg2), a, b. auto.
Qed.

Lemma trim_thresholds_nest_witness :
  trim_joint
    (Pd.mkDataFrame (Pd.columns df_ramp)
       (firstn 4 (skipn 3 (Pd.values df_ramp)))) 2 =
  trim_joint df_ramp 2.
Proof.
  assert (H1 : 1 <= 2) by lra.
  assert (H2 : Exists (fun row => exceeds 2 (sample_vels df_ramp row))
                 (Pd.values df_ramp)).
  { unfold df_ramp, frame. cbn. do 4 apply Exists_cons_tl.
    apply Exists_cons_hd. vels_eval. apply Exists_cons_hd. lra. }
  assert (H3 : trim_joint df_ramp 1 =
    Ok (Pd.mkDataFrame (Pd.columns df_ramp)
          (firstn 4 (skipn 3 (Pd.values df_ramp)))))
    by (unfold df_ramp; trim_eval; reflexivity).
  exact (proj1 (trim_thresholds_nest df_ramp _ 1 2 H1 H2 H3)).
Defined.

(** ** Paths without a repeated point *)

Lemma norm_diff_nth ps i :
  (S i < List.length ps)%nat ->
  nth i (Np.norm_axis1 (Np.diff ps)) 0 =
  euclid (nth i ps []) (nth (S i) ps []).
Proof.
  revert i. induction ps as [|p ps IH]; intros i Hi; [simpl in Hi; lia|].
  destruct ps as [|q ps]; [simpl in Hi; lia|].
  rewrite diff_cons. destruct i as [|i]; [reflexivity|].
  change (nth (S i) (Np.norm_axis1 (Np.sub_row q p :: Np.diff (q :: ps))) 0)
    with (nth i (Np.norm_axis1 (Np.diff (q :: ps))) 0).
  rewrite IH by (simpl in *; lia). reflexivity.
Qed.

Lemma sum_firstn_S l i :
  (i < List.length l)%nat ->
  Np.sum (firstn (S i) l) = Np.sum (firstn i l) + nth i l 0.
Proof.
  revert i. induction l as [|v l IH]; intros i Hi; [simpl in Hi; lia|].
  destruct i as [|i].
  - unfold Np.sum. simpl. lra.
  - change (firstn (S (S i)) (v :: l)) with (v :: firstn (S i) l).
    change (firstn (S i) (v :: l)) with (v :: firstn i l).
    change (nth (S i) (v :: l) 0) with (nth i l 0).
    change (Np.sum (v :: firstn (S i) l)) with (v + Np.sum (firstn (S i) l)).
    change (Np.sum (v :: firstn i l)) with (v + Np.sum (firstn i l)).
    rewrite IH by (simpl in Hi; lia). lra.
Qed.

Lemma partial_path_step ps i :
  (S i < List.length ps)%nat ->
  path_length (firstn (S (S i)) ps) =
  path_length (firstn (S i) ps) + euclid (nth i ps []) (nth (S i) ps []).
Proof.
  intros Hi. rewrite <- !partial_path_length, <- norm_diff_nth by exact Hi.
  apply sum_firstn_S.
  unfold Np.norm_axis1. rewrite length_map, diff_length. lia.
Qed.

Lemma euclid_nonneg p q : 0 <= euclid p q.
Proof. apply sqrt_pos. Qed.

Lemma remove_duplicate_points_strict s (positions : list (list R)) :
  Sorted Rlt s -> List.length positions = List.length s ->
  remove_duplicate_points s positions = Ok (s, positions).
Proof.
  intros Hs Hlen.
  rewrite remove_duplicate_points_mask
    by (try apply sorted_lt_le; assumption).
  destruct s as [|x s].
  - destruct positions; [reflexivity | discriminate].
  - destruct positions as [|p positions]; [discriminate|].
    simpl first_mask. rewrite !compress_cons.
    rewrite !(compress_neq_prev_strict x s) by (simpl in Hlen; auto; lia).
    reflexivity.
Qed.

(** X23: on a path of at least two points on which no two consecutive
    points coincide, the parametrization succeeds with strictly increasing
    coordinates, and the duplicate-point filter removes nothing. *)
Theorem distinct_points_all_kept (positions : list (list R)) :
  (2 <= List.length positions)%nat ->
  (forall i, (S i < List.length positions)%nat ->
     euclid (nth i positions []) (nth (S i) positions []) <> 0) ->
  exists s,
    compute_arc_length_parametrization positions = Ok s /\
    Sorted Rlt s /\
    remove_duplicate_points s positions = Ok (s, positions).
Proof.
  intros Hlen Hstep.
  assert (Hpath : 0 < path_length positions).
  { pose proof (partial_path_le_total positions 1) as Hle.
    rewrite (partial_path_step positions 0) in Hle by lia.
    pose proof (Hstep 0%nat ltac:(lia)) as H0.
    pose proof (euclid_nonneg (nth 0 positions []) (nth 1 positions [])).
    pose proof (path_length_nonneg (firstn 1 positions)). lra. }
  eexists. split; [apply arc_length_ok; [exact Hlen | lra]|].
  assert (Hl : List.length
                 (map (fun a => a / arc_divisor positions)
                    (0 :: Np.cumsum (Np.norm_axis1 (Np.diff positions)))) =
               List.length positions).
  { rewrite length_map. apply arc_lengths_length. lia. }
  assert (Hs : Sorted Rlt
                 (map (fun a => a / arc_divisor positions)
                    (0 :: Np.cumsum (Np.norm_axis1 (Np.diff positions))))).
  { apply sorted_of_nth. intros i Hi.
    assert (Hi' : (S i < List.length positions)%nat)
      by (rewrite <- Hl; exact Hi).
    rewrite !arc_length_nth by lia.
    rewrite (partial_path_step positions i) by exact Hi'.
    pose proof (Hstep i Hi') as Hne.
    pose proof (euclid_nonneg (nth i positions []) (nth (S i) positions [])).
    unfold Rdiv. apply Rmult_lt_compat_r; [|lra].
    apply Rinv_0_lt_compat. exact Hpath. }
  split; [exact Hs|].
  apply remove_duplicate_points_strict; [exact Hs | congruence].
Qed.

Lemma distinct_points_all_kept_witness :
  exists s,
    compute_arc_length_parametrization two_legs = Ok s /\
    Sorted Rlt s /\
    remove_duplicate_points s two_legs = Ok (s, two_legs).
Proof.
  assert (H1 : (2 <= List.length two_legs)%nat) by (simpl; lia).
  assert (H2 : forall i, (S i < List.length two_legs)%nat ->
                 euclid (nth i two_legs []) (nth (S i) two_legs []) <> 0).
  { intros i Hi. simpl in Hi.
    assert (Hpos : forall x, 0 < x -> sqrt x <> 0).
    { intros x Hx. pose proof (sqrt_lt_R0 x Hx). lra. }
    destruct i as [|[|i]]; [| |lia]; unfold euclid; cbn;
      apply Hpos; unfold Rsqr; lra. }
  exact (distinct_points_all_kept two_legs H1 H2).
Defined.

(** ** Where the figure is saved *)

Lemma startswith_app old post : Os.startswith old (old ++ post) = true.
Proof.
  induction old as [|a old IH]; [reflexivity|].
  simpl. rewrite Ascii.eqb_refl, IH. reflexivity.
Qed.

Lemma replace_from_skip old new a b :
  Os.replace_from old new (List.length a) (a ++ b) =
  Os.replace_from old new 0 b.
Proof. induction a as [|c a IH]; [reflexivity | exact IH]. Qed.

Lemma replace_at_end old new stem :
  old <> [] ->
  Os.find old (stem ++ old) = Some (List.length stem) ->
  Os.replace old new (stem ++ old) = stem ++ new.
Proof.
  intros Hold. unfold Os.replace.
  induction stem as [|c stem IH]; intros Hfind.
  - destruct old as [|o old']; [congruence|].
    simpl app.
    change (Os.replace_from (o :: old') new 0 (o :: old'))
      with (if Os.startswith (o :: old') (o :: old')
            then new ++ Os.replace_from (o :: old') new
                          (List.length (o :: old') - 1) old'
            else o :: Os.replace_from (o :: old') new 0 old').
    rewrite <- (app_nil_r (o :: old')) at 2.
    rewrite startswith_app.
    replace (List.length (o :: old') - 1)%nat with (List.length old')
      by (simpl; lia).
    rewrite <- (app_nil_r old') at 3.
    rewrite replace_from_skip. simpl. rewrite app_nil_r. reflexivity.
  - simpl app in *. simpl Os.find in Hfind.
    destruct (Os.startswith old (c :: stem ++ old)) eqn:Es;
      [discriminate Hfind|].
    destruct (Os.find old (stem ++ old)) as [k|] eqn:Ef; [|discriminate Hfind].
    simpl in Hfind. injection Hfind as ->.
    simpl Os.replace_from. rewrite Es. f_equal. apply IH. reflexivity.
Qed.

Lemma replace_absent old new s :
  Os.find old s = None -> Os.replace old new s = s.
Proof.
  unfold Os.replace. induction s as [|c s IH]; intros Hfind; [reflexivity|].
  simpl Os.find in Hfind.
  destruct (Os.startswith old (c :: s)) eqn:Es; [discriminate Hfind|].
  destruct (Os.find old s) as [k|]; [discriminate Hfind|].
  simpl Os.replace_from. rewrite Es. f_equal. apply IH. reflexivity.
Qed.

Lemma rsplit_no_sep name :
  no_sep name = true -> Os.rsplit_sep name = ([], name).
Proof.
  induction name as [|c name IH]; intros H; [reflexivity|].
  simpl in H. apply andb_true_iff in H. destruct H as [Hc Hn].
  simpl. rewrite (IH Hn). apply negb_true_iff in Hc. rewrite Hc. reflexivity.
Qed.

Lemma rsplit_dir dir name :
  no_sep name = true ->
  Os.rsplit_sep (dir ++ Os.sep :: name) = (dir ++ [Os.sep], name).
Proof.
  intros Hn. induction dir as [|c dir IH].
  - simpl. rewrite (rsplit_no_sep name Hn). reflexivity.
  - simpl app. simpl Os.rsplit_sep. rewrite IH.
    destruct (dir ++ [Os.sep]) eqn:E; [|reflexivity].
    destruct dir; discriminate E.
Qed.

Lemma endswith_cons c dir :
  dir <> [] -> Os.endswith_sep (c :: dir) = Os.endswith_sep dir.
Proof.
  intros Hne. unfold Os.endswith_sep. simpl rev.
  destruct (rev dir) as [|x t] eqn:E; [|reflexivity].
  exfalso. apply Hne. rewrite <- (rev_involutive dir), E. reflexivity.
Qed.

Lemma rstrip_app_sep dir :
  Os.rstrip_sep (dir ++ [Os.sep]) = Os.rstrip_sep dir.
Proof.
  induction dir as [|c dir IH]; [reflexivity|].
  simpl app. simpl Os.rstrip_sep. rewrite IH. reflexivity.
Qed.

Lemma rstrip_unchanged dir :
  Os.endswith_sep dir = false -> Os.rstrip_sep dir = dir.
Proof.
  induction dir as [|c dir IH]; intros H; [reflexivity|].
  destruct dir as [|d dir].
  - unfold Os.endswith_sep in H. simpl in H. simpl. rewrite H. reflexivity.
  - rewrite endswith_cons in H by discriminate.
    simpl Os.rstrip_sep in *. rewrite (IH H). reflexivity.
Qed.

Lemma not_all_sep dir :
  dir <> [] -> Os.endswith_sep dir = false ->
  forallb (fun c => Ascii.eqb c Os.sep) dir = false.
Proof.
  induction dir as [|c dir IH]; intros Hne H; [congruence|].
  destruct dir as [|d dir].
  - unfold Os.endswith_sep in H. simpl in H. simpl. rewrite H. reflexivity.
  - rewrite endswith_cons in H by discriminate.
    change (forallb (fun c0 => Ascii.eqb c0 Os.sep) (c :: d :: dir))
      with (Ascii.eqb c Os.sep &&
            forallb (fun c0 => Ascii.eqb c0 Os.sep) (d :: dir)).
    rewrite IH by (discriminate || exact H). apply andb_false_r.
Qed.

Lemma basename_dir dir name :
  no_sep name = true -> Os.basename (dir ++ Os.sep :: name) = name.
Proof. intros H. unfold Os.basename. rewrite rsplit_dir by exact H. reflexivity. Qed.

Lemma dirname_dir dir name :
  dir <> [] -> Os.endswith_sep dir = false -> no_sep name = true ->
  Os.dirname (dir ++ Os.sep :: name) = dir.
Proof.
  intros Hne He Hn. unfold Os.dirname. rewrite rsplit_dir by exact Hn.
  simpl fst. destruct (dir ++ [Os.sep]) as [|x t] eqn:E.
  - destruct dir; discriminate E.
  - rewrite <- E, forallb_app, (not_all_sep dir Hne He). simpl.
    rewrite rstrip_app_sep. apply rstrip_unchanged. exact He.
Qed.

Lemma join_dir dir b :
  dir <> [] -> Os.endswith_sep dir = false ->
  Os.startswith [Os.sep] b = false ->
  Os.join dir b = dir ++ Os.sep :: b.
Proof.
  intros Hne He Hb. unfold Os.join. rewrite Hb, He.
  destruct dir; [congruence | reflexivity].
Qed.

Lemma startswith_sep_cons c rest :
  Ascii.eqb c Os.sep = false -> Os.startswith [Os.sep] (c :: rest) = false.
Proof.
  intros Hc.
  change (Os.startswith [Os.sep] (c :: rest)) with (Ascii.eqb Os.sep c && true).
  rewrite Ascii.eqb_sym, Hc. reflexivity.
Qed.

Lemma no_sep_startswith name :
  no_sep name = true -> Os.startswith [Os.sep] name = false.
Proof.
  intros H. destruct name as [|c name]; [reflexivity|].
  simpl in H. apply andb_true_iff in H. destruct H as [Hc _].
  apply negb_true_iff in Hc. apply startswith_sep_cons. exact Hc.
Qed.

Lemma plot_path_renamed suffix dir stem :
  dir <> [] -> Os.endswith_sep dir = false -> no_sep stem = true ->
  Os.find (list_ascii_of_string "_planned.csv")
    (stem ++ list_ascii_of_string "_planned.csv") = Some (List.length stem) ->
  Os.startswith [Os.sep] (list_ascii_of_string suffix) = false ->
  plot_path suffix
    (dir ++ Os.sep :: stem ++ list_ascii_of_string "_planned.csv") =
  dir ++ Os.sep :: stem ++ list_ascii_of_string suffix.
Proof.
  intros Hne He Hs Hfind Hsuf. unfold plot_path.
  assert (Hname : no_sep (stem ++ list_ascii_of_string "_planned.csv") = true).
  { unfold no_sep in *. rewrite forallb_app, Hs. reflexivity. }
  rewrite basename_dir, dirname_dir by assumption.
  rewrite replace_at_end by (discriminate || exact Hfind).
  apply join_dir; [exact Hne | exact He|].
  destruct stem as [|c stem]; [exact Hsuf|].
  simpl in Hs. apply andb_true_iff in Hs. destruct Hs as [Hc _].
  apply negb_true_iff in Hc. apply startswith_sep_cons. exact Hc.
Qed.

(** X24: for a planned file [dir/stem_planned.csv], where [dir] is not
    empty and does not end with a separator, [stem] has no separator and
    ["_planned.csv"] occurs in the name at its end only, the figure of the
    joint-space comparison is saved beside it as
    [dir/stem_compare_planned_vs_executed.png], and the one of the Cartesian
    comparison as [dir/stem_compare_cartesian_planned_vs_executed.png]. *)
Theorem plot_path_beside_planned (dir stem : list ascii) :
  dir <> [] -> Os.endswith_sep dir = false -> no_sep stem = true ->
  Os.find (list_ascii_of_string "_planned.csv")
    (stem ++ list_ascii_of_string "_planned.csv") = Some (List.length stem) ->
  plot_path_joint
    (dir ++ Os.sep :: stem ++ list_ascii_of_string "_planned.csv") =
    dir ++ Os.sep :: stem ++
    list_ascii_of_string "_compare_planned_vs_executed.png" /\
  plot_path_cartesian
    (dir ++ Os.sep :: stem ++ list_ascii_of_string "_planned.csv") =
    dir ++ Os.sep :: stem ++
    list_ascii_of_string "_compare_cartesian_planned_vs_executed.png".
Proof.
  intros Hne He Hs Hfind.
  split; apply plot_path_renamed; try assumption; reflexivity.
Qed.

Lemma plot_path_beside_planned_witness :
  plot_path_joint
    (data_dir ++ Os.sep :: planned_stem ++ list_ascii_of_string "_planned.csv")
  = list_ascii_of_string "src/data/trajectory_1_compare_planned_vs_executed.png".
Proof.
  assert (H1 : data_dir <> []) by discriminate.
  assert (H2 : Os.endswith_sep data_dir = false) by reflexivity.
  assert (H3 : no_sep planned_stem = true) by reflexivity.
  assert (H4 : Os.find (list_ascii_of_string "_planned.csv")
                 (planned_stem ++ list_ascii_of_string "_planned.csv") =
               Some (List.length planned_stem)) by reflexivity.
  exact (proj1 (plot_path_beside_planned data_dir planned_stem H1 H2 H3 H4)).
Defined.

(** X25: when the name of the planned file does not contain
    ["_planned.csv"], nothing is replaced and the path of the figure is the
    path of the planned file itself, in both comparisons. *)
Theorem plot_path_not_renamed (dir name : list ascii) :
  dir <> [] -> Os.endswith_sep dir = false -> no_sep name = true ->
  Os.find (list_ascii_of_string "_planned.csv") name = None ->
  plot_path_joint (dir ++ Os.sep :: name) = dir ++ Os.sep :: name /\
  plot_path_cartesian (dir ++ Os.sep :: name) = dir ++ Os.sep :: name.
Proof.
  intros Hne He Hn Hfind.
  assert (H : forall suffix,
            plot_path suffix (dir ++ Os.sep :: name) = dir ++ Os.sep :: name).
  { intros suffix. unfold plot_path.
    rewrite basename_dir, dirname_dir by assumption.
    rewrite replace_absent by exact Hfind.
    apply join_dir; [exact Hne | exact He|].
    apply no_sep_startswith. exact Hn. }
  split; apply H.
Qed.

Lemma plot_path_not_renamed_witness :
  plot_path_joint (data_dir ++ Os.sep :: other_name) =
  data_dir ++ Os.sep :: other_name.
Proof.
  assert (H1 : data_dir <> []) by discriminate.
  assert (H2 : Os.endswith_sep data_dir = false) by reflexivity.
  assert (H3 : no_sep other_name = true) by reflexivity.
  assert (H4 : Os.find (list_ascii_of_string "_planned.csv") other_name = None)
    by reflexivity.
  exact (proj1 (plot_path_not_renamed data_dir other_name H1 H2 H3 H4)).
Defined.

(** ** Straight paths *)


Lemma sub_row_point_on A B t t' :
  Np.sub_row (point_on A B t') (point_on A B t) =
  map (Rmult (t' - t)) (Np.sub_row B A).
Proof.
  unfold Np.sub_row, point_on. revert B.
  induction A as [|a A IH]; intros [|b B]; try reflexivity.
  simpl. f_equal; [ring | apply IH].
Qed.

Lemma euclid_point_on A B t t' :
  t <= t' -> euclid (point_on A B t) (point_on A B t') = (t' - t) * euclid A B.
Proof.
  intros Hle. unfold euclid.
  rewrite sub_row_point_on, sum_squares_scale, sqrt_mult;
    [|apply Rle_0_sqr | apply sum_squares_nonneg].
  rewrite sqrt_Rsqr_abs, Rabs_right by lra. reflexivity.
Qed.

Lemma path_prefix_on A B t ts i :
  Sorted Rle (t :: ts) -> (i <= List.length ts)%nat ->
  path_length (firstn (S i) (points_on A B (t :: ts))) =
  (nth i (t :: ts) 0 - t) * euclid A B.
Proof.
  revert t i. induction ts as [|t' ts IH]; intros t i Hs Hi.
  - simpl in Hi. replace i with 0%nat by lia. simpl. ring.
  - destruct i as [|i]; [simpl; ring|].
    apply Sorted_inv in Hs. destruct Hs as [Hs Hhd].
    apply HdRel_inv in Hhd.
    change (firstn (S (S i)) (points_on A B (t :: t' :: ts)))
      with (point_on A B t :: firstn (S i) (points_on A B (t' :: ts))).
    change (firstn (S i) (points_on A B (t' :: ts)))
      with (point_on A B t' :: firstn i (points_on A B ts)).
    change (path_length
              (point_on A B t :: point_on A B t'
               :: firstn i (points_on A B ts)))
      with (euclid (point_on A B t) (point_on A B t') +
            path_length (point_on A B t' :: firstn i (points_on A B ts))).
    change (point_on A B t' :: firstn i (points_on A B ts))
      with (firstn (S i) (points_on A B (t' :: ts))).
    rewrite IH by (try exact Hs; simpl in Hi; lia).
    rewrite euclid_point_on by exact Hhd.
    change (nth (S i) (t :: t' :: ts) 0) with (nth i (t' :: ts) 0). ring.
Qed.

(** The parametrization of points on a segment gives back their
    fractions. *)
Lemma arc_length_on_segment A B ts :
  euclid A B <> 0 -> Sorted Rle ts -> hd 0 ts = 0 -> last ts 0 = 1 ->
  compute_arc_length_parametrization (points_on A B ts) = Ok ts.
Proof.
  intros HL Hs H0 H1.
  pose proof (two_coordinates ts H0 H1) as H2.
  destruct ts as [|t ts]; [simpl in H2; lia|].
  simpl in H0. subst t.
  assert (Hlen : List.length (points_on A B (0 :: ts)) = S (List.length ts))
    by (unfold points_on; rewrite length_map; reflexivity).
  assert (Hprefix : forall i, (i <= List.length ts)%nat ->
            path_length (firstn (S i) (points_on A B (0 :: ts))) =
            nth i (0 :: ts) 0 * euclid A B).
  { intros i Hi. rewrite path_prefix_on by assumption. ring. }
  assert (Htotal : path_length (points_on A B (0 :: ts)) = euclid A B).
  { rewrite <- (firstn_all (points_on A B (0 :: ts))), Hlen.
    rewrite Hprefix by lia.
    rewrite last_nth in H1. simpl List.length in H1.
    replace (S (List.length ts) - 1)%nat with (List.length ts) in H1 by lia.
    rewrite H1. ring. }
  rewrite arc_length_ok by (rewrite ?Hlen, ?Htotal; simpl in *; lia || exact HL).
  f_equal. apply (nth_ext _ _ 0 0).
  - rewrite length_map, arc_lengths_length by lia. exact Hlen.
  - intros i Hi. rewrite length_map, arc_lengths_length, Hlen in Hi by lia.
    rewrite arc_length_nth by lia.
    rewrite Hprefix, Htotal by lia. field. exact HL.
Qed.

Lemma lerp_point_on A B x0 x1 x :
  x0 <> x1 ->
  lerp x0 x1 (point_on A B x0) (point_on A B x1) x = point_on A B x.
Proof.
  intros Hx. unfold lerp, point_on. revert B.
  induction A as [|a A IH]; intros [|b B]; try reflexivity.
  simpl. f_equal; [field; lra | apply IH].
Qed.

Lemma nth_points_on A B ts i :
  (i < List.length ts)%nat ->
  nth i (points_on A B ts) [] = point_on A B (nth i ts 0).
Proof. intros Hi. unfold points_on. apply nth_map_in. exact Hi. Qed.

Lemma resample_on_segment A B ts n_points :
  Sorted Rlt ts -> hd 0 ts = 0 -> last ts 0 = 1 ->
  resample ts (points_on A B ts) n_points =
  Ok (points_on A B (Np.linspace 0 1 n_points)).
Proof.
  intros Hs H0 H1. pose proof (two_coordinates ts H0 H1) as H2.
  rewrite resample_unit_ok;
    [|exact Hs | lia | unfold points_on; apply length_map | exact H0 | exact H1].
  f_equal. unfold points_on at 2. apply map_ext_in. intros x Hx.
  pose proof (linspace_unit_Forall_any n_points) as Hall.
  rewrite Forall_forall in Hall. specialize (Hall x Hx).
  destruct (call_linear_piecewise ts (points_on A B ts) x Hs H2)
    as (i & Hi & _ & ->).
  { rewrite <- hd_nth0, H0, H1. exact Hall. }
  rewrite !nth_points_on by lia.
  apply lerp_point_on.
  pose proof (sorted_lt_nth ts i (S i) Hs ltac:(lia)). lra.
Qed.

Lemma rmse_3d_self p : rmse_3d p p = 0.
Proof.
  unfold rmse_3d, Np.mean.
  assert (H : Np.sum (Np.sum_axis1 (Np.square (Np.sub p p))) = 0).
  { unfold Np.sum_axis1, Np.square, Np.sub.
    induction p as [|row p IH]; [reflexivity|].
    simpl. unfold Np.sum in *. simpl. rewrite IH.
    assert (Hrow : fold_right Rplus 0 (map Rsqr (Np.sub_row row row)) = 0).
    { unfold Np.sub_row. clear. induction row as [|v row IH]; [reflexivity|].
      simpl. rewrite IH, Rminus_diag, Rsqr_0. ring. }
    rewrite Hrow. ring. }
  rewrite H. unfold Rdiv. rewrite Rmult_0_l. apply sqrt_0.
Qed.

Lemma dedupe_points_on A B ts :
  Sorted Rle ts ->
  remove_duplicate_points ts (points_on A B ts) =
  Ok (Np.compress (first_mask ts) ts,
      points_on A B (Np.compress (first_mask ts) ts)).
Proof.
  intros Hs.
  rewrite remove_duplicate_points_mask
    by (try exact Hs; unfold points_on; apply length_map).
  unfold points_on. rewrite compress_map. reflexivity.
Qed.

Lemma dedupe_coordinates ts :
  Sorted Rle ts -> hd 0 ts = 0 -> last ts 0 = 1 ->
  Sorted Rlt (Np.compress (first_mask ts) ts) /\
  hd 0 (Np.compress (first_mask ts) ts) = 0 /\
  last (Np.compress (first_mask ts) ts) 0 = 1.
Proof.
  intros Hs H0 H1. destruct ts as [|x ts]; [simpl in H1; lra|].
  simpl first_mask. rewrite compress_cons.
  destruct (compress_neq_prev_sorted x ts Hs) as [Hlt Hlast].
  split; [exact Hlt|]. split; [exact H0|]. rewrite Hlast. exact H1.
Qed.

(** X26: two recordings of the same straight path, from [A] to a distinct
    point [B], compare as equal however each of them is sampled: for
    fractions that never decrease from 0 to 1, repeated or not, and at
    least one point asked for, the Cartesian comparison of the positions
    returns an RMSE of 0. *)
Theorem straight_path_sampling_independent
    (A B : list R) (ts us : list R) (n_points : nat) :
  euclid A B <> 0 ->
  Sorted Rle ts -> hd 0 ts = 0 -> last ts 0 = 1 ->
  Sorted Rle us -> hd 0 us = 0 -> last us 0 = 1 ->
  (1 <= n_points)%nat ->
  compare_positions (points_on A B ts) (points_on A B us) n_points = Ok 0.
Proof.
  intros HL Hts Ht0 Ht1 Hus Hu0 Hu1 _. unfold compare_positions.
  rewrite !arc_length_on_segment by assumption. cbn [bind].
  rewrite !dedupe_points_on by assumption. cbn [bind].
  destruct (dedupe_coordinates ts Hts Ht0 Ht1) as (Hs1 & H01 & H11).
  destruct (dedupe_coordinates us Hus Hu0 Hu1) as (Hs2 & H02 & H12).
  replace (List.length (Np.compress (first_mask ts) ts) <? 2)%nat with false
    by (symmetry; apply Nat.ltb_ge; apply two_coordinates; assumption).
  replace (List.length (Np.compress (first_mask us) us) <? 2)%nat with false
    by (symmetry; apply Nat.ltb_ge; apply two_coordinates; assumption).
  cbn [orb]. rewrite !resample_on_segment by assumption. cbn [bind].
  rewrite rmse_3d_self. reflexivity.
Qed.

Lemma straight_path_sampling_independent_witness :
  compare_positions (points_on [0; 0; 0] [1; 2; 2] ts_coarse)
    (points_on [0; 0; 0] [1; 2; 2] ts_fine) 100 = Ok 0.
Proof.
  assert (H0 : euclid [0; 0; 0] [1; 2; 2] <> 0).
  { unfold euclid. cbn.
    assert (Hpos : 0 < sqrt (Rsqr (1 - 0) + (Rsqr (2 - 0) + (Rsqr (2 - 0) + 0))))
      by (apply sqrt_lt_R0; unfold Rsqr; lra).
    lra. }
  assert (H1 : Sorted Rle ts_coarse)
    by (unfold ts_coarse; repeat constructor; lra).
  assert (H2 : hd 0 ts_coarse = 0) by reflexivity.
  assert (H3 : last ts_coarse 0 = 1) by reflexivity.
  assert (H4 : Sorted Rle ts_fine)
    by (unfold ts_fine; repeat constructor; lra).
  assert (H5 : hd 0 ts_fine = 0) by reflexivity.
  assert (H6 : last ts_fine 0 = 1) by reflexivity.
  assert (H7 : (1 <= 100)%nat) by lia.
  exact (straight_path_sampling_independent [0; 0; 0] [1; 2; 2]
           ts_coarse ts_fine 100 H0 H1 H2 H3 H4 H5 H6 H7).
Defined.

(** ** A recording compared with itself *)








(** ** A change of unit *)

Lemma sub_scale k p e :
  Np.sub (scale k p) (scale k e) = scale k (Np.sub p e).
Proof.
  unfold Np.sub, scale. revert e.
  induction p as [|a p IH]; intros [|b e]; try reflexivity.
  simpl. f_equal; [apply sub_row_scale | apply IH].
Qed.

Lemma square_scale k a :
  Np.square (scale k a) = scale (Rsqr k) (Np.square a).
Proof.
  unfold Np.square, scale. rewrite !map_map. apply map_ext. intros row.
  rewrite !map_map. apply map_ext. intros v. apply Rsqr_mult.
Qed.

Lemma scale_shape k n c a : shape n c a -> shape n c (scale k a).
Proof.
  intros [Hn Hc]. split; [unfold scale; rewrite length_map; exact Hn|].
  unfold scale. apply Forall_forall. intros row Hrow.
  apply in_map_iff in Hrow. destruct Hrow as (r & <- & Hr).
  rewrite length_map. rewrite Forall_forall in Hc. apply Hc. exact Hr.
Qed.

Lemma scale_nth k n c a i j :
  shape n c a -> (i < n)%nat -> (j < c)%nat ->
  nth j (nth i (scale k a) []) 0 = k * nth j (nth i a []) 0.
Proof.
  intros Ha Hi Hj. pose proof (shape_row n c a i Ha Hi) as Hrow.
  unfold scale.
  rewrite (nth_map_in _ _ _ []) by (destruct Ha; lia).
  apply nth_map_in. lia.
Qed.

Lemma sq_err_scale k n c p e i j :
  shape n c p -> shape n c e -> (i < n)%nat -> (j < c)%nat ->
  sq_err (scale k p) (scale k e) i j = Rsqr k * sq_err p e i j.
Proof.
  intros Hp He Hi Hj. unfold sq_err.
  rewrite (scale_nth k n c p), (scale_nth k n c e) by assumption.
  rewrite <- Rmult_minus_distr_l. apply Rsqr_mult.
Qed.

Lemma sum_upto_scale n f k :
  sum_upto n (fun i => k * f i) = k * sum_upto n f.
Proof.
  induction n as [|n IH]; [unfold sum_upto; simpl; ring|].
  rewrite !sum_upto_S, IH. ring.
Qed.

Lemma sqrt_scaled k x : 0 <= x -> sqrt (Rsqr k * x) = Rabs k * sqrt x.
Proof.
  intros Hx. rewrite sqrt_mult by (apply Rle_0_sqr || exact Hx).
  rewrite sqrt_Rsqr_abs. reflexivity.
Qed.

(** X28: a change of unit scales the metrics.  When both trajectories are
    multiplied by [k], each per-joint RMSE, the total RMSE and the 3-D RMSE
    are multiplied by the absolute value of [k]. *)
Theorem rmse_scaling (k : R) (planned executed : list (list R)) (n c : nat) :
  (1 <= n)%nat -> shape n c planned -> shape n c executed ->
  rmse (scale k planned) (scale k executed) =
    map (Rmult (Rabs k)) (rmse planned executed) /\
  total_rmse (scale k planned) (scale k executed) =
    Rabs k * total_rmse planned executed /\
  rmse_3d (scale k planned) (scale k executed) =
    Rabs k * rmse_3d planned executed.
Proof.
  intros Hn Hp He.
  pose proof (scale_shape k n c planned Hp) as Hp'.
  pose proof (scale_shape k n c executed He) as He'.
  assert (HN : 0 < INR n) by (apply lt_0_INR; lia).
  assert (Htotal :
    sum_upto n (fun i => sum_upto c
                  (fun j => sq_err (scale k planned) (scale k executed) i j)) =
    Rsqr k * sum_upto n (fun i => sum_upto c
                           (fun j => sq_err planned executed i j))).
  { rewrite <- sum_upto_scale. apply sum_upto_ext. intros i Hi.
    rewrite <- sum_upto_scale. apply sum_upto_ext. intros j Hj.
    apply (sq_err_scale k n c); assumption. }
  pose proof (sq_total_nonneg planned executed n c) as HS.
  split; [|split].
  - apply (nth_ext _ _ 0 0).
    + rewrite length_map, !(rmse_length _ _ n c) by assumption. reflexivity.
    + intros j Hj. rewrite (rmse_length _ _ n c) in Hj by assumption.
      rewrite (nth_map_in _ _ _ 0)
        by (rewrite (rmse_length _ _ n c) by assumption; exact Hj).
      rewrite !(rmse_nth _ _ n c) by assumption.
      rewrite <- sqrt_scaled.
      * f_equal. unfold Rdiv. rewrite <- Rmult_assoc. f_equal.
        rewrite <- sum_upto_scale. apply sum_upto_ext. intros i Hi.
        apply (sq_err_scale k n c); assumption.
      * apply Rmult_le_pos;
          [|left; apply Rinv_0_lt_compat; exact HN].
        apply sum_upto_nonneg. intros i _. apply Rle_0_sqr.
  - rewrite !(total_rmse_entries _ _ n c) by assumption.
    rewrite Htotal, <- sqrt_scaled.
    + f_equal. unfold Rdiv. ring.
    + unfold Rdiv. apply Rmult_le_pos; [exact HS|].
      destruct c as [|c'].
      * rewrite Nat.mul_0_r. simpl INR. rewrite Rinv_0. lra.
      * left. apply Rinv_0_lt_compat, lt_0_INR. destruct n; simpl; lia.
  - rewrite !(rmse_3d_entries _ _ n c) by assumption.
    rewrite Htotal, <- sqrt_scaled.
    + f_equal. unfold Rdiv. ring.
    + apply Rmult_le_pos; [exact HS|].
      left. apply Rinv_0_lt_compat. exact HN.
Qed.

Lemma rmse_scaling_witness :
  total_rmse (scale 1000 planned_two) (scale 1000 executed_two) =
  Rabs 1000 * total_rmse planned_two executed_two.
Proof.
  assert (H1 : (1 <= 2)%nat) by lia.
  assert (H2 : shape 2 3 planned_two) by (split; repeat constructor).
  assert (H3 : shape 2 3 executed_two) by (split; repeat constructor).
  exact (proj1 (proj2 (rmse_scaling 1000 _ _ 2 3 H1 H2 H3))).
Defined.
